(** * Channel/call stack engine, HPACK parser table and graceful GOAWAY

    A shallow embedding of
    - [src/core/lib/channel/channel_stack.cc] (memory layout, construction,
      destruction and forwarding of channel and call stacks),
    - [src/core/ext/transport/chttp2/transport/hpack_parser_table.h]
      (the HPACK table's unified index space), and
    - the server behaviour exercised by
      [test/core/transport/chttp2/graceful_shutdown_test.cc],
    followed by the properties of each that the specification states. *)

From stdpp Require Import base numbers option list gmap strings.
From Stdlib Require Import ZArith Lia Bool.

Open Scope Z_scope.

(** ** Machine integers and alignment *)

Module Alloc.

(** [size_t] and [uintptr_t] are 64 bits wide, [uint32_t] is 32 bits wide;
    unsigned arithmetic wraps. *)
Definition size_t (x : Z) : Z := x mod 2 ^ 64.
Definition uint32_t (x : Z) : Z := x mod 2 ^ 32.

(** The platform constants the translation unit takes from its headers: the
    maximum alignment and the sizes of the four header and element structs
    ([channel_stack.h] and [port_platform.h] are not among the sources, so
    they are parameters of the development). *)
Class Platform := {
  GPR_MAX_ALIGNMENT : Z;
  sizeof_grpc_channel_stack : Z;
  sizeof_grpc_channel_element : Z;
  sizeof_grpc_call_stack : Z;
  sizeof_grpc_call_element : Z
}.

(** Modelled from the spec: the macro [GPR_ROUND_UP_TO_ALIGNMENT_SIZE] is
    defined in [src/core/util/alloc.h], which is missing; the spec describes
    it as rounding a size up to the fixed alignment boundary.  It is the
    usual mask idiom [(x + A - 1) & ~(A - 1)] on [size_t]. *)
Definition GPR_ROUND_UP_TO_ALIGNMENT_SIZE `{Platform} (x : Z) : Z :=
  Z.land (size_t (x + GPR_MAX_ALIGNMENT - 1))
         (size_t (Z.lnot (GPR_MAX_ALIGNMENT - 1))).

(** What a platform has to satisfy for the layout code to make sense: the
    alignment is a power of two that fits a [size_t], and a stack header is
    a non-empty struct that can still be rounded up. *)
Record sane_platform `{Platform} : Prop := {
  alignment_pow2 : ∃ k, 0 ≤ k < 64 ∧ GPR_MAX_ALIGNMENT = 2 ^ k;
  channel_stack_hdr : 0 < sizeof_grpc_channel_stack ≤ 2 ^ 64 - GPR_MAX_ALIGNMENT;
  call_stack_hdr : 0 < sizeof_grpc_call_stack ≤ 2 ^ 64 - GPR_MAX_ALIGNMENT;
  channel_element_pos : 0 < sizeof_grpc_channel_element < 2 ^ 64;
  call_element_pos : 0 < sizeof_grpc_call_element < 2 ^ 64
}.

(** A 64-bit Linux build: 16-byte alignment. *)
Definition linux_x86_64 : Platform := {|
  GPR_MAX_ALIGNMENT := 16;
  sizeof_grpc_channel_stack := 104;
  sizeof_grpc_channel_element := 16;
  sizeof_grpc_call_stack := 24;
  sizeof_grpc_call_element := 24
|}.

End Alloc.

(** ** How a call ends *)

Module Cxx.

(** A call returns, or a [CHECK] aborts the process, or it reads a slot
    that holds no object (undefined behaviour in C++). *)
Inductive outcome (A : Type) :=
| Returned (a : A)
| CheckFailed (what : string)
| UndefinedBehavior.
Arguments Returned {A} a.
Arguments CheckFailed {A} what.
Arguments UndefinedBehavior {A}.

#[global] Instance outcome_ret : MRet outcome := @Returned.
#[global] Instance outcome_bind : MBind outcome :=
  λ A B k o,
    match o with
    | Returned a => k a
    | CheckFailed what => CheckFailed what
    | UndefinedBehavior => UndefinedBehavior
    end.

End Cxx.

(** ** The channel and call stack engine ([channel_stack.cc]) *)

Module ChannelStack.
Import Alloc Cxx.

(** [grpc_error_handle] is an [absl::Status]: OK, or a code and a message. *)
Inductive grpc_error_handle :=
| OkStatus
| ErrorStatus (code : Z) (message : string).

Definition ok (e : grpc_error_handle) : bool :=
  match e with OkStatus => true | ErrorStatus _ _ => false end.

(** Pointers are addresses; [nullptr] is address 0. *)
Definition nullptr : Z := 0.

(** [grpc_core::ChannelArgs], as far as the engine reads it: the two object
    references it fetches with [GetObjectRef]. *)
Record ChannelArgs := {
  EventEngine_ref : option Z;
  BaseNode_ref : option Z
}.

Record grpc_channel_element_args := {
  channel_stack : Z;
  channel_args : ChannelArgs;
  is_first : bool;
  is_last : bool;
  blackboard : Z
}.

Record grpc_call_element_args := {
  call_stack : Z
}.

Record grpc_stream_refcount := {
  refs : Z;
  destroy : Z;
  destroy_arg : Z;
  object_type : string
}.

(** [W] is everything filters own and act on: their per-channel and per-call
    data regions and the world outside the engine.  The entry points of a
    filter are transformers of [W]; they are handed the address of their
    element and their arguments, and they leave the stack headers and the
    element arrays to the engine. *)
Class World := W : Type.

(** What a filter's call-init can read of the call stack it is handed: for
    an address, the [channel_data] and [call_data] pointers of the call
    element wired there, if one is. *)
Record call_element_pointers := {
  seen_channel_data : Z;
  seen_call_data : Z
}.

Definition call_stack_view : Type := Z → option call_element_pointers.

Section Engine.
Context `{Platform} {Wd : World}.

Record grpc_channel_filter := {
  start_transport_stream_op_batch : Z → Z → W → W;
  start_transport_op : Z → Z → W → W;
  sizeof_call_data : Z;
  init_call_elem :
    Z → grpc_call_element_args → call_stack_view → W → grpc_error_handle * W;
  set_pollset_or_pollset_set : Z → Z → W → W;
  destroy_call_elem : Z → Z → Z → W → W;
  sizeof_channel_data : Z;
  init_channel_elem : Z → grpc_channel_element_args → W → grpc_error_handle * W;
  destroy_channel_elem : Z → W → W;
  get_channel_info : Z → Z → W → W;
  name : string
}.

Record grpc_channel_element := {
  filter : grpc_channel_filter;
  channel_data : Z
}.

Record grpc_call_element := {
  call_filter : grpc_channel_filter;
  call_channel_data : Z;
  call_data : Z
}.

(** The stack headers.  The [ManualConstructor] members are [None] while
    not constructed. *)
Record grpc_channel_stack := {
  refcount : grpc_stream_refcount;
  count : Z;
  call_stack_size : Z;
  on_destroy : option (W → W);
  event_engine : option (option Z);
  stats_plugin_group : option unit;
  channelz_data_source : option (option Z)
}.

Record grpc_call_stack := {
  call_refcount : grpc_stream_refcount;
  call_count : Z
}.

(** Calls the engine makes into filters and into the members of the
    header, in the order it makes them. *)
Inductive event :=
| Call_init_channel_elem (filter_name : string) (elem : Z)
    (args : grpc_channel_element_args)
| Call_destroy_channel_elem (filter_name : string) (elem : Z)
| Call_init_call_elem (filter_name : string) (elem : Z)
    (args : grpc_call_element_args)
| Call_set_pollset_or_pollset_set (filter_name : string) (elem pollent : Z)
| Call_destroy_call_elem (filter_name : string) (elem : Z)
    (final_info then_schedule_closure : Z)
| Call_start_transport_stream_op_batch (filter_name : string) (elem op : Z)
| Call_start_transport_op (filter_name : string) (elem op : Z)
| Call_get_channel_info (filter_name : string) (elem channel_info : Z)
| Call_on_destroy
| Destroy_on_destroy
| Destroy_event_engine
| Destroy_stats_plugin_group
| Destroy_channelz_data_source.

(** Typed memory: which object starts at which address.  Objects are kept
    apart by kind and by start address; that the bytes of two objects do
    not overlap is a hypothesis ([separate]) of the statements that need
    it. *)
Record memory := {
  channel_stacks : gmap Z grpc_channel_stack;
  channel_elements : gmap Z grpc_channel_element;
  call_stacks : gmap Z grpc_call_stack;
  call_elements : gmap Z grpc_call_element
}.

Record state := {
  mem : memory;
  world : W;
  trace : list event
}.

Definition M (A : Type) : Type := state → outcome (A * state).

Definition ret {A} (a : A) : M A := λ s, Returned (a, s).

Definition bind {A B} (m : M A) (k : A → M B) : M B :=
  λ s, match m s with
       | Returned (a, s') => k a s'
       | CheckFailed what => CheckFailed what
       | UndefinedBehavior => UndefinedBehavior
       end.

Definition CHECK (b : bool) (what : string) : M unit :=
  λ s, if b then Returned (tt, s) else CheckFailed what.

Definition undefined {A} : M A := λ _, UndefinedBehavior.

Definition emit (e : event) : M unit :=
  λ s, Returned (tt, {| mem := mem s; world := world s; trace := trace s ++ [e] |}).

(** Run filter code, which sees and changes [W] only. *)
Definition run {A} (f : W → A * W) : M A :=
  λ s, Returned ((f (world s)).1,
                 {| mem := mem s; world := (f (world s)).2; trace := trace s |}).

Definition run_ (f : W → W) : M unit := run (λ w, (tt, f w)).

(** Run filter code that also reads the engine's memory. *)
Definition run_reading {A} (f : memory → W → A * W) : M A :=
  λ s, Returned ((f (mem s) (world s)).1,
                 {| mem := mem s; world := (f (mem s) (world s)).2;
                    trace := trace s |}).

(** The call elements of a memory, as a filter's call-init reads them. *)
Definition view_call_elements (m : memory) : call_stack_view :=
  λ a, (λ e, {| seen_channel_data := call_channel_data e;
                seen_call_data := call_data e |}) <$> call_elements m !! a.


#[global] Instance M_ret : MRet M := @ret.
#[global] Instance M_bind : MBind M := λ A B k m, bind m k.

(** Loads and stores of the objects a stack is made of. *)
Definition load_channel_stack (p : Z) : M grpc_channel_stack :=
  λ s, match channel_stacks (mem s) !! p with
       | Some stk => Returned (stk, s)
       | None => UndefinedBehavior
       end.

Definition load_channel_element (p : Z) : M grpc_channel_element :=
  λ s, match channel_elements (mem s) !! p with
       | Some e => Returned (e, s)
       | None => UndefinedBehavior
       end.

Definition load_call_stack (p : Z) : M grpc_call_stack :=
  λ s, match call_stacks (mem s) !! p with
       | Some stk => Returned (stk, s)
       | None => UndefinedBehavior
       end.

Definition load_call_element (p : Z) : M grpc_call_element :=
  λ s, match call_elements (mem s) !! p with
       | Some e => Returned (e, s)
       | None => UndefinedBehavior
       end.

Definition update_mem (f : memory → memory) : M unit :=
  λ s, Returned (tt, {| mem := f (mem s); world := world s; trace := trace s |}).

Definition store_channel_stack (p : Z) (stk : grpc_channel_stack) : M unit :=
  update_mem (λ m,
    {| channel_stacks := <[p := stk]> (channel_stacks m);
       channel_elements := channel_elements m;
       call_stacks := call_stacks m;
       call_elements := call_elements m |}).

Definition store_channel_element (p : Z) (e : grpc_channel_element) : M unit :=
  update_mem (λ m,
    {| channel_stacks := channel_stacks m;
       channel_elements := <[p := e]> (channel_elements m);
       call_stacks := call_stacks m;
       call_elements := call_elements m |}).

Definition store_call_stack (p : Z) (stk : grpc_call_stack) : M unit :=
  update_mem (λ m,
    {| channel_stacks := channel_stacks m;
       channel_elements := channel_elements m;
       call_stacks := <[p := stk]> (call_stacks m);
       call_elements := call_elements m |}).

Definition store_call_element (p : Z) (e : grpc_call_element) : M unit :=
  update_mem (λ m,
    {| channel_stacks := channel_stacks m;
       channel_elements := channel_elements m;
       call_stacks := call_stacks m;
       call_elements := <[p := e]> (call_elements m) |}).

(** [for (i = from; i < from + n; i++) body(i)], threading an accumulator
    for the locals the loop updates. *)
Fixpoint for_loop {A} (n : nat) (i : Z) (body : Z → A → M A) (a : A) : M A :=
  match n with
  | O => mret a
  | S n' => a' ← body i a; for_loop n' (i + 1) body a'
  end.

(** *** Memory layouts *)

(** [grpc_channel_stack_size]; [filters] and [filter_count] are the list
    and its length. *)
Definition grpc_channel_stack_size (filters : list grpc_channel_filter)
  : outcome Z :=
  let filter_count := Z.of_nat (length filters) in
  let size :=
    size_t (GPR_ROUND_UP_TO_ALIGNMENT_SIZE sizeof_grpc_channel_stack +
            GPR_ROUND_UP_TO_ALIGNMENT_SIZE
              (size_t (filter_count * sizeof_grpc_channel_element))) in
  if negb (Z.land GPR_MAX_ALIGNMENT (GPR_MAX_ALIGNMENT - 1) =? 0)
  then CheckFailed "GPR_MAX_ALIGNMENT must be a power of two"
  else
    Returned
      (fold_left
         (λ size f,
            size_t (size + GPR_ROUND_UP_TO_ALIGNMENT_SIZE (sizeof_channel_data f)))
         filters size).

Definition CHANNEL_ELEMS_FROM_STACK (stk : Z) : Z :=
  stk + GPR_ROUND_UP_TO_ALIGNMENT_SIZE sizeof_grpc_channel_stack.

Definition CALL_ELEMS_FROM_STACK (stk : Z) : Z :=
  stk + GPR_ROUND_UP_TO_ALIGNMENT_SIZE sizeof_grpc_call_stack.

Definition grpc_channel_stack_element (channel_stack : Z) (index : Z) : Z :=
  CHANNEL_ELEMS_FROM_STACK channel_stack + index * sizeof_grpc_channel_element.

Definition grpc_channel_stack_last_element (channel_stack : Z) : M Z :=
  stk ← load_channel_stack channel_stack;
  mret (grpc_channel_stack_element channel_stack (size_t (count stk - 1))).

Definition grpc_call_stack_element (call_stack : Z) (index : Z) : Z :=
  CALL_ELEMS_FROM_STACK call_stack + index * sizeof_grpc_call_element.

Definition grpc_channel_stack_from_top_element (elem : Z) : Z :=
  elem - GPR_ROUND_UP_TO_ALIGNMENT_SIZE sizeof_grpc_channel_stack.

Definition grpc_call_stack_from_top_element (elem : Z) : Z :=
  elem - GPR_ROUND_UP_TO_ALIGNMENT_SIZE sizeof_grpc_call_stack.

(** *** Construction *)

Definition lift {A} (o : outcome A) : M A :=
  λ s, match o with
       | Returned a => Returned (a, s)
       | CheckFailed what => CheckFailed what
       | UndefinedBehavior => UndefinedBehavior
       end.

(** [if (!error.ok()) { if (first_error.ok()) first_error = error; }] *)
Definition record_error (first_error error : grpc_error_handle)
  : grpc_error_handle :=
  if negb (ok error) then
    if ok first_error then error else first_error
  else first_error.

(** The [args] that [grpc_channel_stack_init] hands to filter [i]. *)
Definition channel_element_args (stack : Z) (args_channel_args : ChannelArgs)
    (args_blackboard : Z) (filter_count : Z) (i : Z)
  : grpc_channel_element_args :=
  {| channel_stack := stack;
     channel_args := args_channel_args;
     is_first := i =? 0;
     is_last := i =? size_t (filter_count - 1);
     blackboard := args_blackboard |}.

(** The body of the loop of [grpc_channel_stack_init], over [filters[i..]];
    the locals it updates are [first_error], [user_data] and [call_size].
    [user_data] is a [char*]: additions to it wrap at [2 ^ 64], which is
    what the [CHECK] after the loop looks for. *)
Fixpoint init_channel_elems (stack : Z) (args_channel_args : ChannelArgs)
    (args_blackboard : Z) (filter_count : Z) (elems : Z)
    (filters : list grpc_channel_filter) (i : Z)
    (first_error : grpc_error_handle) (user_data call_size : Z)
  : M (grpc_error_handle * Z * Z) :=
  match filters with
  | [] => mret (first_error, user_data, call_size)
  | filters_i :: rest =>
      let args := channel_element_args stack args_channel_args
                    args_blackboard filter_count i in
      let elem := elems + i * sizeof_grpc_channel_element in
      store_channel_element elem
        {| filter := filters_i; channel_data := user_data |};;
      emit (Call_init_channel_elem (name filters_i) elem args);;
      error ← run (init_channel_elem filters_i elem args);
      init_channel_elems stack args_channel_args args_blackboard filter_count
        elems rest (i + 1)
        (record_error first_error error)
        (size_t (user_data +
                 GPR_ROUND_UP_TO_ALIGNMENT_SIZE (sizeof_channel_data filters_i)))
        (size_t (call_size +
                 GPR_ROUND_UP_TO_ALIGNMENT_SIZE (sizeof_call_data filters_i)))
  end.

(** [grpc_channel_stack_init], up to the two [CHECK]s: it returns the
    locals [first_error], [user_data] and [call_size] as they are when the
    loop is left. *)
Definition channel_stack_layout (initial_refs : Z) (destroy_cb destroy_cb_arg : Z)
    (filters : list grpc_channel_filter) (args_channel_args : ChannelArgs)
    (stack_name : string) (stack : Z) (args_blackboard : Z)
  : M (grpc_error_handle * Z * Z) :=
  let filter_count := Z.of_nat (length filters) in
  let call_size :=
    size_t (GPR_ROUND_UP_TO_ALIGNMENT_SIZE sizeof_grpc_call_stack +
            GPR_ROUND_UP_TO_ALIGNMENT_SIZE
              (size_t (filter_count * sizeof_grpc_call_element))) in
  store_channel_stack stack
    {| refcount := {| refs := initial_refs; destroy := destroy_cb;
                      destroy_arg := destroy_cb_arg;
                      object_type := stack_name |};
       count := filter_count;
       call_stack_size := 0;
       on_destroy := Some (λ w, w);
       event_engine := Some (EventEngine_ref args_channel_args);
       stats_plugin_group := Some tt;
       channelz_data_source := None |};;
  let elems := CHANNEL_ELEMS_FROM_STACK stack in
  let user_data :=
    size_t (elems + GPR_ROUND_UP_TO_ALIGNMENT_SIZE
                      (size_t (filter_count * sizeof_grpc_channel_element))) in
  init_channel_elems stack args_channel_args args_blackboard filter_count
    elems filters 0 OkStatus user_data call_size.

(** The two [CHECK]s of [grpc_channel_stack_init] on the [user_data] the
    loop has reached. *)
Definition channel_stack_checks (filters : list grpc_channel_filter)
    (stack user_data : Z) : M unit :=
  CHECK (stack <? user_data) "user_data > (char*)stack";;
  size ← lift (grpc_channel_stack_size filters);
  CHECK (size_t (user_data - stack) =? size)
    "(uintptr_t)(user_data - (char*)stack) == grpc_channel_stack_size(filters, filter_count)".

Definition grpc_channel_stack_init (initial_refs : Z) (destroy_cb destroy_cb_arg : Z)
    (filters : list grpc_channel_filter) (args_channel_args : ChannelArgs)
    (stack_name : string) (stack : Z) (args_blackboard : Z)
  : M grpc_error_handle :=
  '(first_error, user_data, call_size) ←
    channel_stack_layout initial_refs destroy_cb destroy_cb_arg filters
      args_channel_args stack_name stack args_blackboard;
  channel_stack_checks filters stack user_data;;
  stk ← load_channel_stack stack;
  store_channel_stack stack
    {| refcount := refcount stk;
       count := count stk;
       call_stack_size := call_size;
       on_destroy := on_destroy stk;
       event_engine := event_engine stk;
       stats_plugin_group := stats_plugin_group stk;
       channelz_data_source := Some (BaseNode_ref args_channel_args) |};;
  mret first_error.

(** First loop of [grpc_call_stack_init]: wire call element [i]; additions
    to the [char*] [user_data] wrap at [2 ^ 64]. *)
Definition wire_call_elem (channel_elems call_elems : Z) (i : Z)
    (user_data : Z) : M Z :=
  channel_elems_i ←
    load_channel_element (channel_elems + i * sizeof_grpc_channel_element);
  store_call_element (call_elems + i * sizeof_grpc_call_element)
    {| call_filter := filter channel_elems_i;
       call_channel_data := channel_data channel_elems_i;
       call_data := user_data |};;
  mret (size_t (user_data +
                GPR_ROUND_UP_TO_ALIGNMENT_SIZE
                  (sizeof_call_data (filter channel_elems_i)))).

(** Second loop of [grpc_call_stack_init]: run call element [i]'s init,
    which can read the call elements as they are in memory by then. *)
Definition init_call_elem_at (call_elems : Z) (elem_args : grpc_call_element_args)
    (i : Z) (first_error : grpc_error_handle) : M grpc_error_handle :=
  let elem := call_elems + i * sizeof_grpc_call_element in
  call_elems_i ← load_call_element elem;
  emit (Call_init_call_elem (name (call_filter call_elems_i)) elem elem_args);;
  error ← run_reading
            (λ m, init_call_elem (call_filter call_elems_i) elem elem_args
                    (view_call_elements m));
  mret (record_error first_error error).

(** The part of [grpc_call_stack_init] before any filter code runs. *)
Definition call_stack_wire (channel_stack : Z) (initial_refs : Z)
    (destroy_cb destroy_cb_arg : Z) (elem_args : grpc_call_element_args)
  : M Z :=
  let channel_elems := CHANNEL_ELEMS_FROM_STACK channel_stack in
  stk ← load_channel_stack channel_stack;
  let count := count stk in
  store_call_stack (call_stack elem_args)
    {| call_refcount := {| refs := initial_refs; destroy := destroy_cb;
                           destroy_arg := destroy_cb_arg;
                           object_type := "CALL_STACK" |};
       call_count := count |};;
  let call_elems := CALL_ELEMS_FROM_STACK (call_stack elem_args) in
  let user_data :=
    size_t (call_elems + GPR_ROUND_UP_TO_ALIGNMENT_SIZE
                           (size_t (count * sizeof_grpc_call_element))) in
  for_loop (Z.to_nat count) 0 (wire_call_elem channel_elems call_elems) user_data;;
  mret count.

(** The part of [grpc_call_stack_init] that runs the filters' call-init. *)
Definition call_stack_run_init (count : Z) (elem_args : grpc_call_element_args)
  : M grpc_error_handle :=
  let call_elems := CALL_ELEMS_FROM_STACK (call_stack elem_args) in
  for_loop (Z.to_nat count) 0 (init_call_elem_at call_elems elem_args) OkStatus.

Definition grpc_call_stack_init (channel_stack : Z) (initial_refs : Z)
    (destroy_cb destroy_cb_arg : Z) (elem_args : grpc_call_element_args)
  : M grpc_error_handle :=
  count ← call_stack_wire channel_stack initial_refs destroy_cb destroy_cb_arg
            elem_args;
  call_stack_run_init count elem_args.

(** Body of the loop of [grpc_call_stack_set_pollset_or_pollset_set]. *)
Definition set_pollset_at (call_elems : Z) (pollent : Z) (i : Z) (_ : unit)
  : M unit :=
  let elem := call_elems + i * sizeof_grpc_call_element in
  call_elems_i ← load_call_element elem;
  emit (Call_set_pollset_or_pollset_set
          (name (call_filter call_elems_i)) elem pollent);;
  run_ (set_pollset_or_pollset_set (call_filter call_elems_i) elem pollent).

Definition grpc_call_stack_set_pollset_or_pollset_set (call_stack : Z)
    (pollent : Z) : M unit :=
  stk ← load_call_stack call_stack;
  let count := call_count stk in
  let call_elems := CALL_ELEMS_FROM_STACK call_stack in
  for_loop (Z.to_nat count) 0 (set_pollset_at call_elems pollent) tt.

(** *** Destruction *)

(** Body of the loop of [grpc_channel_stack_destroy]. *)
Definition destroy_channel_elem_at (channel_elems : Z) (i : Z) (_ : unit)
  : M unit :=
  let elem := channel_elems + i * sizeof_grpc_channel_element in
  channel_elems_i ← load_channel_element elem;
  emit (Call_destroy_channel_elem (name (filter channel_elems_i)) elem);;
  run_ (destroy_channel_elem (filter channel_elems_i) elem).

Definition grpc_channel_stack_destroy (stack : Z) : M unit :=
  let channel_elems := CHANNEL_ELEMS_FROM_STACK stack in
  stk ← load_channel_stack stack;
  let count := count stk in
  emit Destroy_channelz_data_source;;
  for_loop (Z.to_nat count) 0 (destroy_channel_elem_at channel_elems) tt;;
  match on_destroy stk with
  | None => undefined
  | Some f => emit Call_on_destroy;; run_ f
  end;;
  emit Destroy_on_destroy;;
  emit Destroy_event_engine;;
  emit Destroy_stats_plugin_group;;
  store_channel_stack stack
    {| refcount := refcount stk;
       count := count;
       call_stack_size := call_stack_size stk;
       on_destroy := None;
       event_engine := None;
       stats_plugin_group := None;
       channelz_data_source := None |}.

(** Body of the loop of [grpc_call_stack_destroy]. *)
Definition destroy_call_elem_at (elems count : Z) (final_info : Z)
    (then_schedule_closure : Z) (i : Z) (_ : unit) : M unit :=
  let elem := elems + i * sizeof_grpc_call_element in
  elems_i ← load_call_element elem;
  let closure :=
    if i =? size_t (count - 1) then then_schedule_closure else nullptr in
  emit (Call_destroy_call_elem (name (call_filter elems_i)) elem
          final_info closure);;
  run_ (destroy_call_elem (call_filter elems_i) elem final_info closure).

Definition grpc_call_stack_destroy (stack : Z) (final_info : Z)
    (then_schedule_closure : Z) : M unit :=
  let elems := CALL_ELEMS_FROM_STACK stack in
  stk ← load_call_stack stack;
  let count := call_count stk in
  for_loop (Z.to_nat count) 0
    (destroy_call_elem_at elems count final_info then_schedule_closure) tt.

(** *** Forwarding to the next element *)

Definition grpc_call_next_op (elem : Z) (op : Z) : M unit :=
  let next_elem := elem + 1 * sizeof_grpc_call_element in
  next ← load_call_element next_elem;
  emit (Call_start_transport_stream_op_batch
          (name (call_filter next)) next_elem op);;
  run_ (start_transport_stream_op_batch (call_filter next) next_elem op).

Definition grpc_channel_next_get_info (elem : Z) (channel_info : Z) : M unit :=
  let next_elem := elem + 1 * sizeof_grpc_channel_element in
  next ← load_channel_element next_elem;
  emit (Call_get_channel_info (name (filter next)) next_elem channel_info);;
  run_ (get_channel_info (filter next) next_elem channel_info).

Definition grpc_channel_next_op (elem : Z) (op : Z) : M unit :=
  let next_elem := elem + 1 * sizeof_grpc_channel_element in
  next ← load_channel_element next_elem;
  emit (Call_start_transport_op (name (filter next)) next_elem op);;
  run_ (start_transport_op (filter next) next_elem op).

(** *** Quantities the statements below are phrased with *)

(** The alignment-rounded header of a channel stack of [filter_count]
    filters: the stack struct, then the element array. *)
Definition channel_header_size (filter_count : Z) : Z :=
  GPR_ROUND_UP_TO_ALIGNMENT_SIZE sizeof_grpc_channel_stack +
  GPR_ROUND_UP_TO_ALIGNMENT_SIZE
    (size_t (filter_count * sizeof_grpc_channel_element)).

Definition call_header_size (filter_count : Z) : Z :=
  GPR_ROUND_UP_TO_ALIGNMENT_SIZE sizeof_grpc_call_stack +
  GPR_ROUND_UP_TO_ALIGNMENT_SIZE
    (size_t (filter_count * sizeof_grpc_call_element)).

(** Sum of the rounded per-filter channel data sizes. *)
Definition channel_data_total (filters : list grpc_channel_filter) : Z :=
  foldr (λ f acc, GPR_ROUND_UP_TO_ALIGNMENT_SIZE (sizeof_channel_data f) + acc)
        0 filters.

Definition call_data_total (filters : list grpc_channel_filter) : Z :=
  foldr (λ f acc, GPR_ROUND_UP_TO_ALIGNMENT_SIZE (sizeof_call_data f) + acc)
        0 filters.

(** The bytes a channel stack and a call stack of [filters] take. *)
Definition channel_stack_bytes (filters : list grpc_channel_filter) : Z :=
  channel_header_size (Z.of_nat (length filters)) + channel_data_total filters.

Definition call_stack_bytes (filters : list grpc_channel_filter) : Z :=
  call_header_size (Z.of_nat (length filters)) + call_data_total filters.

(** The stack lies inside the address space: no pointer into it wraps. *)
Definition channel_stack_fits (stack : Z) (filters : list grpc_channel_filter)
  : Prop :=
  0 ≤ stack ∧ stack + channel_stack_bytes filters < 2 ^ 64.

Definition call_stack_fits (call_stack : Z) (filters : list grpc_channel_filter)
  : Prop :=
  0 ≤ call_stack ∧ call_stack + call_stack_bytes filters < 2 ^ 64.

(** The byte ranges [[a, a + la)] and [[b, b + lb)] do not overlap.  Memory
    is kept per object, by the address an object starts at; statements
    about objects at two places say with this that their bytes are apart. *)
Definition separate (a la b lb : Z) : Prop := a + la ≤ b ∨ b + lb ≤ a.

(** Running a sequence of filter entry points in order: the results they
    return, and the world they leave. *)
Fixpoint run_inits (calls : list (W → grpc_error_handle * W)) (w : W)
  : list grpc_error_handle * W :=
  match calls with
  | [] => ([], w)
  | c :: calls' =>
      let '(e, w1) := c w in
      let '(es, w2) := run_inits calls' w1 in
      (e :: es, w2)
  end.

Fixpoint run_all (calls : list (W → W)) (w : W) : W :=
  match calls with
  | [] => w
  | c :: calls' => run_all calls' (c w)
  end.

(** The first result that is not OK, and OK when there is none. *)
Definition first_error_of (es : list grpc_error_handle) : grpc_error_handle :=
  default OkStatus (head (List.filter (λ e, negb (ok e)) es)).

(** The calls [grpc_channel_stack_init] makes for [filters]. *)
Definition channel_init_events (stack : Z) (args_channel_args : ChannelArgs)
    (args_blackboard : Z) (filters : list grpc_channel_filter) : list event :=
  imap (λ i f,
          Call_init_channel_elem (name f)
            (grpc_channel_stack_element stack (Z.of_nat i))
            (channel_element_args stack args_channel_args args_blackboard
               (Z.of_nat (length filters)) (Z.of_nat i)))
       filters.

Definition channel_init_calls (stack : Z) (args_channel_args : ChannelArgs)
    (args_blackboard : Z) (filters : list grpc_channel_filter)
  : list (W → grpc_error_handle * W) :=
  imap (λ i f,
          init_channel_elem f
            (grpc_channel_stack_element stack (Z.of_nat i))
            (channel_element_args stack args_channel_args args_blackboard
               (Z.of_nat (length filters)) (Z.of_nat i)))
       filters.

(** The channel elements [grpc_channel_stack_init] stores for [filters],
    with the pointers as the wrapping [char*] arithmetic gives them. *)
Definition channel_elements_stored (stack : Z)
    (filters : list grpc_channel_filter) : list grpc_channel_element :=
  imap (λ i f,
          {| filter := f;
             channel_data :=
               size_t (stack + channel_header_size (Z.of_nat (length filters)) +
                       channel_data_total (take i filters)) |})
       filters.

(** The channel elements [grpc_channel_stack_init] lays out for [filters]
    when the stack lies inside the address space:
    element [i] points at the sub-region that starts after the header and
    the rounded sub-regions of the filters before it. *)
Definition channel_elements_of (stack : Z) (filters : list grpc_channel_filter)
  : list grpc_channel_element :=
  imap (λ i f,
          {| filter := f;
             channel_data :=
               stack + channel_header_size (Z.of_nat (length filters)) +
               channel_data_total (take i filters) |})
       filters.

(** A channel stack of the given elements lives at [stack]. *)
Definition channel_stack_at (m : memory) (stack : Z)
    (elems : list grpc_channel_element) : Prop :=
  (∃ stk, channel_stacks m !! stack = Some stk ∧
          count stk = Z.of_nat (length elems)) ∧
  ∀ (i : nat) e, elems !! i = Some e →
    channel_elements m !! grpc_channel_stack_element stack (Z.of_nat i) = Some e.

(** The header [grpc_channel_stack_init] leaves at [stack]. *)
Definition channel_stack_header (ir d da : Z) (filters : list grpc_channel_filter)
    (ca : ChannelArgs) (nm : string) : grpc_channel_stack :=
  {| refcount := {| refs := ir; destroy := d; destroy_arg := da;
                    object_type := nm |};
     count := Z.of_nat (length filters);
     call_stack_size :=
       size_t (call_header_size (Z.of_nat (length filters)) +
               call_data_total filters);
     on_destroy := Some (λ w, w);
     event_engine := Some (EventEngine_ref ca);
     stats_plugin_group := Some tt;
     channelz_data_source := Some (BaseNode_ref ca) |}.

(** The call elements [grpc_call_stack_init] stores at [call_stack] for a
    channel stack whose elements are [ces], with the pointers as the
    wrapping [char*] arithmetic gives them. *)
Definition call_elements_stored (call_stack : Z) (ces : list grpc_channel_element)
  : list grpc_call_element :=
  imap (λ i e,
          {| call_filter := filter e;
             call_channel_data := channel_data e;
             call_data :=
               size_t (call_stack + call_header_size (Z.of_nat (length ces)) +
                       call_data_total (map filter (take i ces))) |})
       ces.

(** The call elements [grpc_call_stack_init] wires at [call_stack] for a
    channel stack whose elements are [ces], when the call stack lies
    inside the address space. *)
Definition call_elements_of (call_stack : Z) (ces : list grpc_channel_element)
  : list grpc_call_element :=
  imap (λ i e,
          {| call_filter := filter e;
             call_channel_data := channel_data e;
             call_data :=
               call_stack + call_header_size (Z.of_nat (length ces)) +
               call_data_total (map filter (take i ces)) |})
       ces.

(** The calls the second loop of [grpc_call_stack_init] makes. *)
Definition call_init_events (elem_args : grpc_call_element_args)
    (ces : list grpc_channel_element) : list event :=
  imap (λ i e,
          Call_init_call_elem (name (filter e))
            (grpc_call_stack_element (call_stack elem_args) (Z.of_nat i))
            elem_args)
       ces.

(** Every call-init is handed the same view [seen] of the call elements. *)
Definition call_init_calls (elem_args : grpc_call_element_args)
    (seen : call_stack_view) (ces : list grpc_channel_element)
  : list (W → grpc_error_handle * W) :=
  imap (λ i e,
          init_call_elem (filter e)
            (grpc_call_stack_element (call_stack elem_args) (Z.of_nat i))
            elem_args seen)
       ces.

(** A call stack of the given elements lives at [stack]. *)
Definition call_stack_at (m : memory) (stack : Z)
    (elems : list grpc_call_element) : Prop :=
  (∃ stk, call_stacks m !! stack = Some stk ∧
          call_count stk = Z.of_nat (length elems)) ∧
  ∀ (i : nat) e, elems !! i = Some e →
    call_elements m !! grpc_call_stack_element stack (Z.of_nat i) = Some e.

(** The calls [grpc_channel_stack_destroy] makes into the filters. *)
Definition channel_destroy_events (stack : Z) (ces : list grpc_channel_element)
  : list event :=
  imap (λ i e,
          Call_destroy_channel_elem (name (filter e))
            (grpc_channel_stack_element stack (Z.of_nat i)))
       ces.

Definition channel_destroy_calls (stack : Z) (ces : list grpc_channel_element)
  : list (W → W) :=
  imap (λ i e,
          destroy_channel_elem (filter e)
            (grpc_channel_stack_element stack (Z.of_nat i)))
       ces.

(** The closure [grpc_call_stack_destroy] hands to element [i] of [n]. *)
Definition closure_for (n i : nat) (then_schedule_closure : Z) : Z :=
  if decide (S i = n) then then_schedule_closure else nullptr.

Definition call_destroy_events (stack final_info then_schedule_closure : Z)
    (cels : list grpc_call_element) : list event :=
  imap (λ i e,
          Call_destroy_call_elem (name (call_filter e))
            (grpc_call_stack_element stack (Z.of_nat i)) final_info
            (closure_for (length cels) i then_schedule_closure))
       cels.

Definition call_destroy_calls (stack final_info then_schedule_closure : Z)
    (cels : list grpc_call_element) : list (W → W) :=
  imap (λ i e,
          destroy_call_elem (call_filter e)
            (grpc_call_stack_element stack (Z.of_nat i)) final_info
            (closure_for (length cels) i then_schedule_closure))
       cels.

(** *** The remaining functions of [channel_stack.cc] *)

(** [grpc_channel_stack_filter_instance_number].  Elements point at their
    filter descriptor and the function compares these pointers;
    [filter_address] gives the address a descriptor lives at. *)
Fixpoint filter_instance_number_loop (filter_address : grpc_channel_filter → Z)
    (channel_stack elem : Z) (n : nat) (i : Z) (num_found : Z) : M Z :=
  match n with
  | O => mret num_found
  | S n' =>
      let element := grpc_channel_stack_element channel_stack i in
      if element =? elem then mret num_found
      else
        element_v ← load_channel_element element;
        elem_v ← load_channel_element elem;
        filter_instance_number_loop filter_address channel_stack elem n' (i + 1)
          (if filter_address (filter element_v) =? filter_address (filter elem_v)
           then size_t (num_found + 1) else num_found)
  end.

Definition grpc_channel_stack_filter_instance_number
    (filter_address : grpc_channel_filter → Z) (channel_stack elem : Z) : M Z :=
  stk ← load_channel_stack channel_stack;
  filter_instance_number_loop filter_address channel_stack elem
    (Z.to_nat (count stk)) 0 0.

(** [grpc_call_stack_ignore_set_pollset_or_pollset_set], the entry point of
    filters that have no use for the polling entity. *)
Definition grpc_call_stack_ignore_set_pollset_or_pollset_set
    (elem pollent : Z) (w : W) : W := w.

(** The calls [grpc_call_stack_set_pollset_or_pollset_set] makes. *)
Definition set_pollset_events (stack pollent : Z)
    (cels : list grpc_call_element) : list event :=
  imap (λ i e,
          Call_set_pollset_or_pollset_set (name (call_filter e))
            (grpc_call_stack_element stack (Z.of_nat i)) pollent)
       cels.

Definition set_pollset_calls (stack pollent : Z)
    (cels : list grpc_call_element) : list (W → W) :=
  imap (λ i e,
          set_pollset_or_pollset_set (call_filter e)
            (grpc_call_stack_element stack (Z.of_nat i)) pollent)
       cels.

(** How many of the elements before index [i] have the filter of [f]. *)
Definition earlier_instances (filter_address : grpc_channel_filter → Z)
    (ces : list grpc_channel_element) (i : nat) (f : grpc_channel_filter) : Z :=
  Z.of_nat
    (length
       (List.filter
          (λ e, filter_address (filter e) =? filter_address f)
          (take i ces))).

(** The sizes of a list of filters are [size_t] values that can be rounded
    up, and so is the size of their element array. *)
Definition channel_sizes_fit (filters : list grpc_channel_filter) : Prop :=
  Forall (λ f, 0 ≤ sizeof_channel_data f ≤ 2 ^ 64 - GPR_MAX_ALIGNMENT) filters ∧
  Z.of_nat (length filters) * sizeof_grpc_channel_element
    ≤ 2 ^ 64 - GPR_MAX_ALIGNMENT.

Definition call_sizes_fit (filters : list grpc_channel_filter) : Prop :=
  Forall (λ f, 0 ≤ sizeof_call_data f ≤ 2 ^ 64 - GPR_MAX_ALIGNMENT) filters ∧
  Z.of_nat (length filters) * sizeof_grpc_call_element
    ≤ 2 ^ 64 - GPR_MAX_ALIGNMENT.

(** The unpadded bytes a channel stack needs. *)
Definition channel_bytes_needed (filters : list grpc_channel_filter) : Z :=
  sizeof_grpc_channel_stack +
  Z.of_nat (length filters) * sizeof_grpc_channel_element +
  foldr (λ f acc, sizeof_channel_data f + acc) 0 filters.

End Engine.

(** *** A concrete pipeline *)

Section Example.
Local Existing Instance linux_x86_64.

(** Filters that log every entry point they run into the world. *)
Definition logging_filter (nm : string) (channel_sz call_sz : Z)
    (channel_init call_init : grpc_error_handle)
  : @grpc_channel_filter (list string) :=
  {| start_transport_stream_op_batch := λ _ _ w, w ++ [nm +:+ ".start_transport_stream_op_batch"];
     start_transport_op := λ _ _ w, w ++ [nm +:+ ".start_transport_op"];
     sizeof_call_data := call_sz;
     init_call_elem := λ _ _ _ w, (call_init, w ++ [nm +:+ ".init_call_elem"]);
     set_pollset_or_pollset_set := λ _ _ w, w ++ [nm +:+ ".set_pollset_or_pollset_set"];
     destroy_call_elem := λ _ _ _ w, w ++ [nm +:+ ".destroy_call_elem"];
     sizeof_channel_data := channel_sz;
     init_channel_elem := λ _ _ w, (channel_init, w ++ [nm +:+ ".init_channel_elem"]);
     destroy_channel_elem := λ _ w, w ++ [nm +:+ ".destroy_channel_elem"];
     get_channel_info := λ _ _ w, w ++ [nm +:+ ".get_channel_info"];
     name := nm |}.

(** Three filters; the channel-init of the second and the call-init of the
    second and third fail. *)
Definition example_filters : list (@grpc_channel_filter (list string)) :=
  [ logging_filter "a" 40 8 OkStatus OkStatus;
    logging_filter "b" 17 0 (ErrorStatus 14 "b: no channel") (ErrorStatus 13 "b: no call");
    logging_filter "c" 0 24 OkStatus (ErrorStatus 2 "c: no call") ].

Definition example_args : ChannelArgs :=
  {| EventEngine_ref := Some 7; BaseNode_ref := None |}.

Definition empty_state : @state (list string) :=
  {| mem := {| channel_stacks := ∅; channel_elements := ∅;
               call_stacks := ∅; call_elements := ∅ |};
     world := [];
     trace := [] |}.

Definition state_of {A} (o : outcome (A * @state (list string)))
  : @state (list string) :=
  match o with Returned (_, s) => s | _ => empty_state end.

(** The channel stack built at address 4096, and a call stack built from it
    at address 8192. *)
Definition example_channel_state : @state (list string) :=
  state_of (grpc_channel_stack_init 1 0 0 example_filters example_args
              "example" 4096 0 empty_state).

Definition example_call_state : @state (list string) :=
  state_of (grpc_call_stack_init 4096 1 0 0 {| call_stack := 8192 |}
              example_channel_state).

(** A stack in which the first filter occurs twice, and the address each
    filter descriptor lives at. *)
Definition example_repeated_filters : list (@grpc_channel_filter (list string)) :=
  [ logging_filter "a" 40 8 OkStatus OkStatus;
    logging_filter "b" 17 0 OkStatus OkStatus;
    logging_filter "a" 40 8 OkStatus OkStatus ].

Definition example_filter_address (f : @grpc_channel_filter (list string)) : Z :=
  if String.eqb (name f) "a" then 1000
  else if String.eqb (name f) "b" then 1100 else 1200.

(** One filter whose channel data reaches the end of the address space
    from a stack at 4096: the pointer behind it wraps. *)
Definition example_huge_filters : list (@grpc_channel_filter (list string)) :=
  [ logging_filter "huge" (2 ^ 64 - 4224) 0 OkStatus OkStatus ].

(** A filter whose call-init reads the call element at [elem] and logs
    whether it finds it wired with its [call_data] at [expected]. *)
Definition peeking_filter (nm : string) (elem expected : Z)
  : @grpc_channel_filter (list string) :=
  {| start_transport_stream_op_batch := λ _ _ w, w;
     start_transport_op := λ _ _ w, w;
     sizeof_call_data := 8;
     init_call_elem := λ _ _ seen w,
       (OkStatus,
        w ++ [match seen elem with
              | Some p =>
                  if seen_call_data p =? expected
                  then nm +:+ " finds the element wired"
                  else nm +:+ " finds another pointer"
              | None => nm +:+ " finds no element"
              end]);
     set_pollset_or_pollset_set := λ _ _ w, w;
     destroy_call_elem := λ _ _ _ w, w;
     sizeof_channel_data := 40;
     init_channel_elem := λ _ _ w, (OkStatus, w);
     destroy_channel_elem := λ _ w, w;
     get_channel_info := λ _ _ w, w;
     name := nm |}.

(** The first filter looks at the last call element of a call stack at
    8192, whose [call_data] is to be at 8320. *)
Definition example_peeking_filters : list (@grpc_channel_filter (list string)) :=
  [ peeking_filter "p" 8272 8320;
    logging_filter "b" 17 0 OkStatus OkStatus;
    logging_filter "c" 0 24 OkStatus OkStatus ].

Definition example_peeking_state : @state (list string) :=
  state_of (grpc_channel_stack_init 1 0 0 example_peeking_filters example_args
              "peeking" 4096 0 empty_state).

(** The state between the two passes of [grpc_call_stack_init]. *)
Definition example_wired_state : @state (list string) :=
  state_of (call_stack_wire 4096 1 0 0 {| call_stack := 8192 |}
              example_peeking_state).

Definition example_repeated_state : @state (list string) :=
  state_of (grpc_channel_stack_init 1 0 0 example_repeated_filters example_args
              "repeated" 4096 0 empty_state).

End Example.

(** ** Properties of the engine *)

Section Properties.
Context `{Platform} {Wd : World}.

(** *** Rounding *)

Lemma size_t_range x : 0 ≤ size_t x < 2 ^ 64.
Proof. unfold size_t. apply Z.mod_pos_bound. lia. Qed.

Lemma size_t_small x : 0 ≤ x < 2 ^ 64 → size_t x = x.
Proof. intros. unfold size_t. by apply Z.mod_small. Qed.

Lemma size_t_add_l x y : size_t (size_t x + y) = size_t (x + y).
Proof. unfold size_t. by rewrite Zplus_mod_idemp_l. Qed.

Lemma round_up_range x : 0 ≤ GPR_ROUND_UP_TO_ALIGNMENT_SIZE x < 2 ^ 64.
Proof.
  unfold GPR_ROUND_UP_TO_ALIGNMENT_SIZE.
  pose proof (size_t_range (x + GPR_MAX_ALIGNMENT - 1)) as Hy.
  pose proof (size_t_range (Z.lnot (GPR_MAX_ALIGNMENT - 1))) as Hm.
  split.
  - apply Z.land_nonneg. lia.
  - pose proof (Z.sub_land_same_l (size_t (x + GPR_MAX_ALIGNMENT - 1))
                  (size_t (Z.lnot (GPR_MAX_ALIGNMENT - 1)))) as Hsub.
    assert (0 ≤ Z.land (size_t (x + GPR_MAX_ALIGNMENT - 1))
                  (Z.lnot (size_t (Z.lnot (GPR_MAX_ALIGNMENT - 1)))))
      by (apply Z.land_nonneg; lia).
    lia.
Qed.

(** With a power-of-two alignment the mask idiom is rounding up to the next
    multiple, computed in [size_t]. *)
Lemma round_up_multiple k x :
  0 ≤ k → GPR_MAX_ALIGNMENT = 2 ^ k →
  GPR_ROUND_UP_TO_ALIGNMENT_SIZE x =
  size_t ((x + GPR_MAX_ALIGNMENT - 1) / GPR_MAX_ALIGNMENT * GPR_MAX_ALIGNMENT).
Proof.
  intros Hk HA. unfold GPR_ROUND_UP_TO_ALIGNMENT_SIZE, size_t. rewrite HA.
  set (y := x + 2 ^ k - 1).
  rewrite <- !Z.land_ones by lia.
  replace (2 ^ k - 1) with (Z.ones k) by (rewrite Z.ones_equiv; lia).
  rewrite <- Z.shiftl_mul_pow2, <- Z.shiftr_div_pow2 by lia.
  rewrite <- Z.ldiff_ones_r by lia. rewrite Z.ldiff_land.
  apply Z.bits_inj'. intros n Hn.
  rewrite !Z.land_spec. destruct (Z.testbit y n), (Z.testbit (Z.ones 64) n),
    (Z.testbit (Z.lnot (Z.ones k)) n); reflexivity.
Qed.

Lemma round_up_bounds x :
  sane_platform → 0 ≤ x ≤ 2 ^ 64 - GPR_MAX_ALIGNMENT →
  x ≤ GPR_ROUND_UP_TO_ALIGNMENT_SIZE x < x + GPR_MAX_ALIGNMENT ∧
  GPR_ROUND_UP_TO_ALIGNMENT_SIZE x mod GPR_MAX_ALIGNMENT = 0.
Proof.
  intros [(k & Hk & HA) _ _ _ _] Hx.
  rewrite (round_up_multiple k) by (done || lia).
  assert (0 < GPR_MAX_ALIGNMENT) as Hpos by (rewrite HA; apply Z.pow_pos_nonneg; lia).
  set (A := GPR_MAX_ALIGNMENT) in *.
  pose proof (Z.div_mod (x + A - 1) A ltac:(lia)) as Hdm.
  pose proof (Z.mod_pos_bound (x + A - 1) A Hpos) as Hm.
  rewrite size_t_small by nia.
  split; [nia|]. apply Z.mod_mul. lia.
Qed.

Lemma sane_alignment_check :
  sane_platform → Z.land GPR_MAX_ALIGNMENT (GPR_MAX_ALIGNMENT - 1) = 0.
Proof.
  intros [(k & Hk & HA) _ _ _ _]. rewrite HA.
  replace (2 ^ k - 1) with (Z.ones k) by (rewrite Z.ones_equiv; lia).
  rewrite Z.land_ones by lia. apply Z.mod_same.
  apply Z.pow_nonzero; lia.
Qed.

(** *** The construction loops *)

Lemma run_inits_cons c calls w :
  run_inits (c :: calls) w =
  ((c w).1 :: (run_inits calls (c w).2).1, (run_inits calls (c w).2).2).
Proof. simpl. destruct (c w) as [e w1]. simpl. by destruct (run_inits calls w1). Qed.

Lemma slot_address_inj base sz a b :
  sz ≠ 0 → base + a * sz = base + b * sz → a = b.
Proof.
  intros Hsz Heq. assert ((a - b) * sz = 0) as Hz by lia.
  apply Z.mul_eq_0 in Hz. lia.
Qed.

Lemma init_channel_elems_spec stack ca bb n elems filters :
  sizeof_grpc_channel_element ≠ 0 →
  ∀ i fe ud cs s,
  let calls :=
    imap (λ j f, init_channel_elem f
                   (elems + (i + Z.of_nat j) * sizeof_grpc_channel_element)
                   (channel_element_args stack ca bb n (i + Z.of_nat j)))
         filters in
  let events :=
    imap (λ j f, Call_init_channel_elem (name f)
                   (elems + (i + Z.of_nat j) * sizeof_grpc_channel_element)
                   (channel_element_args stack ca bb n (i + Z.of_nat j)))
         filters in
  ∃ s',
    init_channel_elems stack ca bb n elems filters i fe (size_t ud) cs s =
      Returned ((foldl record_error fe (run_inits calls (world s)).1,
                 size_t (ud + channel_data_total filters),
                 foldl (λ c f, size_t (c + GPR_ROUND_UP_TO_ALIGNMENT_SIZE
                                           (sizeof_call_data f))) cs filters),
                s') ∧
    world s' = (run_inits calls (world s)).2 ∧
    trace s' = trace s ++ events ∧
    channel_stacks (mem s') = channel_stacks (mem s) ∧
    call_stacks (mem s') = call_stacks (mem s) ∧
    call_elements (mem s') = call_elements (mem s) ∧
    (∀ (j : nat) f, filters !! j = Some f →
       channel_elements (mem s') !!
         (elems + (i + Z.of_nat j) * sizeof_grpc_channel_element) =
       Some {| filter := f;
               channel_data :=
                 size_t (ud + channel_data_total (take j filters)) |}) ∧
    (∀ a, (∀ j : nat, (j < length filters)%nat →
             a ≠ elems + (i + Z.of_nat j) * sizeof_grpc_channel_element) →
       channel_elements (mem s') !! a = channel_elements (mem s) !! a).
Proof.
  intros Hsz. induction filters as [|f rest IH]; intros i fe ud cs s calls events.
  - exists s. subst calls events. simpl. rewrite app_nil_r, Z.add_0_r.
    repeat split; done.
  - subst calls events. rewrite !imap_cons.
    cbn [init_channel_elems].
    unfold mbind, M_bind, bind.
    cbn [store_channel_element update_mem emit run mret M_ret ret
         mem world trace mbind M_bind bind fst snd].
    rewrite run_inits_cons. cbn [fst snd foldl].
    rewrite !Z.add_0_r. rewrite size_t_add_l.
    set (elem := elems + i * sizeof_grpc_channel_element).
    set (args := channel_element_args stack ca bb n i).
    set (s1 := {| mem := _; world := (init_channel_elem f elem args (world s)).2;
                  trace := _ |}).
    destruct (IH (i + 1) (record_error fe (init_channel_elem f elem args (world s)).1)
                (ud + GPR_ROUND_UP_TO_ALIGNMENT_SIZE (sizeof_channel_data f))
                (size_t (cs + GPR_ROUND_UP_TO_ALIGNMENT_SIZE (sizeof_call_data f)))
                s1)
      as (s' & Hrun & Hw & Htr & Hcs & Hks & Hke & Hel & Hfr).
    assert (Haddr : ∀ j : nat, i + 1 + Z.of_nat j = i + Z.of_nat (S j)) by lia.
    erewrite (imap_ext _ (λ j f0, init_channel_elem f0
                (elems + (i + 1 + Z.of_nat j) * sizeof_grpc_channel_element)
                (channel_element_args stack ca bb n (i + 1 + Z.of_nat j))) rest);
      [|intros; simpl; by rewrite Haddr].
    erewrite (imap_ext _ (λ j f0, Call_init_channel_elem (name f0)
                (elems + (i + 1 + Z.of_nat j) * sizeof_grpc_channel_element)
                (channel_element_args stack ca bb n (i + 1 + Z.of_nat j))) rest);
      [|intros; simpl; by rewrite Haddr].
    exists s'. rewrite Hrun, Hw, Htr, Hcs, Hks, Hke. subst s1. cbn [mem world trace
      channel_stacks call_stacks call_elements channel_elements].
    split; [|split; [done|split; [by rewrite <- app_assoc|do 3 (split; [done|])]]].
    { do 5 f_equal. unfold channel_data_total. cbn [foldr]. lia. }
    split.
    + intros [|j] f0 Hj; simpl in Hj.
      * injection Hj as <-. rewrite Hfr.
        -- cbn. rewrite Z.add_0_r. fold elem. rewrite lookup_insert_eq.
           do 3 f_equal. simpl. lia.
        -- intros j _ Heq. apply slot_address_inj in Heq; [lia|done].
      * rewrite <- Haddr. rewrite (Hel j f0 Hj). do 3 f_equal. simpl. lia.
    + intros a Ha. rewrite Hfr.
      * cbn. apply lookup_insert_ne. specialize (Ha 0%nat). simpl in Ha.
        rewrite Z.add_0_r in Ha. subst elem. intros Heq. apply Ha; [lia|done].
      * intros j Hj. rewrite Haddr. apply Ha. simpl. lia.
Qed.


Lemma record_error_failed fe es :
  ok fe = false → foldl record_error fe es = fe.
Proof.
  intros Hfe. induction es as [|e es IH]; [done|]. simpl.
  unfold record_error at 2. rewrite Hfe. by destruct (ok e).
Qed.

Lemma first_error_fold es : foldl record_error OkStatus es = first_error_of es.
Proof.
  unfold first_error_of. induction es as [|e es IH]; [done|]. simpl.
  unfold record_error at 2. destruct (ok e) eqn:He; simpl; [done|].
  by apply record_error_failed.
Qed.

Lemma channel_data_total_nonneg filters : 0 ≤ channel_data_total filters.
Proof.
  induction filters as [|f rest IH]; simpl; [done|].
  pose proof (round_up_range (sizeof_channel_data f)). lia.
Qed.

Lemma channel_header_size_nonneg n : 0 ≤ channel_header_size n.
Proof.
  unfold channel_header_size.
  pose proof (round_up_range sizeof_grpc_channel_stack).
  pose proof (round_up_range (size_t (n * sizeof_grpc_channel_element))). lia.
Qed.

Lemma channel_header_size_pos n : sane_platform → 0 < channel_header_size n.
Proof.
  intros Hsane. unfold channel_header_size.
  pose proof (round_up_range (size_t (n * sizeof_grpc_channel_element))).
  destruct (round_up_bounds sizeof_grpc_channel_stack Hsane) as [? _].
  - destruct Hsane. lia.
  - destruct Hsane. lia.
Qed.

Lemma channel_stack_size_fold filters a :
  fold_left
    (λ size f,
       size_t (size + GPR_ROUND_UP_TO_ALIGNMENT_SIZE (sizeof_channel_data f)))
    filters (size_t a) =
  size_t (a + channel_data_total filters).
Proof.
  revert a. induction filters as [|f rest IH]; intros a; simpl.
  - by rewrite Z.add_0_r.
  - rewrite size_t_add_l, IH. f_equal. lia.
Qed.

Lemma call_size_fold filters a :
  foldl (λ c f, size_t (c + GPR_ROUND_UP_TO_ALIGNMENT_SIZE (sizeof_call_data f)))
        (size_t a) filters =
  size_t (a + call_data_total filters).
Proof.
  revert a. induction filters as [|f rest IH]; intros a; simpl.
  - by rewrite Z.add_0_r.
  - rewrite size_t_add_l, IH. f_equal. lia.
Qed.

Lemma grpc_channel_stack_size_spec filters :
  Z.land GPR_MAX_ALIGNMENT (GPR_MAX_ALIGNMENT - 1) = 0 →
  grpc_channel_stack_size filters =
  Returned (size_t (channel_header_size (Z.of_nat (length filters)) +
                    channel_data_total filters)).
Proof.
  intros HA. unfold grpc_channel_stack_size. rewrite HA. simpl.
  by rewrite channel_stack_size_fold.
Qed.

Lemma size_t_sub_l x y : size_t (size_t x - y) = size_t (x - y).
Proof. unfold size_t. by rewrite Zminus_mod_idemp_l. Qed.

Lemma channel_stack_bytes_pos filters :
  sane_platform → 0 < channel_stack_bytes filters.
Proof.
  intros Hsane. unfold channel_stack_bytes.
  pose proof (channel_header_size_pos (Z.of_nat (length filters)) Hsane).
  pose proof (channel_data_total_nonneg filters). lia.
Qed.

Lemma channel_data_total_take_le filters i :
  0 ≤ channel_data_total (take i filters) ≤ channel_data_total filters.
Proof.
  split; [apply channel_data_total_nonneg|].
  revert i. induction filters as [|f rest IH]; intros [|i]; simpl; try lia.
  - pose proof (channel_data_total_nonneg rest).
    pose proof (round_up_range (sizeof_channel_data f)).
    unfold channel_data_total in *. lia.
  - specialize (IH i). unfold channel_data_total in *. lia.
Qed.

(** Inside the address space the stored pointers are the plain sums. *)
Lemma channel_elements_stored_fits stack filters :
  channel_stack_fits stack filters →
  channel_elements_stored stack filters = channel_elements_of stack filters.
Proof.
  intros [Hlo Hhi]. unfold channel_elements_stored, channel_elements_of.
  apply imap_ext. intros i f Hf. cbn beta. f_equal. apply size_t_small.
  unfold channel_stack_bytes in Hhi.
  pose proof (channel_header_size_nonneg (Z.of_nat (length filters))).
  pose proof (channel_data_total_take_le filters i). lia.
Qed.

(** What [grpc_channel_stack_init] has done when its loop is left. *)
Lemma channel_stack_layout_spec ir d da filters ca nm stack bb s :
  sizeof_grpc_channel_element ≠ 0 →
  let n := Z.of_nat (length filters) in
  ∃ s',
    channel_stack_layout ir d da filters ca nm stack bb s =
      Returned
        ((first_error_of
            (run_inits (channel_init_calls stack ca bb filters) (world s)).1,
          size_t (stack + (channel_header_size n + channel_data_total filters)),
          size_t (call_header_size n + call_data_total filters)), s') ∧
    world s' = (run_inits (channel_init_calls stack ca bb filters) (world s)).2 ∧
    trace s' = trace s ++ channel_init_events stack ca bb filters ∧
    channel_stacks (mem s') =
      <[stack :=
          {| refcount := {| refs := ir; destroy := d; destroy_arg := da;
                            object_type := nm |};
             count := n;
             call_stack_size := 0;
             on_destroy := Some (λ w, w);
             event_engine := Some (EventEngine_ref ca);
             stats_plugin_group := Some tt;
             channelz_data_source := None |}]> (channel_stacks (mem s)) ∧
    call_stacks (mem s') = call_stacks (mem s) ∧
    call_elements (mem s') = call_elements (mem s) ∧
    (∀ (i : nat) e, channel_elements_stored stack filters !! i = Some e →
       channel_elements (mem s') !!
         grpc_channel_stack_element stack (Z.of_nat i) = Some e) ∧
    (∀ a, (∀ i : nat, (i < length filters)%nat →
             a ≠ grpc_channel_stack_element stack (Z.of_nat i)) →
       channel_elements (mem s') !! a = channel_elements (mem s) !! a).
Proof.
  intros Hsz n. subst n. set (n := Z.of_nat (length filters)).
  unfold channel_stack_layout. fold n.
  unfold mbind, M_bind, bind at 1.
  cbn [store_channel_stack update_mem].
  set (s0 := {| mem := _; world := world s; trace := trace s |}).
  destruct (init_channel_elems_spec stack ca bb n (CHANNEL_ELEMS_FROM_STACK stack)
              filters Hsz 0 OkStatus
              (CHANNEL_ELEMS_FROM_STACK stack +
               GPR_ROUND_UP_TO_ALIGNMENT_SIZE (size_t (n * sizeof_grpc_channel_element)))
              (size_t (GPR_ROUND_UP_TO_ALIGNMENT_SIZE sizeof_grpc_call_stack +
                       GPR_ROUND_UP_TO_ALIGNMENT_SIZE
                         (size_t (n * sizeof_grpc_call_element)))) s0)
    as (s' & Hrun & Hw & Htr & Hcs & Hks & Hke & Hel & Hfr).
  exists s'. subst s0. cbn [mem world trace channel_stacks call_stacks
    call_elements channel_elements] in *.
  rewrite Hrun, Hw, Htr, Hcs, Hks, Hke.
  unfold channel_init_calls, channel_init_events, grpc_channel_stack_element.
  fold n. cbn [Z.add].
  rewrite first_error_fold, call_size_fold.
  split; [|split; [done|split; [done|do 3 (split; [done|])]]].
  { do 5 f_equal. unfold channel_header_size, CHANNEL_ELEMS_FROM_STACK. lia. }
  split.
  - intros i e Hi. unfold channel_elements_stored in Hi.
    rewrite list_lookup_imap in Hi.
    destruct (filters !! i) as [f|] eqn:Hf; [|done]. injection Hi as <-.
    specialize (Hel i f Hf). rewrite Z.add_0_l in Hel. rewrite Hel. do 3 f_equal.
    fold n. unfold channel_header_size, CHANNEL_ELEMS_FROM_STACK. lia.
  - intros a Ha. apply Hfr. intros j Hj. rewrite Z.add_0_l. by apply Ha.
Qed.

(** The two [CHECK]s decide what [grpc_channel_stack_init] does with the
    offset its loop reached. *)
Lemma channel_stack_checks_spec filters stack user_data s :
  sane_platform →
  channel_stack_checks filters stack user_data s =
  if stack <? user_data then
    if size_t (user_data - stack) =? size_t (channel_stack_bytes filters)
    then Returned (tt, s)
    else CheckFailed
           "(uintptr_t)(user_data - (char*)stack) == grpc_channel_stack_size(filters, filter_count)"
  else CheckFailed "user_data > (char*)stack".
Proof.
  intros Hsane. unfold channel_stack_checks, mbind, M_bind, bind, CHECK, lift.
  destruct (stack <? user_data); [|done].
  rewrite grpc_channel_stack_size_spec by by apply sane_alignment_check.
  unfold channel_stack_bytes.
  by destruct (size_t (user_data - stack) =? _).
Qed.

(** [grpc_channel_stack_init] returns when the pointer it reached lies above
    the stack, and aborts at its first [CHECK] when the pointer wrapped. *)
Lemma grpc_channel_stack_init_outcome ir d da filters ca nm stack bb s :
  sane_platform →
  (stack < size_t (stack + channel_stack_bytes filters) →
   ∃ s',
     grpc_channel_stack_init ir d da filters ca nm stack bb s =
       Returned
         (first_error_of
            (run_inits (channel_init_calls stack ca bb filters) (world s)).1,
          s') ∧
     world s' = (run_inits (channel_init_calls stack ca bb filters) (world s)).2 ∧
     trace s' = trace s ++ channel_init_events stack ca bb filters ∧
     channel_stacks (mem s') =
       <[stack := channel_stack_header ir d da filters ca nm]>
         (channel_stacks (mem s)) ∧
     call_stacks (mem s') = call_stacks (mem s) ∧
     call_elements (mem s') = call_elements (mem s) ∧
     (∀ (i : nat) e, channel_elements_stored stack filters !! i = Some e →
        channel_elements (mem s') !!
          grpc_channel_stack_element stack (Z.of_nat i) = Some e) ∧
     (∀ a, (∀ i : nat, (i < length filters)%nat →
              a ≠ grpc_channel_stack_element stack (Z.of_nat i)) →
        channel_elements (mem s') !! a = channel_elements (mem s) !! a)) ∧
  (size_t (stack + channel_stack_bytes filters) ≤ stack →
   grpc_channel_stack_init ir d da filters ca nm stack bb s =
     CheckFailed "user_data > (char*)stack").
Proof.
  intros Hsane.
  assert (sizeof_grpc_channel_element ≠ 0) as Hsz by (destruct Hsane; lia).
  destruct (channel_stack_layout_spec ir d da filters ca nm stack bb s Hsz)
    as (s1 & Hrun & Hw & Htr & Hcs & Hks & Hke & Hel & Hfr).
  fold (channel_stack_bytes filters) in Hrun.
  split; intros Hcmp; unfold grpc_channel_stack_init;
    unfold mbind, M_bind, bind at 1; rewrite Hrun; cbn beta iota;
    unfold bind at 1; rewrite channel_stack_checks_spec by done.
  - pose proof Hcmp as Hup.
    replace (stack <? _) with true by (symmetry; by apply Z.ltb_lt).
    rewrite size_t_sub_l.
    replace (size_t _ =? size_t _) with true
      by (symmetry; apply Z.eqb_eq; f_equal; lia).
    unfold bind at 1, load_channel_stack. rewrite Hcs, lookup_insert_eq.
    unfold bind, store_channel_stack, update_mem, mret, M_ret, ret.
    eexists. split; [reflexivity|]. cbn [mem world trace channel_stacks call_stacks
      call_elements channel_elements refcount count on_destroy event_engine
      stats_plugin_group].
    rewrite Hcs, insert_insert_eq. by repeat split.
  - by replace (stack <? _) with false by (symmetry; by apply Z.ltb_ge).
Qed.

Lemma channel_stack_fits_above stack filters :
  sane_platform → channel_stack_fits stack filters →
  size_t (stack + channel_stack_bytes filters) =
    stack + channel_stack_bytes filters ∧
  stack < size_t (stack + channel_stack_bytes filters).
Proof.
  intros Hsane [Hlo Hhi]. pose proof (channel_stack_bytes_pos filters Hsane).
  rewrite size_t_small by lia. lia.
Qed.

Lemma grpc_channel_stack_init_spec ir d da filters ca nm stack bb s :
  sane_platform →
  channel_stack_fits stack filters →
  ∃ s',
    grpc_channel_stack_init ir d da filters ca nm stack bb s =
      Returned
        (first_error_of
           (run_inits (channel_init_calls stack ca bb filters) (world s)).1,
         s') ∧
    world s' = (run_inits (channel_init_calls stack ca bb filters) (world s)).2 ∧
    trace s' = trace s ++ channel_init_events stack ca bb filters ∧
    channel_stacks (mem s') =
      <[stack := channel_stack_header ir d da filters ca nm]>
        (channel_stacks (mem s)) ∧
    call_stacks (mem s') = call_stacks (mem s) ∧
    call_elements (mem s') = call_elements (mem s) ∧
    (∀ (i : nat) e, channel_elements_of stack filters !! i = Some e →
       channel_elements (mem s') !!
         grpc_channel_stack_element stack (Z.of_nat i) = Some e) ∧
    (∀ a, (∀ i : nat, (i < length filters)%nat →
             a ≠ grpc_channel_stack_element stack (Z.of_nat i)) →
       channel_elements (mem s') !! a = channel_elements (mem s) !! a).
Proof.
  intros Hsane Hfits.
  destruct (proj1 (grpc_channel_stack_init_outcome ir d da filters ca nm stack
                     bb s Hsane)
              (proj2 (channel_stack_fits_above stack filters Hsane Hfits)))
    as (s' & Hrun & Hrest).
  exists s'. split; [exact Hrun|].
  by rewrite <- (channel_elements_stored_fits stack filters Hfits).
Qed.


(** *** The loops of [grpc_call_stack_init] *)

Lemma wire_loop_spec chan_elems call_elems ces :
  sizeof_grpc_call_element ≠ 0 →
  ∀ i ud s,
    (∀ (j : nat) e, ces !! j = Some e →
       channel_elements (mem s) !!
         (chan_elems + (i + Z.of_nat j) * sizeof_grpc_channel_element) = Some e) →
    ∃ s',
      for_loop (length ces) i (wire_call_elem chan_elems call_elems)
        (size_t ud) s =
        Returned (size_t (ud + call_data_total (map filter ces)), s') ∧
      world s' = world s ∧
      trace s' = trace s ∧
      channel_stacks (mem s') = channel_stacks (mem s) ∧
      channel_elements (mem s') = channel_elements (mem s) ∧
      call_stacks (mem s') = call_stacks (mem s) ∧
      (∀ (j : nat) e, ces !! j = Some e →
         call_elements (mem s') !!
           (call_elems + (i + Z.of_nat j) * sizeof_grpc_call_element) =
         Some {| call_filter := filter e;
                 call_channel_data := channel_data e;
                 call_data :=
                   size_t (ud + call_data_total (map filter (take j ces))) |}) ∧
      (∀ a, (∀ j : nat, (j < length ces)%nat →
               a ≠ call_elems + (i + Z.of_nat j) * sizeof_grpc_call_element) →
         call_elements (mem s') !! a = call_elements (mem s) !! a).
Proof.
  intros Hsz. induction ces as [|ce rest IH]; intros i ud s Hces.
  - exists s. simpl. rewrite Z.add_0_r. repeat split; done.
  - cbn [length for_loop]. unfold mbind, M_bind, bind at 1.
    unfold wire_call_elem at 1. unfold mbind, M_bind, bind at 1.
    unfold load_channel_element at 1.
    pose proof (Hces 0%nat ce eq_refl) as H0. rewrite Z.add_0_r in H0.
    rewrite H0. unfold bind at 1, store_call_element, update_mem.
    unfold mret, M_ret, ret at 1. rewrite size_t_add_l.
    set (s1 := {| mem := _; world := world s; trace := trace s |}).
    assert (Haddr : ∀ j : nat, i + 1 + Z.of_nat j = i + Z.of_nat (S j)) by lia.
    destruct (IH (i + 1)
                (ud + GPR_ROUND_UP_TO_ALIGNMENT_SIZE (sizeof_call_data (filter ce)))
                s1)
      as (s' & Hrun & Hw & Htr & Hcs & Hce & Hks & Hel & Hfr).
    { intros j e Hj. subst s1. cbn. rewrite Haddr. by apply Hces. }
    exists s'. rewrite Hrun, Hw, Htr, Hcs, Hce, Hks. subst s1.
    cbn [mem world trace channel_stacks call_stacks call_elements
         channel_elements].
    split; [|do 5 (split; [done|])].
    { do 3 f_equal. unfold call_data_total. simpl. lia. }
    split.
    + intros [|j] e Hj; simpl in Hj.
      * injection Hj as <-. rewrite Hfr.
        -- cbn. rewrite Z.add_0_r, lookup_insert_eq.
           do 3 f_equal. unfold call_data_total. simpl. lia.
        -- intros j _ Heq. apply slot_address_inj in Heq; [lia|done].
      * rewrite <- Haddr. rewrite (Hel j e Hj). do 3 f_equal.
        unfold call_data_total. simpl. lia.
    + intros a Ha. rewrite Hfr.
      * cbn. apply lookup_insert_ne. specialize (Ha 0%nat). simpl in Ha.
        rewrite Z.add_0_r in Ha. intros Heq. apply Ha; [lia|done].
      * intros j Hj. rewrite Haddr. apply Ha. simpl. lia.
Qed.

Lemma init_loop_spec call_elems elem_args (cels : list grpc_call_element) :
  ∀ i fe s,
    (∀ (j : nat) e, cels !! j = Some e →
       call_elements (mem s) !!
         (call_elems + (i + Z.of_nat j) * sizeof_grpc_call_element) = Some e) →
    let calls :=
      imap (λ j e, init_call_elem (call_filter e)
                     (call_elems + (i + Z.of_nat j) * sizeof_grpc_call_element)
                     elem_args (view_call_elements (mem s))) cels in
    let events :=
      imap (λ j e, Call_init_call_elem (name (call_filter e))
                     (call_elems + (i + Z.of_nat j) * sizeof_grpc_call_element)
                     elem_args) cels in
    for_loop (length cels) i (init_call_elem_at call_elems elem_args) fe s =
      Returned (foldl record_error fe (run_inits calls (world s)).1,
                {| mem := mem s;
                   world := (run_inits calls (world s)).2;
                   trace := trace s ++ events |}).
Proof.
  induction cels as [|ce rest IH]; intros i fe s Hcels calls events.
  - subst calls events. simpl. rewrite app_nil_r. by destruct s.
  - subst calls events. rewrite !imap_cons. cbn [length for_loop].
    unfold mbind, M_bind, bind at 1.
    unfold init_call_elem_at at 1. unfold mbind, M_bind, bind at 1.
    unfold load_call_element at 1.
    pose proof (Hcels 0%nat ce eq_refl) as H0. rewrite Z.add_0_r in H0.
    rewrite H0. unfold bind at 1, emit at 1. unfold bind at 1, run_reading at 1.
    unfold mret, M_ret, ret at 1. cbn [mem world trace fst snd].
    assert (Haddr : ∀ j : nat, i + 1 + Z.of_nat j = i + Z.of_nat (S j)) by lia.
    erewrite (imap_ext _ (λ j e, init_call_elem (call_filter e)
                (call_elems + (i + 1 + Z.of_nat j) * sizeof_grpc_call_element)
                elem_args (view_call_elements (mem s))) rest);
      [|intros; simpl; by rewrite Haddr].
    erewrite (imap_ext _ (λ j e, Call_init_call_elem (name (call_filter e))
                (call_elems + (i + 1 + Z.of_nat j) * sizeof_grpc_call_element)
                elem_args) rest);
      [|intros; simpl; by rewrite Haddr].
    rewrite IH by (intros j e Hj; cbn; rewrite Haddr; by apply Hcels).
    cbn [mem world trace]. rewrite run_inits_cons. cbn [fst snd foldl].
    rewrite !Z.add_0_r. by rewrite <- app_assoc.
Qed.

Lemma call_data_total_nonneg filters : 0 ≤ call_data_total filters.
Proof.
  induction filters as [|f rest IH]; simpl; [done|].
  pose proof (round_up_range (sizeof_call_data f)). lia.
Qed.

Lemma call_header_size_nonneg n : 0 ≤ call_header_size n.
Proof.
  unfold call_header_size.
  pose proof (round_up_range sizeof_grpc_call_stack).
  pose proof (round_up_range (size_t (n * sizeof_grpc_call_element))). lia.
Qed.

Lemma call_data_total_take_le filters i :
  0 ≤ call_data_total (take i filters) ≤ call_data_total filters.
Proof.
  split; [apply call_data_total_nonneg|].
  revert i. induction filters as [|f rest IH]; intros [|i]; simpl; try lia.
  - pose proof (call_data_total_nonneg rest).
    pose proof (round_up_range (sizeof_call_data f)).
    unfold call_data_total in *. lia.
  - specialize (IH i). unfold call_data_total in *. lia.
Qed.

Lemma map_filter_take (ces : list grpc_channel_element) i :
  map filter (take i ces) = take i (map filter ces).
Proof.
  change (map filter (take i ces)) with (filter <$> take i ces).
  by rewrite fmap_take.
Qed.

(** Inside the address space the stored pointers are the plain sums. *)
Lemma call_elements_stored_fits call_stack ces :
  call_stack_fits call_stack (map filter ces) →
  call_elements_stored call_stack ces = call_elements_of call_stack ces.
Proof.
  intros [Hlo Hhi]. unfold call_elements_stored, call_elements_of.
  apply imap_ext. intros i e He. cbn beta. f_equal. apply size_t_small.
  unfold call_stack_bytes in Hhi. rewrite length_map in Hhi.
  pose proof (call_header_size_nonneg (Z.of_nat (length ces))).
  pose proof (call_data_total_take_le (map filter ces) i).
  rewrite map_filter_take. lia.
Qed.

Lemma call_stack_wire_spec cstack ir d da elem_args ces s :
  sizeof_grpc_call_element ≠ 0 →
  channel_stack_at (mem s) cstack ces →
  ∃ s1,
    call_stack_wire cstack ir d da elem_args s =
      Returned (Z.of_nat (length ces), s1) ∧
    world s1 = world s ∧
    trace s1 = trace s ∧
    channel_stacks (mem s1) = channel_stacks (mem s) ∧
    channel_elements (mem s1) = channel_elements (mem s) ∧
    call_stacks (mem s1) =
      <[call_stack elem_args :=
          {| call_refcount := {| refs := ir; destroy := d; destroy_arg := da;
                                 object_type := "CALL_STACK" |};
             call_count := Z.of_nat (length ces) |}]> (call_stacks (mem s)) ∧
    (∀ (i : nat) e,
       call_elements_stored (call_stack elem_args) ces !! i = Some e →
       call_elements (mem s1) !!
         grpc_call_stack_element (call_stack elem_args) (Z.of_nat i) = Some e) ∧
    (∀ a, (∀ i : nat, (i < length ces)%nat →
             a ≠ grpc_call_stack_element (call_stack elem_args) (Z.of_nat i)) →
       call_elements (mem s1) !! a = call_elements (mem s) !! a).
Proof.
  intros Hsz [(stk & Hstk & Hcount) Hces].
  unfold call_stack_wire. unfold mbind, M_bind, bind at 1.
  unfold load_channel_stack. rewrite Hstk, Hcount.
  unfold bind at 1, store_call_stack, update_mem.
  set (s0 := {| mem := _; world := world s; trace := trace s |}).
  rewrite Nat2Z.id.
  destruct (wire_loop_spec (CHANNEL_ELEMS_FROM_STACK cstack)
              (CALL_ELEMS_FROM_STACK (call_stack elem_args)) ces Hsz 0
              (CALL_ELEMS_FROM_STACK (call_stack elem_args) +
               GPR_ROUND_UP_TO_ALIGNMENT_SIZE
                 (size_t (Z.of_nat (length ces) * sizeof_grpc_call_element))) s0)
    as (s1 & Hrun & Hw & Htr & Hcs & Hce & Hks & Hel & Hfr).
  { intros j e Hj. rewrite Z.add_0_l. subst s0. cbn. by apply Hces. }
  unfold bind. rewrite Hrun. unfold mret, M_ret, ret.
  exists s1. rewrite Hw, Htr, Hcs, Hce, Hks. subst s0.
  cbn [mem world trace channel_stacks call_stacks call_elements
       channel_elements] in *.
  do 6 (split; [done|]). split.
  - intros i e Hi. unfold call_elements_stored in Hi.
    rewrite list_lookup_imap in Hi.
    destruct (ces !! i) as [ce|] eqn:Hce'; [|done]. injection Hi as <-.
    specialize (Hel i ce Hce'). rewrite Z.add_0_l in Hel.
    unfold grpc_call_stack_element. rewrite Hel. do 3 f_equal.
    unfold call_header_size, CALL_ELEMS_FROM_STACK. lia.
  - intros a Ha. apply Hfr. intros j Hj. rewrite Z.add_0_l. by apply Ha.
Qed.

Lemma imap_imap {A B C} (f : nat → B → C) (g : nat → A → B) (l : list A) :
  imap f (imap g l) = imap (λ i x, f i (g i x)) l.
Proof.
  apply list_eq. intros i. rewrite !list_lookup_imap. by destruct (l !! i).
Qed.

Lemma call_stack_run_init_spec elem_args ces s :
  (∀ (i : nat) e,
     call_elements_stored (call_stack elem_args) ces !! i = Some e →
     call_elements (mem s) !!
       grpc_call_stack_element (call_stack elem_args) (Z.of_nat i) = Some e) →
  call_stack_run_init (Z.of_nat (length ces)) elem_args s =
    Returned
      (first_error_of
         (run_inits
            (call_init_calls elem_args (view_call_elements (mem s)) ces)
            (world s)).1,
       {| mem := mem s;
          world :=
            (run_inits
               (call_init_calls elem_args (view_call_elements (mem s)) ces)
               (world s)).2;
          trace := trace s ++ call_init_events elem_args ces |}).
Proof.
  intros Hel. unfold call_stack_run_init. rewrite Nat2Z.id.
  pose proof (init_loop_spec (CALL_ELEMS_FROM_STACK (call_stack elem_args))
                elem_args (call_elements_stored (call_stack elem_args) ces)
                0 OkStatus s) as Hloop.
  assert (length (call_elements_stored (call_stack elem_args) ces) = length ces)
    as Hlen by (unfold call_elements_stored; apply length_imap).
  rewrite Hlen in Hloop. rewrite Hloop.
  - rewrite first_error_fold. unfold call_init_calls, call_init_events,
      call_elements_stored, grpc_call_stack_element.
    rewrite !imap_imap. do 2 f_equal.
  - intros j e Hj. rewrite Z.add_0_l. by apply Hel.
Qed.


Lemma channel_destroy_loop_spec elems (ces : list grpc_channel_element) :
  ∀ i s,
    (∀ (j : nat) e, ces !! j = Some e →
       channel_elements (mem s) !!
         (elems + (i + Z.of_nat j) * sizeof_grpc_channel_element) = Some e) →
    for_loop (length ces) i (destroy_channel_elem_at elems) tt s =
      Returned
        (tt,
         {| mem := mem s;
            world :=
              run_all
                (imap (λ j e, destroy_channel_elem (filter e)
                                (elems + (i + Z.of_nat j) *
                                         sizeof_grpc_channel_element)) ces)
                (world s);
            trace :=
              trace s ++
              imap (λ j e, Call_destroy_channel_elem (name (filter e))
                             (elems + (i + Z.of_nat j) *
                                      sizeof_grpc_channel_element)) ces |}).
Proof.
  induction ces as [|ce rest IH]; intros i s Hces.
  - simpl. rewrite app_nil_r. by destruct s.
  - rewrite !imap_cons. cbn [length for_loop].
    unfold mbind, M_bind, bind at 1.
    unfold destroy_channel_elem_at at 1. unfold mbind, M_bind, bind at 1.
    unfold load_channel_element at 1.
    pose proof (Hces 0%nat ce eq_refl) as H0. rewrite Z.add_0_r in H0.
    rewrite H0. unfold bind at 1, emit at 1. unfold run_, run.
    cbn [mem world trace fst snd].
    assert (Haddr : ∀ j : nat, i + 1 + Z.of_nat j = i + Z.of_nat (S j)) by lia.
    erewrite (imap_ext _ (λ j e, destroy_channel_elem (filter e)
                (elems + (i + 1 + Z.of_nat j) * sizeof_grpc_channel_element)) rest);
      [|intros; simpl; by rewrite Haddr].
    erewrite (imap_ext _ (λ j e, Call_destroy_channel_elem (name (filter e))
                (elems + (i + 1 + Z.of_nat j) * sizeof_grpc_channel_element)) rest);
      [|intros; simpl; by rewrite Haddr].
    rewrite IH by (intros j e Hj; cbn; rewrite Haddr; by apply Hces).
    cbn [mem world trace run_all]. rewrite !Z.add_0_r. by rewrite <- app_assoc.
Qed.

Lemma call_destroy_loop_spec elems count final_info closure
    (cels : list grpc_call_element) :
  ∀ i s,
    (∀ (j : nat) e, cels !! j = Some e →
       call_elements (mem s) !!
         (elems + (i + Z.of_nat j) * sizeof_grpc_call_element) = Some e) →
    for_loop (length cels) i
      (destroy_call_elem_at elems count final_info closure) tt s =
      Returned
        (tt,
         {| mem := mem s;
            world :=
              run_all
                (imap (λ j e, destroy_call_elem (call_filter e)
                                (elems + (i + Z.of_nat j) * sizeof_grpc_call_element)
                                final_info
                                (if i + Z.of_nat j =? size_t (count - 1)
                                 then closure else nullptr)) cels)
                (world s);
            trace :=
              trace s ++
              imap (λ j e, Call_destroy_call_elem (name (call_filter e))
                             (elems + (i + Z.of_nat j) * sizeof_grpc_call_element)
                             final_info
                             (if i + Z.of_nat j =? size_t (count - 1)
                              then closure else nullptr)) cels |}).
Proof.
  induction cels as [|ce rest IH]; intros i s Hcels.
  - simpl. rewrite app_nil_r. by destruct s.
  - rewrite !imap_cons. cbn [length for_loop].
    unfold mbind, M_bind, bind at 1.
    unfold destroy_call_elem_at at 1. unfold mbind, M_bind, bind at 1.
    unfold load_call_element at 1.
    pose proof (Hcels 0%nat ce eq_refl) as H0. rewrite Z.add_0_r in H0.
    rewrite H0. unfold bind at 1, emit at 1. unfold run_, run.
    cbn [mem world trace fst snd].
    assert (Haddr : ∀ j : nat, i + 1 + Z.of_nat j = i + Z.of_nat (S j)) by lia.
    erewrite (imap_ext _ (λ j e, destroy_call_elem (call_filter e)
                (elems + (i + 1 + Z.of_nat j) * sizeof_grpc_call_element)
                final_info
                (if i + 1 + Z.of_nat j =? size_t (count - 1)
                 then closure else nullptr)) rest);
      [|intros; simpl; by rewrite Haddr].
    erewrite (imap_ext _ (λ j e, Call_destroy_call_elem (name (call_filter e))
                (elems + (i + 1 + Z.of_nat j) * sizeof_grpc_call_element)
                final_info
                (if i + 1 + Z.of_nat j =? size_t (count - 1)
                 then closure else nullptr)) rest);
      [|intros; simpl; by rewrite Haddr].
    rewrite IH by (intros j e Hj; cbn; rewrite Haddr; by apply Hcels).
    cbn [mem world trace run_all]. rewrite !Z.add_0_r. by rewrite <- app_assoc.
Qed.


(** *** Properties of [first_error_of] *)

Lemma first_error_of_all_ok es :
  Forall (λ e, ok e = true) es → first_error_of es = OkStatus.
Proof.
  unfold first_error_of. induction 1 as [|e es He _ IH]; [done|].
  simpl. by rewrite He.
Qed.

Lemma first_error_of_first_failure pre e post :
  Forall (λ e, ok e = true) pre → ok e = false →
  first_error_of (pre ++ e :: post) = e.
Proof.
  unfold first_error_of. induction 1 as [|e' es He' _ IH]; intros He; simpl.
  - by rewrite He.
  - rewrite He'. simpl. by apply IH.
Qed.

(** *** Sizing and layout *)

(** C1: [grpc_channel_stack_size] returns the alignment-rounded header plus
    the sum of the rounded per-filter channel data sizes, computed in
    [size_t], which is that sum itself whenever it fits a [size_t].  The
    pointer [grpc_channel_stack_init] reaches after laying out the
    sub-regions in forward order lies that many bytes behind the stack
    (as the pointer-sized difference the second [CHECK] compares); when
    the stack lies inside the address space the offset is the size itself
    and the function returns with every element in place, and when the
    pointer wrapped around the function aborts at its first [CHECK].  A
    mismatch is fatal: on any other offset the [CHECK]s abort. *)
Theorem channel_stack_size_exact (filters : list grpc_channel_filter) :
  sane_platform →
  let exact :=
    channel_header_size (Z.of_nat (length filters)) + channel_data_total filters in
  grpc_channel_stack_size filters = Returned (size_t exact) ∧
  (exact < 2 ^ 64 → grpc_channel_stack_size filters = Returned exact) ∧
  ∀ ir d da ca nm stack bb s,
    (∃ first_error call_size s1,
       channel_stack_layout ir d da filters ca nm stack bb s =
         Returned ((first_error, size_t (stack + exact), call_size), s1) ∧
       size_t (size_t (stack + exact) - stack) = size_t exact) ∧
    (channel_stack_fits stack filters →
     (∃ first_error call_size s1,
        channel_stack_layout ir d da filters ca nm stack bb s =
          Returned ((first_error, stack + exact, call_size), s1)) ∧
     ∃ first_error s',
       grpc_channel_stack_init ir d da filters ca nm stack bb s =
         Returned (first_error, s') ∧
       ∀ (i : nat) f, filters !! i = Some f →
         channel_elements (mem s') !!
           grpc_channel_stack_element stack (Z.of_nat i) =
         Some {| filter := f;
                 channel_data :=
                   stack + channel_header_size (Z.of_nat (length filters)) +
                   channel_data_total (take i filters) |}) ∧
    (size_t (stack + exact) ≤ stack →
     grpc_channel_stack_init ir d da filters ca nm stack bb s =
       CheckFailed "user_data > (char*)stack") ∧
    (∀ user_data,
       user_data ≤ stack →
       channel_stack_checks filters stack user_data s =
         CheckFailed "user_data > (char*)stack") ∧
    (∀ user_data,
       stack < user_data →
       size_t (user_data - stack) ≠ size_t exact →
       channel_stack_checks filters stack user_data s =
         CheckFailed
           "(uintptr_t)(user_data - (char*)stack) == grpc_channel_stack_size(filters, filter_count)") ∧
    (∀ user_data,
       stack < user_data →
       size_t (user_data - stack) = size_t exact →
       channel_stack_checks filters stack user_data s = Returned (tt, s)).
Proof.
  intros Hsane exact.
  assert (sizeof_grpc_channel_element ≠ 0) as Hsz by (destruct Hsane; lia).
  pose proof (grpc_channel_stack_size_spec filters (sane_alignment_check Hsane))
    as Hsize.
  split; [done|]. split.
  { intros Hfit. rewrite Hsize. f_equal. apply size_t_small.
    pose proof (channel_header_size_nonneg (Z.of_nat (length filters))).
    pose proof (channel_data_total_nonneg filters). subst exact. lia. }
  intros ir d da ca nm stack bb s.
  destruct (channel_stack_layout_spec ir d da filters ca nm stack bb s Hsz)
    as (s1 & Hrun & _).
  change (channel_header_size (Z.of_nat (length filters)) +
          channel_data_total filters) with exact in Hrun.
  split.
  { eexists _, _, s1. split; [exact Hrun|].
    rewrite size_t_sub_l. f_equal. lia. }
  split.
  { intros Hfits.
    destruct (channel_stack_fits_above stack filters Hsane Hfits) as [Heq _].
    change (channel_stack_bytes filters) with exact in Heq.
    split.
    - eexists _, _, s1. by rewrite <- Heq.
    - destruct (grpc_channel_stack_init_spec ir d da filters ca nm stack bb s
                  Hsane Hfits)
        as (s' & Hrun' & _ & _ & _ & _ & _ & Hel & _).
      eexists _, s'. split; [done|]. intros i f Hf. apply Hel.
      unfold channel_elements_of. by rewrite list_lookup_imap, Hf. }
  split.
  { apply (proj2 (grpc_channel_stack_init_outcome ir d da filters ca nm stack
                    bb s Hsane)). }
  split; [|split].
  - intros user_data Hle. rewrite channel_stack_checks_spec by done.
    by replace (stack <? user_data) with false
      by (symmetry; by apply Z.ltb_ge).
  - intros user_data Hlt Hne. rewrite channel_stack_checks_spec by done.
    replace (stack <? user_data) with true by (symmetry; by apply Z.ltb_lt).
    by replace (size_t (user_data - stack) =? _) with false
      by (symmetry; by apply Z.eqb_neq).
  - intros user_data Hlt Heq. rewrite channel_stack_checks_spec by done.
    replace (stack <? user_data) with true by (symmetry; by apply Z.ltb_lt).
    by replace (size_t (user_data - stack) =? _) with true
      by (symmetry; by apply Z.eqb_eq).
Qed.

(** *** Construction runs every filter *)

(** C2: the loop of [grpc_channel_stack_init] and [grpc_call_stack_init]
    call the init entry point of every filter, in forward order, whatever
    the earlier ones returned, and yield the first result that is not OK
    (OK when there is none).  For a stack that lies inside the address
    space, and for a call stack whose bytes are apart from the channel
    stack's, the function returns that result and leaves the stack with
    all its elements in place. *)
Theorem init_runs_every_filter :
  sane_platform →
  (∀ ir d da filters ca nm stack bb s,
     let results := run_inits (channel_init_calls stack ca bb filters) (world s) in
     (∃ user_data call_size s1,
        channel_stack_layout ir d da filters ca nm stack bb s =
          Returned ((first_error_of results.1, user_data, call_size), s1) ∧
        trace s1 = trace s ++ channel_init_events stack ca bb filters ∧
        world s1 = results.2) ∧
     (channel_stack_fits stack filters →
      ∃ s',
        grpc_channel_stack_init ir d da filters ca nm stack bb s =
          Returned (first_error_of results.1, s') ∧
        trace s' = trace s ++ channel_init_events stack ca bb filters ∧
        world s' = results.2 ∧
        channel_stack_at (mem s') stack (channel_elements_of stack filters))) ∧
  (∀ cstack ir d da elem_args ces s,
     channel_stack_at (mem s) cstack ces →
     call_stack_fits (call_stack elem_args) (map filter ces) →
     separate (call_stack elem_args) (call_stack_bytes (map filter ces))
       cstack (channel_stack_bytes (map filter ces)) →
     ∃ s',
       let results :=
         run_inits
           (call_init_calls elem_args (view_call_elements (mem s')) ces)
           (world s) in
       grpc_call_stack_init cstack ir d da elem_args s =
         Returned (first_error_of results.1, s') ∧
       trace s' = trace s ++ call_init_events elem_args ces ∧
       world s' = results.2 ∧
       call_stack_at (mem s') (call_stack elem_args)
         (call_elements_of (call_stack elem_args) ces)).
Proof.
  intros Hsane. split.
  - intros ir d da filters ca nm stack bb s results.
    assert (sizeof_grpc_channel_element ≠ 0) as Hsz by (destruct Hsane; lia).
    split.
    + destruct (channel_stack_layout_spec ir d da filters ca nm stack bb s Hsz)
        as (s1 & Hrun & Hw & Htr & _).
      by eexists _, _, s1.
    + intros Hfits.
      destruct (grpc_channel_stack_init_spec ir d da filters ca nm stack bb s
                  Hsane Hfits)
        as (s' & Hrun & Hw & Htr & Hcs & _ & _ & Hel & _).
      exists s'. repeat split; try done.
      eexists. rewrite Hcs, lookup_insert_eq. split; [done|].
      unfold channel_elements_of. by rewrite length_imap.
  - intros cstack ir d da elem_args ces s Hat Hfits _.
    assert (sizeof_grpc_call_element ≠ 0) as Hsz by (destruct Hsane; lia).
    destruct (call_stack_wire_spec cstack ir d da elem_args ces s Hsz Hat)
      as (s1 & Hrun & Hw & Htr & _ & _ & Hks & Hel & _).
    unfold grpc_call_stack_init. unfold mbind, M_bind, bind. rewrite Hrun.
    rewrite (call_stack_run_init_spec elem_args ces s1 Hel), Hw, Htr.
    exists {| mem := mem s1;
              world :=
                (run_inits
                   (call_init_calls elem_args (view_call_elements (mem s1)) ces)
                   (world s)).2;
              trace := trace s ++ call_init_events elem_args ces |}.
    cbn zeta. cbn [mem world trace]. do 3 (split; [done|]). split.
    + eexists. rewrite Hks, lookup_insert_eq. split; [done|].
      unfold call_elements_of. by rewrite length_imap.
    + rewrite <- (call_elements_stored_fits _ _ Hfits). exact Hel.
Qed.


(** *** The two passes of [grpc_call_stack_init] *)

(** C3: [grpc_call_stack_init] is a wiring pass followed by an init pass.
    The wiring pass runs no filter code (the world and the trace of calls
    are untouched) and leaves every call element with the filter and the
    [channel_data] pointer of the channel element at the same index and
    with its own rounded [call_data] sub-region.  The init pass then calls
    every filter's call-init in forward order, each of them reading the
    call elements as the wiring pass left them: all of them wired, those
    ahead of the filter included; its result is the first one that is not
    OK and it writes no element.  So in the call stack that is returned,
    each call element's [channel_data] equals that of its channel element.
    The call stack lies inside the address space and its bytes are apart
    from those of the channel stack. *)
Theorem call_stack_init_two_passes cstack ir d da elem_args ces s :
  sane_platform →
  channel_stack_at (mem s) cstack ces →
  call_stack_fits (call_stack elem_args) (map filter ces) →
  separate (call_stack elem_args) (call_stack_bytes (map filter ces))
    cstack (channel_stack_bytes (map filter ces)) →
  ∃ s1 s2,
    let seen := view_call_elements (mem s1) in
    let results := run_inits (call_init_calls elem_args seen ces) (world s1) in
    call_stack_wire cstack ir d da elem_args s =
      Returned (Z.of_nat (length ces), s1) ∧
    world s1 = world s ∧
    trace s1 = trace s ∧
    call_stack_at (mem s1) (call_stack elem_args)
      (call_elements_of (call_stack elem_args) ces) ∧
    (∀ (i : nat) ce, ces !! i = Some ce →
       seen (grpc_call_stack_element (call_stack elem_args) (Z.of_nat i)) =
       Some {| seen_channel_data := channel_data ce;
               seen_call_data :=
                 call_stack elem_args + call_header_size (Z.of_nat (length ces)) +
                 call_data_total (map filter (take i ces)) |}) ∧
    call_stack_run_init (Z.of_nat (length ces)) elem_args s1 =
      Returned (first_error_of results.1, s2) ∧
    mem s2 = mem s1 ∧
    world s2 = results.2 ∧
    trace s2 = trace s1 ++ call_init_events elem_args ces ∧
    grpc_call_stack_init cstack ir d da elem_args s =
      Returned (first_error_of results.1, s2) ∧
    ∀ (i : nat) ce, ces !! i = Some ce →
      channel_elements (mem s2) !!
        grpc_channel_stack_element cstack (Z.of_nat i) = Some ce ∧
      ∃ cl,
        call_elements (mem s2) !!
          grpc_call_stack_element (call_stack elem_args) (Z.of_nat i) = Some cl ∧
        call_filter cl = filter ce ∧
        call_channel_data cl = channel_data ce ∧
        call_data cl =
          call_stack elem_args + call_header_size (Z.of_nat (length ces)) +
          call_data_total (map filter (take i ces)).
Proof.
  intros Hsane Hat Hfits _.
  assert (sizeof_grpc_call_element ≠ 0) as Hsz by (destruct Hsane; lia).
  destruct (call_stack_wire_spec cstack ir d da elem_args ces s Hsz Hat)
    as (s1 & Hrun & Hw & Htr & _ & Hce & Hks & Hel & _).
  pose proof (call_stack_run_init_spec elem_args ces s1 Hel) as Hrun2.
  rewrite (call_elements_stored_fits _ _ Hfits) in Hel.
  eexists s1, _. cbn zeta. do 3 (split; [done|]). split.
  { split.
    - eexists. rewrite Hks, lookup_insert_eq. split; [done|].
      unfold call_elements_of. by rewrite length_imap.
    - done. }
  split.
  { intros i ce Hi. unfold view_call_elements.
    rewrite (Hel i _ ltac:(unfold call_elements_of;
                            by rewrite list_lookup_imap, Hi)).
    done. }
  split; [exact Hrun2|]. cbn [mem world trace]. do 3 (split; [done|]). split.
  { unfold grpc_call_stack_init. unfold mbind, M_bind, bind. by rewrite Hrun. }
  intros i ce Hi. split.
  - rewrite Hce. by apply Hat.
  - eexists. split.
    + apply Hel. unfold call_elements_of. rewrite list_lookup_imap, Hi. done.
    + done.
Qed.

(** *** Destruction *)

(** C4: [grpc_channel_stack_destroy] calls every filter's channel-destroy
    once, in forward order, then the [on_destroy] callback, then destroys
    the event engine handle and the stats plugin group;
    [grpc_call_stack_destroy] calls every filter's call-destroy once, in
    forward order, and passes [then_schedule_closure] to the last one and
    [nullptr] to all the others. *)
Theorem destroy_order :
  (∀ stack ces stk f s,
     channel_stack_at (mem s) stack ces →
     channel_stacks (mem s) !! stack = Some stk →
     on_destroy stk = Some f →
     ∃ s',
       grpc_channel_stack_destroy stack s = Returned (tt, s') ∧
       trace s' =
         trace s ++ [Destroy_channelz_data_source] ++
         channel_destroy_events stack ces ++
         [Call_on_destroy; Destroy_on_destroy; Destroy_event_engine;
          Destroy_stats_plugin_group] ∧
       world s' = f (run_all (channel_destroy_calls stack ces) (world s))) ∧
  (∀ stack final_info then_schedule_closure cels s,
     call_stack_at (mem s) stack cels →
     Z.of_nat (length cels) < 2 ^ 64 →
     ∃ s',
       grpc_call_stack_destroy stack final_info then_schedule_closure s =
         Returned (tt, s') ∧
       trace s' =
         trace s ++
         call_destroy_events stack final_info then_schedule_closure cels ∧
       world s' =
         run_all
           (call_destroy_calls stack final_info then_schedule_closure cels)
           (world s)).
Proof.
  split.
  - intros stack ces stk f s [(stk' & Hstk' & Hcount) Hces] Hstk Hf.
    rewrite Hstk in Hstk'. injection Hstk' as <-.
    unfold grpc_channel_stack_destroy. unfold mbind, M_bind, bind at 1.
    unfold load_channel_stack. rewrite Hstk, Hcount, Nat2Z.id.
    unfold bind at 1, emit at 1. unfold bind at 1.
    rewrite channel_destroy_loop_spec
      by (intros j e Hj; rewrite Z.add_0_l; by apply Hces).
    rewrite Hf. unfold bind, emit, run_, run, store_channel_stack, update_mem.
    cbn [mem world trace fst snd]. eexists. split; [reflexivity|].
    cbn [mem world trace]. unfold channel_destroy_events, channel_destroy_calls,
      grpc_channel_stack_element.
    split; [|done]. by rewrite <- !app_assoc.
  - intros stack final_info closure cels s [(stk & Hstk & Hcount) Hcels] Hlen.
    unfold grpc_call_stack_destroy. unfold mbind, M_bind, bind at 1.
    unfold load_call_stack. rewrite Hstk, Hcount, Nat2Z.id.
    rewrite call_destroy_loop_spec
      by (intros j e Hj; rewrite Z.add_0_l; by apply Hcels).
    eexists. split; [reflexivity|]. cbn [mem world trace].
    assert (∀ (j : nat) (e : grpc_call_element), cels !! j = Some e →
              (if 0 + Z.of_nat j =? size_t (Z.of_nat (length cels) - 1)
               then closure else nullptr) =
              closure_for (length cels) j closure) as Hclosure.
    { intros j e Hj. apply lookup_lt_Some in Hj.
      rewrite size_t_small by lia. unfold closure_for.
      destruct (decide (S j = length cels)) as [Heq|Hne].
      - replace (0 + Z.of_nat j =? _) with true; [done|].
        symmetry. apply Z.eqb_eq. lia.
      - replace (0 + Z.of_nat j =? _) with false; [done|].
        symmetry. apply Z.eqb_neq. lia. }
    unfold call_destroy_events, call_destroy_calls, grpc_call_stack_element.
    split.
    + f_equal. apply imap_ext. intros j e Hj. simpl.
      by rewrite (Hclosure j e Hj).
    + f_equal. apply imap_ext. intros j e Hj. simpl.
      by rewrite (Hclosure j e Hj).
Qed.


(** *** Forwarding *)

(** C5: [grpc_call_next_op], [grpc_channel_next_get_info] and
    [grpc_channel_next_op] called on an element dispatch to whatever lives
    one element further, without looking at the stack's count; from the
    element at index [i] that is the element at index [i + 1]; when
    [i + 1 < count] this is an element of the stack and its filter's entry
    point is called; from the last element the target is the slot past the
    array, which is none of the stack's elements. *)
Theorem next_op_dispatch :
  sane_platform →
  (* dispatch by pointer increment, no bounds check *)
  (∀ elem op s,
     grpc_call_next_op elem op s =
     match call_elements (mem s) !! (elem + sizeof_grpc_call_element) with
     | Some next =>
         Returned
           (tt,
            {| mem := mem s;
               world :=
                 start_transport_stream_op_batch (call_filter next)
                   (elem + sizeof_grpc_call_element) op (world s);
               trace :=
                 trace s ++
                 [Call_start_transport_stream_op_batch (name (call_filter next))
                    (elem + sizeof_grpc_call_element) op] |})
     | None => UndefinedBehavior
     end) ∧
  (∀ elem channel_info s,
     grpc_channel_next_get_info elem channel_info s =
     match channel_elements (mem s) !! (elem + sizeof_grpc_channel_element) with
     | Some next =>
         Returned
           (tt,
            {| mem := mem s;
               world :=
                 get_channel_info (filter next)
                   (elem + sizeof_grpc_channel_element) channel_info (world s);
               trace :=
                 trace s ++
                 [Call_get_channel_info (name (filter next))
                    (elem + sizeof_grpc_channel_element) channel_info] |})
     | None => UndefinedBehavior
     end) ∧
  (∀ elem op s,
     grpc_channel_next_op elem op s =
     match channel_elements (mem s) !! (elem + sizeof_grpc_channel_element) with
     | Some next =>
         Returned
           (tt,
            {| mem := mem s;
               world :=
                 start_transport_op (filter next)
                   (elem + sizeof_grpc_channel_element) op (world s);
               trace :=
                 trace s ++
                 [Call_start_transport_op (name (filter next))
                    (elem + sizeof_grpc_channel_element) op] |})
     | None => UndefinedBehavior
     end) ∧
  (* the increment of element [i] is element [i + 1] *)
  (∀ stack i,
     grpc_call_stack_element stack i + sizeof_grpc_call_element =
       grpc_call_stack_element stack (i + 1) ∧
     grpc_channel_stack_element stack i + sizeof_grpc_channel_element =
       grpc_channel_stack_element stack (i + 1)) ∧
  (* below the last index the operation reaches the next element *)
  (∀ stack cels (i : nat) op s,
     call_stack_at (mem s) stack cels →
     (Z.of_nat i + 1 < Z.of_nat (length cels)) →
     ∃ next,
       cels !! S i = Some next ∧
       grpc_call_next_op (grpc_call_stack_element stack (Z.of_nat i)) op s =
       Returned
         (tt,
          {| mem := mem s;
             world :=
               start_transport_stream_op_batch (call_filter next)
                 (grpc_call_stack_element stack (Z.of_nat i + 1)) op (world s);
             trace :=
               trace s ++
               [Call_start_transport_stream_op_batch (name (call_filter next))
                  (grpc_call_stack_element stack (Z.of_nat i + 1)) op] |})) ∧
  (∀ stack ces (i : nat) arg s,
     channel_stack_at (mem s) stack ces →
     (Z.of_nat i + 1 < Z.of_nat (length ces)) →
     ∃ next,
       ces !! S i = Some next ∧
       grpc_channel_next_get_info
         (grpc_channel_stack_element stack (Z.of_nat i)) arg s =
       Returned
         (tt,
          {| mem := mem s;
             world :=
               get_channel_info (filter next)
                 (grpc_channel_stack_element stack (Z.of_nat i + 1)) arg
                 (world s);
             trace :=
               trace s ++
               [Call_get_channel_info (name (filter next))
                  (grpc_channel_stack_element stack (Z.of_nat i + 1)) arg] |}) ∧
       grpc_channel_next_op
         (grpc_channel_stack_element stack (Z.of_nat i)) arg s =
       Returned
         (tt,
          {| mem := mem s;
             world :=
               start_transport_op (filter next)
                 (grpc_channel_stack_element stack (Z.of_nat i + 1)) arg
                 (world s);
             trace :=
               trace s ++
               [Call_start_transport_op (name (filter next))
                  (grpc_channel_stack_element stack (Z.of_nat i + 1)) arg] |})) ∧
  (* from the last index the target is no element of the stack *)
  (∀ stack (count j : nat),
     (j < count)%nat →
     grpc_call_stack_element stack (Z.of_nat count - 1) +
       sizeof_grpc_call_element ≠
     grpc_call_stack_element stack (Z.of_nat j) ∧
     grpc_channel_stack_element stack (Z.of_nat count - 1) +
       sizeof_grpc_channel_element ≠
     grpc_channel_stack_element stack (Z.of_nat j)).
Proof.
  intros Hsane.
  assert (sizeof_grpc_call_element ≠ 0) as Hsz by (destruct Hsane; lia).
  assert (sizeof_grpc_channel_element ≠ 0) as Hsz' by (destruct Hsane; lia).
  assert (∀ stack i,
     grpc_call_stack_element stack i + sizeof_grpc_call_element =
       grpc_call_stack_element stack (i + 1) ∧
     grpc_channel_stack_element stack i + sizeof_grpc_channel_element =
       grpc_channel_stack_element stack (i + 1)) as Hnext.
  { intros stack i.
    unfold grpc_call_stack_element, grpc_channel_stack_element. lia. }
  assert (∀ elem op s,
     grpc_call_next_op elem op s =
     match call_elements (mem s) !! (elem + sizeof_grpc_call_element) with
     | Some next =>
         Returned
           (tt,
            {| mem := mem s;
               world :=
                 start_transport_stream_op_batch (call_filter next)
                   (elem + sizeof_grpc_call_element) op (world s);
               trace :=
                 trace s ++
                 [Call_start_transport_stream_op_batch (name (call_filter next))
                    (elem + sizeof_grpc_call_element) op] |})
     | None => UndefinedBehavior
     end) as Hcall.
  { intros elem op s. unfold grpc_call_next_op, mbind, M_bind, bind,
      load_call_element. rewrite Z.mul_1_l.
    by destruct (call_elements (mem s) !! (elem + sizeof_grpc_call_element)). }
  assert (∀ elem channel_info s,
     grpc_channel_next_get_info elem channel_info s =
     match channel_elements (mem s) !! (elem + sizeof_grpc_channel_element) with
     | Some next =>
         Returned
           (tt,
            {| mem := mem s;
               world :=
                 get_channel_info (filter next)
                   (elem + sizeof_grpc_channel_element) channel_info (world s);
               trace :=
                 trace s ++
                 [Call_get_channel_info (name (filter next))
                    (elem + sizeof_grpc_channel_element) channel_info] |})
     | None => UndefinedBehavior
     end) as Hinfo.
  { intros elem ci s. unfold grpc_channel_next_get_info, mbind, M_bind, bind,
      load_channel_element. rewrite Z.mul_1_l.
    by destruct (channel_elements (mem s) !! (elem + sizeof_grpc_channel_element)). }
  assert (∀ elem op s,
     grpc_channel_next_op elem op s =
     match channel_elements (mem s) !! (elem + sizeof_grpc_channel_element) with
     | Some next =>
         Returned
           (tt,
            {| mem := mem s;
               world :=
                 start_transport_op (filter next)
                   (elem + sizeof_grpc_channel_element) op (world s);
               trace :=
                 trace s ++
                 [Call_start_transport_op (name (filter next))
                    (elem + sizeof_grpc_channel_element) op] |})
     | None => UndefinedBehavior
     end) as Hop.
  { intros elem op s. unfold grpc_channel_next_op, mbind, M_bind, bind,
      load_channel_element. rewrite Z.mul_1_l.
    by destruct (channel_elements (mem s) !! (elem + sizeof_grpc_channel_element)). }
  do 4 (split; [done|]). split; [|split].
  - intros stack cels i op s [_ Hcels] Hi.
    destruct (lookup_lt_is_Some_2 cels (S i)) as [next Hn]; [lia|].
    exists next. split; [done|].
    rewrite Hcall, (proj1 (Hnext stack (Z.of_nat i))).
    replace (Z.of_nat i + 1) with (Z.of_nat (S i)) by lia.
    by rewrite (Hcels _ _ Hn).
  - intros stack ces i arg s [_ Hces] Hi.
    destruct (lookup_lt_is_Some_2 ces (S i)) as [next Hn]; [lia|].
    exists next. split; [done|].
    rewrite Hinfo, Hop, (proj2 (Hnext stack (Z.of_nat i))).
    replace (Z.of_nat i + 1) with (Z.of_nat (S i)) by lia.
    by rewrite (Hces _ _ Hn).
  - intros stack count j Hj. split.
    + rewrite (proj1 (Hnext stack _)). unfold grpc_call_stack_element.
      intros Heq. apply slot_address_inj in Heq; [lia|done].
    + rewrite (proj2 (Hnext stack _)). unfold grpc_channel_stack_element.
      intros Heq. apply slot_address_inj in Heq; [lia|done].
Qed.

(** *** Recovering the stack from its top element *)

(** C10: taking element 0 of a stack and recovering the stack from it are
    inverse to each other, for channel stacks and for call stacks. *)
Theorem from_top_element_inverse (s : Z) :
  grpc_channel_stack_from_top_element (grpc_channel_stack_element s 0) = s ∧
  grpc_call_stack_from_top_element (grpc_call_stack_element s 0) = s.
Proof.
  unfold grpc_channel_stack_from_top_element, grpc_channel_stack_element,
    CHANNEL_ELEMS_FROM_STACK, grpc_call_stack_from_top_element,
    grpc_call_stack_element, CALL_ELEMS_FROM_STACK.
  lia.
Qed.


(** *** Sums over prefixes *)

Lemma sum_app {X} (g : X → Z) (l1 l2 : list X) :
  foldr (λ x acc, g x + acc) 0 (l1 ++ l2) =
  foldr (λ x acc, g x + acc) 0 l1 + foldr (λ x acc, g x + acc) 0 l2.
Proof. induction l1 as [|x l1 IH]; simpl; lia. Qed.

Lemma sum_nonneg {X} (g : X → Z) (l : list X) :
  (∀ x, 0 ≤ g x) → 0 ≤ foldr (λ x acc, g x + acc) 0 l.
Proof. intros Hg. induction l as [|x l IH]; simpl; [lia|]. specialize (Hg x). lia. Qed.

Lemma sum_take_S {X} (g : X → Z) (l : list X) i x :
  l !! i = Some x →
  foldr (λ x acc, g x + acc) 0 (take (S i) l) =
  foldr (λ x acc, g x + acc) 0 (take i l) + g x.
Proof.
  intros Hi. rewrite (take_S_r _ _ _ Hi), sum_app. simpl. lia.
Qed.

Lemma sum_take_le {X} (g : X → Z) (l : list X) i :
  (∀ x, 0 ≤ g x) →
  foldr (λ x acc, g x + acc) 0 (take i l) ≤ foldr (λ x acc, g x + acc) 0 l.
Proof.
  intros Hg. rewrite <- (take_drop i l) at 2. rewrite sum_app.
  pose proof (sum_nonneg g (drop i l) Hg). lia.
Qed.

Lemma sum_take_mono {X} (g : X → Z) (l : list X) i j :
  (∀ x, 0 ≤ g x) → (i ≤ j)%nat →
  foldr (λ x acc, g x + acc) 0 (take i l) ≤
  foldr (λ x acc, g x + acc) 0 (take j l).
Proof.
  intros Hg Hij. replace (take i l) with (take i (take j l))
    by (rewrite take_take; f_equal; lia).
  by apply sum_take_le.
Qed.

Lemma sum_le {X} (g h : X → Z) (l : list X) :
  Forall (λ x, g x ≤ h x) l →
  foldr (λ x acc, g x + acc) 0 l ≤ foldr (λ x acc, h x + acc) 0 l.
Proof. induction 1; simpl; lia. Qed.

Lemma sum_lt_slack {X} (g h : X → Z) (l : list X) (slack : Z) :
  Forall (λ x, h x < g x + slack) l →
  foldr (λ x acc, h x + acc) 0 l ≤
  foldr (λ x acc, g x + acc) 0 l + Z.of_nat (length l) * slack.
Proof. induction 1; simpl; lia. Qed.

(** *** Alignment *)

Lemma sane_alignment_pos : sane_platform → 0 < GPR_MAX_ALIGNMENT.
Proof. intros [(k & Hk & ->) _ _ _ _]. apply Z.pow_pos_nonneg; lia. Qed.

Lemma alignment_divides_size_t : sane_platform → (GPR_MAX_ALIGNMENT | 2 ^ 64).
Proof.
  intros [(k & Hk & ->) _ _ _ _]. exists (2 ^ (64 - k)).
  rewrite <- Z.pow_add_r by lia. f_equal. lia.
Qed.

Lemma size_t_aligned x :
  sane_platform → (GPR_MAX_ALIGNMENT | x) → (GPR_MAX_ALIGNMENT | size_t x).
Proof.
  intros Hsane Hx. pose proof (sane_alignment_pos Hsane).
  apply Z.mod_divide; [lia|]. unfold size_t.
  rewrite Z.mod_mod_divide by by apply alignment_divides_size_t.
  by apply Z.mod0_divide.
Qed.

Lemma round_up_aligned x :
  sane_platform → (GPR_MAX_ALIGNMENT | GPR_ROUND_UP_TO_ALIGNMENT_SIZE x).
Proof.
  intros Hsane. pose proof Hsane as [(k & Hk & HA) _ _ _ _].
  rewrite (round_up_multiple k) by (done || lia).
  apply size_t_aligned; [done|]. apply Z.divide_factor_r.
Qed.

Lemma sum_aligned {X} (g : X → Z) (l : list X) A :
  (∀ x, (A | g x)) → (A | foldr (λ x acc, g x + acc) 0 l).
Proof.
  intros Hg. induction l as [|x l IH]; simpl; [apply Z.divide_0_r|].
  by apply Z.divide_add_r.
Qed.


(** *** What construction leaves in memory *)

Lemma grpc_channel_stack_init_stack_at ir d da filters ca nm stack bb s :
  sane_platform →
  channel_stack_fits stack filters →
  ∃ s',
    grpc_channel_stack_init ir d da filters ca nm stack bb s =
      Returned
        (first_error_of
           (run_inits (channel_init_calls stack ca bb filters) (world s)).1,
         s') ∧
    world s' = (run_inits (channel_init_calls stack ca bb filters) (world s)).2 ∧
    trace s' = trace s ++ channel_init_events stack ca bb filters ∧
    channel_stacks (mem s') !! stack =
      Some (channel_stack_header ir d da filters ca nm) ∧
    channel_stack_at (mem s') stack (channel_elements_of stack filters).
Proof.
  intros Hsane Hfits.
  destruct (grpc_channel_stack_init_spec ir d da filters ca nm stack bb s Hsane
              Hfits)
    as (s' & Hrun & Hw & Htr & Hcs & _ & _ & Hel & _).
  exists s'. do 3 (split; [done|]).
  assert (channel_stacks (mem s') !! stack =
          Some (channel_stack_header ir d da filters ca nm)) as Hhdr
    by (by rewrite Hcs, lookup_insert_eq).
  split; [done|]. split; [|done].
  eexists. split; [exact Hhdr|]. unfold channel_elements_of.
  by rewrite length_imap.
Qed.

Lemma grpc_call_stack_init_spec cstack ir d da elem_args ces s :
  sane_platform →
  channel_stack_at (mem s) cstack ces →
  call_stack_fits (call_stack elem_args) (map filter ces) →
  ∃ s',
    grpc_call_stack_init cstack ir d da elem_args s =
      Returned
        (first_error_of
           (run_inits
              (call_init_calls elem_args (view_call_elements (mem s')) ces)
              (world s)).1,
         s') ∧
    world s' =
      (run_inits (call_init_calls elem_args (view_call_elements (mem s')) ces)
         (world s)).2 ∧
    trace s' = trace s ++ call_init_events elem_args ces ∧
    channel_stacks (mem s') = channel_stacks (mem s) ∧
    channel_elements (mem s') = channel_elements (mem s) ∧
    call_stacks (mem s') =
      <[call_stack elem_args :=
          {| call_refcount := {| refs := ir; destroy := d; destroy_arg := da;
                                 object_type := "CALL_STACK" |};
             call_count := Z.of_nat (length ces) |}]> (call_stacks (mem s)) ∧
    call_stack_at (mem s') (call_stack elem_args)
      (call_elements_of (call_stack elem_args) ces) ∧
    (∀ a, (∀ i : nat, (i < length ces)%nat →
             a ≠ grpc_call_stack_element (call_stack elem_args) (Z.of_nat i)) →
       call_elements (mem s') !! a = call_elements (mem s) !! a).
Proof.
  intros Hsane Hat Hfits.
  assert (sizeof_grpc_call_element ≠ 0) as Hsz by (destruct Hsane; lia).
  destruct (call_stack_wire_spec cstack ir d da elem_args ces s Hsz Hat)
    as (s1 & Hrun & Hw & Htr & Hcs & Hce & Hks & Hel & Hfr).
  unfold grpc_call_stack_init. unfold mbind, M_bind, bind. rewrite Hrun.
  rewrite (call_stack_run_init_spec elem_args ces s1 Hel), Hw, Htr.
  exists {| mem := mem s1;
            world :=
              (run_inits
                 (call_init_calls elem_args (view_call_elements (mem s1)) ces)
                 (world s)).2;
            trace := trace s ++ call_init_events elem_args ces |}.
  cbn [mem world trace]. do 6 (split; [done|]). split; [|done]. split.
  - eexists. rewrite Hks, lookup_insert_eq. split; [done|].
    unfold call_elements_of. by rewrite length_imap.
  - rewrite <- (call_elements_stored_fits _ _ Hfits). exact Hel.
Qed.

Lemma channel_elements_of_filters stack filters :
  map filter (channel_elements_of stack filters) = filters.
Proof.
  apply list_eq. intros i. unfold channel_elements_of.
  rewrite list_lookup_fmap, list_lookup_imap. by destruct (filters !! i).
Qed.

Lemma channel_elements_of_length stack filters :
  length (channel_elements_of stack filters) = length filters.
Proof. unfold channel_elements_of. apply length_imap. Qed.

(** *** The size of a channel stack *)

(** The size [grpc_channel_stack_size] returns is a multiple of the
    alignment; when the sizes can be rounded and the sum fits a [size_t],
    it is at least the bytes the structs and the filters' data need, and
    exceeds them by less than one alignment unit per rounded part. *)
Theorem channel_stack_size_bounds (filters : list grpc_channel_filter) :
  sane_platform →
  ∃ size,
    grpc_channel_stack_size filters = Returned size ∧
    0 ≤ size < 2 ^ 64 ∧
    size mod GPR_MAX_ALIGNMENT = 0 ∧
    (channel_sizes_fit filters →
     channel_header_size (Z.of_nat (length filters)) +
       channel_data_total filters < 2 ^ 64 →
     channel_bytes_needed filters ≤ size <
       channel_bytes_needed filters +
       (Z.of_nat (length filters) + 2) * GPR_MAX_ALIGNMENT).
Proof.
  intros Hsane. eexists. split.
  { apply grpc_channel_stack_size_spec. by apply sane_alignment_check. }
  pose proof (sane_alignment_pos Hsane) as HA.
  split; [apply size_t_range|]. split.
  - apply Z.mod_divide; [lia|]. apply size_t_aligned; [done|].
    apply Z.divide_add_r; [apply Z.divide_add_r; by apply round_up_aligned|].
    apply (sum_aligned (λ f, GPR_ROUND_UP_TO_ALIGNMENT_SIZE (sizeof_channel_data f))).
    intros f. by apply round_up_aligned.
  - intros [Hsizes Harray] Hfit.
    pose proof (channel_header_size_nonneg (Z.of_nat (length filters))).
    pose proof (channel_data_total_nonneg filters).
    rewrite size_t_small by lia.
    assert (0 ≤ Z.of_nat (length filters) * sizeof_grpc_channel_element) as Hnn
      by (destruct Hsane; nia).
    unfold channel_header_size, channel_bytes_needed.
    rewrite (size_t_small (_ * _)) by lia.
    destruct (round_up_bounds sizeof_grpc_channel_stack Hsane) as [? _];
      [destruct Hsane; lia|].
    destruct (round_up_bounds
                (Z.of_nat (length filters) * sizeof_grpc_channel_element) Hsane)
      as [? _]; [lia|].
    pose proof (sum_le sizeof_channel_data
                  (λ f, GPR_ROUND_UP_TO_ALIGNMENT_SIZE (sizeof_channel_data f))
                  filters) as Hlow.
    pose proof (sum_lt_slack sizeof_channel_data
                  (λ f, GPR_ROUND_UP_TO_ALIGNMENT_SIZE (sizeof_channel_data f))
                  filters GPR_MAX_ALIGNMENT) as Hhigh.
    unfold channel_data_total.
    assert (Forall (λ f, sizeof_channel_data f ≤
                         GPR_ROUND_UP_TO_ALIGNMENT_SIZE (sizeof_channel_data f) <
                         sizeof_channel_data f + GPR_MAX_ALIGNMENT) filters)
      as Hround.
    { eapply Forall_impl; [exact Hsizes|]. intros f Hf. simpl in Hf.
      by destruct (round_up_bounds (sizeof_channel_data f) Hsane Hf). }
    specialize (Hlow ltac:(eapply Forall_impl; [exact Hround|]; simpl; intros; lia)).
    specialize (Hhigh ltac:(eapply Forall_impl; [exact Hround|]; simpl; intros; lia)).
    cbn beta in Hlow, Hhigh. lia.
Qed.


(** *** Where construction puts things *)

Lemma channel_stack_at_lookup m stack elems (i : nat) e :
  channel_stack_at m stack elems → elems !! i = Some e →
  channel_elements m !! grpc_channel_stack_element stack (Z.of_nat i) = Some e.
Proof. intros [_ Hel]. apply Hel. Qed.

Lemma channel_elements_of_lookup stack filters (i : nat) f :
  filters !! i = Some f →
  channel_elements_of stack filters !! i =
  Some {| filter := f;
          channel_data :=
            stack + channel_header_size (Z.of_nat (length filters)) +
            channel_data_total (take i filters) |}.
Proof. intros Hf. unfold channel_elements_of. by rewrite list_lookup_imap, Hf. Qed.

(** After [grpc_channel_stack_init] on a stack that lies inside the address
    space, the element slots lie behind the stack
    struct and before the filters' data; the data region of each filter
    lies behind the element array and inside the size that
    [grpc_channel_stack_size] returns; and the regions of two filters do
    not overlap. *)
Theorem channel_layout_regions ir d da filters ca nm stack bb s :
  sane_platform →
  channel_sizes_fit filters →
  channel_stack_fits stack filters →
  ∃ first_error s' size,
    grpc_channel_stack_init ir d da filters ca nm stack bb s =
      Returned (first_error, s') ∧
    grpc_channel_stack_size filters = Returned size ∧
    ∀ (i : nat) f, filters !! i = Some f →
      ∃ e,
        channel_elements (mem s') !!
          grpc_channel_stack_element stack (Z.of_nat i) = Some e ∧
        filter e = f ∧
        stack + sizeof_grpc_channel_stack ≤
          grpc_channel_stack_element stack (Z.of_nat i) ∧
        grpc_channel_stack_element stack (Z.of_nat i) +
          sizeof_grpc_channel_element ≤
          stack + channel_header_size (Z.of_nat (length filters)) ∧
        stack + channel_header_size (Z.of_nat (length filters)) ≤
          channel_data e ∧
        channel_data e + sizeof_channel_data f ≤ stack + size ∧
        ∀ (j : nat) e',
          (i < j)%nat →
          channel_elements (mem s') !!
            grpc_channel_stack_element stack (Z.of_nat j) = Some e' →
          (j < length filters)%nat →
          channel_data e + sizeof_channel_data f ≤ channel_data e'.
Proof.
  intros Hsane [Hsizes Harray] Hfits.
  destruct (grpc_channel_stack_init_stack_at ir d da filters ca nm stack bb s
              Hsane Hfits)
    as (s' & Hrun & _ & _ & _ & Hat).
  pose proof (grpc_channel_stack_size_spec filters (sane_alignment_check Hsane))
    as Hsize.
  pose proof (channel_header_size_nonneg (Z.of_nat (length filters))) as Hh.
  pose proof (channel_data_total_nonneg filters) as Ht.
  assert (channel_header_size (Z.of_nat (length filters)) +
          channel_data_total filters < 2 ^ 64) as Hfit
    by (destruct Hfits as [? Hhi]; unfold channel_stack_bytes in Hhi; lia).
  rewrite size_t_small in Hsize by lia.
  eexists _, s', _. split; [exact Hrun|]. split; [exact Hsize|].
  intros i f Hf. eexists. split.
  { apply (channel_stack_at_lookup _ _ _ _ _ Hat).
    by apply channel_elements_of_lookup. }
  cbn [filter channel_data]. split; [done|].
  pose proof (lookup_lt_Some _ _ _ Hf) as Hi.
  assert (0 < sizeof_grpc_channel_element) as Hsz by (destruct Hsane; lia).
  destruct (round_up_bounds sizeof_grpc_channel_stack Hsane) as [Hss _];
    [destruct Hsane; lia|].
  assert (0 ≤ Z.of_nat (length filters) * sizeof_grpc_channel_element) as Hnn
    by nia.
  destruct (round_up_bounds
              (Z.of_nat (length filters) * sizeof_grpc_channel_element) Hsane)
    as [Harr _]; [lia|].
  assert (∀ g : grpc_channel_filter,
            0 ≤ GPR_ROUND_UP_TO_ALIGNMENT_SIZE (sizeof_channel_data g)) as Hpos
    by (intros g; apply round_up_range).
  assert (sizeof_channel_data f ≤
          GPR_ROUND_UP_TO_ALIGNMENT_SIZE (sizeof_channel_data f)) as Hrf.
  { rewrite Forall_forall in Hsizes.
    destruct (round_up_bounds (sizeof_channel_data f) Hsane) as [? _]; [|lia].
    apply Hsizes. by apply list_elem_of_lookup_2 in Hf. }
  pose proof (sum_take_S
                (λ g, GPR_ROUND_UP_TO_ALIGNMENT_SIZE (sizeof_channel_data g))
                filters i f Hf) as HS.
  cbn beta in HS.
  fold (channel_data_total (take (S i) filters)) in HS.
  fold (channel_data_total (take i filters)) in HS.
  pose proof (sum_nonneg
                (λ g, GPR_ROUND_UP_TO_ALIGNMENT_SIZE (sizeof_channel_data g))
                (take i filters) Hpos) as Hti.
  cbn beta in Hti.
  fold (channel_data_total (take i filters)) in Hti.
  unfold grpc_channel_stack_element, CHANNEL_ELEMS_FROM_STACK, channel_header_size.
  rewrite (size_t_small (_ * _)) by lia.
  assert ((Z.of_nat i + 1) * sizeof_grpc_channel_element ≤
          Z.of_nat (length filters) * sizeof_grpc_channel_element) as Hslot
    by (apply Z.mul_le_mono_nonneg_r; lia).
  split; [nia|]. split; [lia|]. split; [lia|]. split.
  - pose proof (sum_take_le
                  (λ g, GPR_ROUND_UP_TO_ALIGNMENT_SIZE (sizeof_channel_data g))
                  filters (S i) Hpos) as Hle.
    cbn beta in Hle.
    fold (channel_data_total (take (S i) filters)) in Hle.
    fold (channel_data_total filters) in Hle.
    unfold channel_header_size in Hh. rewrite (size_t_small (_ * _)) in Hh by lia.
    lia.
  - intros j e' Hij He' Hj.
    destruct (lookup_lt_is_Some_2 filters j Hj) as [f' Hf'].
    pose proof (channel_stack_at_lookup _ _ _ _ _ Hat
                  (channel_elements_of_lookup stack filters j f' Hf')) as Hj'.
    unfold grpc_channel_stack_element, CHANNEL_ELEMS_FROM_STACK in Hj'.
    rewrite Hj' in He'. injection He' as <-. cbn [channel_data].
    pose proof (sum_take_mono
                  (λ g, GPR_ROUND_UP_TO_ALIGNMENT_SIZE (sizeof_channel_data g))
                  filters (S i) j Hpos ltac:(lia)) as Hmono.
    cbn beta in Hmono.
    fold (channel_data_total (take (S i) filters)) in Hmono.
    fold (channel_data_total (take j filters)) in Hmono.
    unfold channel_header_size. rewrite (size_t_small (_ * _)) by lia. lia.
Qed.


Lemma call_stack_fits_of_filters call_stack stack filters :
  call_stack_fits call_stack filters →
  call_stack_fits call_stack (map filter (channel_elements_of stack filters)).
Proof. by rewrite channel_elements_of_filters. Qed.

Lemma call_elements_of_lookup call_stack ces (i : nat) e :
  ces !! i = Some e →
  call_elements_of call_stack ces !! i =
  Some {| call_filter := filter e;
          call_channel_data := channel_data e;
          call_data :=
            call_stack + call_header_size (Z.of_nat (length ces)) +
            call_data_total (map filter (take i ces)) |}.
Proof. intros He. unfold call_elements_of. by rewrite list_lookup_imap, He. Qed.

Lemma call_stack_at_lookup m stack elems (i : nat) e :
  call_stack_at m stack elems → elems !! i = Some e →
  call_elements m !! grpc_call_stack_element stack (Z.of_nat i) = Some e.
Proof. intros [_ Hel]. apply Hel. Qed.

Lemma take_channel_elements_of_filters stack filters i :
  map filter (take i (channel_elements_of stack filters)) = take i filters.
Proof.
  change (map filter (take i (channel_elements_of stack filters)))
    with (filter <$> take i (channel_elements_of stack filters)).
  rewrite fmap_take. f_equal. apply channel_elements_of_filters.
Qed.

(** When a channel stack inside the address space starts at a multiple of
    [GPR_MAX_ALIGNMENT], so do the element array and the [channel_data] of
    every element that [grpc_channel_stack_init] lays out; and when in
    addition a call stack inside the address space, apart from the channel
    stack, starts at such a multiple, so do its element array and the
    [call_data] of every call element that [grpc_call_stack_init] wires. *)
Theorem stack_data_aligned ir d da filters ca nm stack bb s :
  sane_platform →
  channel_stack_fits stack filters →
  (GPR_MAX_ALIGNMENT | stack) →
  ∃ first_error s',
    grpc_channel_stack_init ir d da filters ca nm stack bb s =
      Returned (first_error, s') ∧
    (GPR_MAX_ALIGNMENT | grpc_channel_stack_element stack 0) ∧
    (∀ (i : nat) f, filters !! i = Some f →
       ∃ e,
         channel_elements (mem s') !!
           grpc_channel_stack_element stack (Z.of_nat i) = Some e ∧
         (GPR_MAX_ALIGNMENT | channel_data e)) ∧
    ∀ cir cd cda elem_args,
      call_stack_fits (call_stack elem_args) filters →
      separate (call_stack elem_args) (call_stack_bytes filters)
        stack (channel_stack_bytes filters) →
      (GPR_MAX_ALIGNMENT | call_stack elem_args) →
      ∃ call_error s'',
        grpc_call_stack_init stack cir cd cda elem_args s' =
          Returned (call_error, s'') ∧
        (GPR_MAX_ALIGNMENT |
           grpc_call_stack_element (call_stack elem_args) 0) ∧
        ∀ (i : nat) f, filters !! i = Some f →
          ∃ cl,
            call_elements (mem s'') !!
              grpc_call_stack_element (call_stack elem_args) (Z.of_nat i) =
              Some cl ∧
            (GPR_MAX_ALIGNMENT | call_data cl) ∧
            (GPR_MAX_ALIGNMENT | call_channel_data cl).
Proof.
  intros Hsane Hfits Hstack.
  destruct (grpc_channel_stack_init_stack_at ir d da filters ca nm stack bb s
              Hsane Hfits)
    as (s' & Hrun & _ & _ & _ & Hat).
  assert (∀ i, (GPR_MAX_ALIGNMENT |
                  stack + channel_header_size (Z.of_nat (length filters)) +
                  channel_data_total (take i filters))) as Hdata.
  { intros i. apply Z.divide_add_r; [apply Z.divide_add_r; [done|]|].
    - unfold channel_header_size.
      apply Z.divide_add_r; by apply round_up_aligned.
    - apply sum_aligned. intros f. by apply round_up_aligned. }
  eexists _, s'. split; [exact Hrun|]. split.
  { unfold grpc_channel_stack_element, CHANNEL_ELEMS_FROM_STACK.
    rewrite Z.mul_0_l, Z.add_0_r.
    apply Z.divide_add_r; [done|by apply round_up_aligned]. }
  split.
  { intros i f Hf. eexists. split.
    - apply (channel_stack_at_lookup _ _ _ _ _ Hat).
      by apply channel_elements_of_lookup.
    - apply Hdata. }
  intros cir cd cda elem_args Hcfits _ Hcall.
  destruct (grpc_call_stack_init_spec stack cir cd cda elem_args _ s' Hsane Hat
              (call_stack_fits_of_filters _ stack _ Hcfits))
    as (s'' & Hrun' & _ & _ & _ & _ & _ & Hat' & _).
  eexists _, s''. split; [exact Hrun'|]. split.
  { unfold grpc_call_stack_element, CALL_ELEMS_FROM_STACK.
    rewrite Z.mul_0_l, Z.add_0_r.
    apply Z.divide_add_r; [done|by apply round_up_aligned]. }
  intros i f Hf. eexists. split.
  { apply (call_stack_at_lookup _ _ _ _ _ Hat').
    apply call_elements_of_lookup. by apply channel_elements_of_lookup. }
  cbn [call_data call_channel_data channel_data]. split; [|apply Hdata].
  apply Z.divide_add_r; [apply Z.divide_add_r; [done|]|].
  - unfold call_header_size. apply Z.divide_add_r; by apply round_up_aligned.
  - apply sum_aligned. intros g. by apply round_up_aligned.
Qed.

(** A call stack built on a channel stack fits the [call_stack_size] that
    [grpc_channel_stack_init] stored in the channel stack: the call
    elements lie behind the call stack struct, the [call_data] region of
    each filter lies behind the element array and ends within
    [call_stack_size] bytes of the call stack, and the regions of two
    filters do not overlap.  Both stacks lie inside the address space, and
    the bytes of the call stack are apart from those of the channel
    stack. *)
Theorem call_stack_fits_call_stack_size
    ir d da filters ca nm stack bb cir cd cda elem_args s :
  sane_platform →
  call_sizes_fit filters →
  channel_stack_fits stack filters →
  call_stack_fits (call_stack elem_args) filters →
  separate (call_stack elem_args) (call_stack_bytes filters)
    stack (channel_stack_bytes filters) →
  ∃ first_error s1 stk call_error s2,
    grpc_channel_stack_init ir d da filters ca nm stack bb s =
      Returned (first_error, s1) ∧
    channel_stacks (mem s1) !! stack = Some stk ∧
    grpc_call_stack_init stack cir cd cda elem_args s1 =
      Returned (call_error, s2) ∧
    ∀ (i : nat) f, filters !! i = Some f →
      ∃ cl,
        call_elements (mem s2) !!
          grpc_call_stack_element (call_stack elem_args) (Z.of_nat i) =
          Some cl ∧
        call_filter cl = f ∧
        call_stack elem_args + sizeof_grpc_call_stack ≤
          grpc_call_stack_element (call_stack elem_args) (Z.of_nat i) ∧
        grpc_call_stack_element (call_stack elem_args) (Z.of_nat i) +
          sizeof_grpc_call_element ≤
          call_stack elem_args +
          call_header_size (Z.of_nat (length filters)) ∧
        call_stack elem_args + call_header_size (Z.of_nat (length filters)) ≤
          call_data cl ∧
        call_data cl + sizeof_call_data f ≤
          call_stack elem_args + call_stack_size stk ∧
        ∀ (j : nat) cl',
          (i < j)%nat →
          call_elements (mem s2) !!
            grpc_call_stack_element (call_stack elem_args) (Z.of_nat j) =
            Some cl' →
          (j < length filters)%nat →
          call_data cl + sizeof_call_data f ≤ call_data cl'.
Proof.
  intros Hsane [Hsizes Harray] Hfits Hcfits _.
  destruct (grpc_channel_stack_init_stack_at ir d da filters ca nm stack bb s
              Hsane Hfits)
    as (s1 & Hrun & _ & _ & Hhdr & Hat).
  destruct (grpc_call_stack_init_spec stack cir cd cda elem_args _ s1 Hsane Hat
              (call_stack_fits_of_filters _ stack _ Hcfits))
    as (s2 & Hrun' & _ & _ & _ & _ & _ & Hat' & _).
  pose proof (call_header_size_nonneg (Z.of_nat (length filters))) as Hh.
  pose proof (call_data_total_nonneg filters) as Ht.
  assert (call_header_size (Z.of_nat (length filters)) +
          call_data_total filters < 2 ^ 64) as Hfit
    by (destruct Hcfits as [? Hhi]; unfold call_stack_bytes in Hhi; lia).
  eexists _, s1, _, _, s2. split; [exact Hrun|]. split; [exact Hhdr|].
  split; [exact Hrun'|].
  cbn [call_stack_size channel_stack_header]. rewrite size_t_small by lia.
  assert (∀ (k : nat) g, filters !! k = Some g →
            call_elements (mem s2) !!
              grpc_call_stack_element (call_stack elem_args) (Z.of_nat k) =
            Some {| call_filter := g;
                    call_channel_data :=
                      stack + channel_header_size (Z.of_nat (length filters)) +
                      channel_data_total (take k filters);
                    call_data :=
                      call_stack elem_args +
                      call_header_size (Z.of_nat (length filters)) +
                      call_data_total (take k filters) |}) as Hcl.
  { intros k g Hg.
    rewrite (call_stack_at_lookup _ _ _ _ _ Hat'
               (call_elements_of_lookup _ _ _ _
                  (channel_elements_of_lookup stack filters k g Hg))).
    cbn [filter channel_data].
    by rewrite take_channel_elements_of_filters, channel_elements_of_length. }
  intros i f Hf. eexists. split; [by apply Hcl|].
  cbn [call_filter call_data]. split; [done|].
  pose proof (lookup_lt_Some _ _ _ Hf) as Hi.
  assert (0 < sizeof_grpc_call_element) as Hsz by (destruct Hsane; lia).
  destruct (round_up_bounds sizeof_grpc_call_stack Hsane) as [Hss _];
    [destruct Hsane; lia|].
  assert (0 ≤ Z.of_nat (length filters) * sizeof_grpc_call_element) as Hnn
    by nia.
  destruct (round_up_bounds
              (Z.of_nat (length filters) * sizeof_grpc_call_element) Hsane)
    as [Harr _]; [lia|].
  assert (∀ g : grpc_channel_filter,
            0 ≤ GPR_ROUND_UP_TO_ALIGNMENT_SIZE (sizeof_call_data g)) as Hpos
    by (intros g; apply round_up_range).
  assert (sizeof_call_data f ≤
          GPR_ROUND_UP_TO_ALIGNMENT_SIZE (sizeof_call_data f)) as Hrf.
  { rewrite Forall_forall in Hsizes.
    destruct (round_up_bounds (sizeof_call_data f) Hsane) as [? _]; [|lia].
    apply Hsizes. by apply list_elem_of_lookup_2 in Hf. }
  pose proof (sum_take_S
                (λ g, GPR_ROUND_UP_TO_ALIGNMENT_SIZE (sizeof_call_data g))
                filters i f Hf) as HS.
  cbn beta in HS.
  fold (call_data_total (take (S i) filters)) in HS.
  fold (call_data_total (take i filters)) in HS.
  pose proof (call_data_total_nonneg (take i filters)) as Hti.
  unfold grpc_call_stack_element, CALL_ELEMS_FROM_STACK, call_header_size.
  rewrite (size_t_small (_ * _)) by lia.
  assert ((Z.of_nat i + 1) * sizeof_grpc_call_element ≤
          Z.of_nat (length filters) * sizeof_grpc_call_element) as Hslot
    by (apply Z.mul_le_mono_nonneg_r; lia).
  split; [nia|]. split; [lia|]. split; [lia|]. split.
  - pose proof (sum_take_le
                  (λ g, GPR_ROUND_UP_TO_ALIGNMENT_SIZE (sizeof_call_data g))
                  filters (S i) Hpos) as Hle.
    cbn beta in Hle.
    fold (call_data_total (take (S i) filters)) in Hle.
    fold (call_data_total filters) in Hle.
    unfold call_header_size in Hh. rewrite (size_t_small (_ * _)) in Hh by lia.
    lia.
  - intros j cl' Hij Hcl' Hj.
    destruct (lookup_lt_is_Some_2 filters j Hj) as [f' Hf'].
    pose proof (Hcl j f' Hf') as Hj'.
    unfold grpc_call_stack_element, CALL_ELEMS_FROM_STACK in Hj'.
    rewrite Hj' in Hcl'. injection Hcl' as <-. cbn [call_data].
    pose proof (sum_take_mono
                  (λ g, GPR_ROUND_UP_TO_ALIGNMENT_SIZE (sizeof_call_data g))
                  filters (S i) j Hpos ltac:(lia)) as Hmono.
    cbn beta in Hmono.
    fold (call_data_total (take (S i) filters)) in Hmono.
    fold (call_data_total (take j filters)) in Hmono.
    unfold call_header_size. rewrite (size_t_small (_ * _)) by lia. lia.
Qed.

(** *** The arguments and the result of construction *)

Lemma run_inits_length calls (w : W) :
  length (run_inits calls w).1 = length calls.
Proof.
  revert w. induction calls as [|c calls IH]; intros w; [done|].
  rewrite run_inits_cons. simpl. by rewrite IH.
Qed.

Lemma first_error_of_ok es :
  ok (first_error_of es) = true ↔ Forall (λ e, ok e = true) es.
Proof.
  split.
  - unfold first_error_of. induction es as [|e es IH]; [done|].
    simpl. destruct (ok e) eqn:He; simpl.
    + intros Hrest. constructor; [done|]. by apply IH.
    + by rewrite He.
  - intros Hall. by rewrite first_error_of_all_ok.
Qed.

(** The loop of [grpc_channel_stack_init] tells exactly the filter at
    index 0 that it is first and exactly the filter at the last index that
    it is last, and hands every filter the stack, the channel args and the
    blackboard the function was called with; it makes one call per
    filter. *)
Theorem init_args_first_and_last ir d da filters ca nm stack bb s :
  sane_platform →
  Z.of_nat (length filters) < 2 ^ 64 →
  ∃ first_error user_data call_size s1,
    channel_stack_layout ir d da filters ca nm stack bb s =
      Returned ((first_error, user_data, call_size), s1) ∧
    length (trace s1) = (length (trace s) + length filters)%nat ∧
    ∀ (i : nat) f, filters !! i = Some f →
      ∃ args,
        trace s1 !! (length (trace s) + i)%nat =
          Some (Call_init_channel_elem (name f)
                  (grpc_channel_stack_element stack (Z.of_nat i)) args) ∧
        is_first args = bool_decide (i = 0%nat) ∧
        is_last args = bool_decide (S i = length filters) ∧
        channel_stack args = stack ∧
        channel_args args = ca ∧
        blackboard args = bb.
Proof.
  intros Hsane Hlen.
  assert (sizeof_grpc_channel_element ≠ 0) as Hsz by (destruct Hsane; lia).
  destruct (channel_stack_layout_spec ir d da filters ca nm stack bb s Hsz)
    as (s1 & Hrun & _ & Htr & _).
  eexists _, _, _, s1. split; [exact Hrun|]. rewrite Htr. split.
  { rewrite length_app. unfold channel_init_events. by rewrite length_imap. }
  intros i f Hf. pose proof (lookup_lt_Some _ _ _ Hf) as Hi.
  eexists. split.
  { rewrite lookup_app_r by lia.
    replace (length (trace s) + i - length (trace s))%nat with i by lia.
    unfold channel_init_events. rewrite list_lookup_imap, Hf. reflexivity. }
  cbn [is_first is_last channel_stack channel_args blackboard
       channel_element_args].
  rewrite size_t_small by lia. split; [|split; [|done]].
  - destruct i; [done|]. rewrite bool_decide_eq_false_2 by lia.
    apply Z.eqb_neq. lia.
  - destruct (decide (S i = length filters)) as [Heq|Hne].
    + rewrite bool_decide_eq_true_2 by done. apply Z.eqb_eq. lia.
    + rewrite bool_decide_eq_false_2 by done. apply Z.eqb_neq. lia.
Qed.

(** For a channel stack inside the address space, [grpc_channel_stack_init]
    returns OK exactly when the init entry point of every filter returned
    OK; and for a call stack inside the address space whose bytes are
    apart from the channel stack's, [grpc_call_stack_init] returns OK
    exactly when the call-init of every filter returned OK. *)
Theorem init_ok_iff_all_ok ir d da filters ca nm stack bb s :
  sane_platform →
  channel_stack_fits stack filters →
  ∃ first_error s',
    grpc_channel_stack_init ir d da filters ca nm stack bb s =
      Returned (first_error, s') ∧
    (ok first_error = true ↔
     Forall (λ e, ok e = true)
       (run_inits (channel_init_calls stack ca bb filters) (world s)).1) ∧
    ∀ cir cd cda elem_args,
      call_stack_fits (call_stack elem_args) filters →
      separate (call_stack elem_args) (call_stack_bytes filters)
        stack (channel_stack_bytes filters) →
      ∃ call_error s'',
        grpc_call_stack_init stack cir cd cda elem_args s' =
          Returned (call_error, s'') ∧
        (ok call_error = true ↔
         Forall (λ e, ok e = true)
           (run_inits
              (call_init_calls elem_args (view_call_elements (mem s''))
                 (channel_elements_of stack filters))
              (world s')).1).
Proof.
  intros Hsane Hfits.
  destruct (grpc_channel_stack_init_stack_at ir d da filters ca nm stack bb s
              Hsane Hfits)
    as (s' & Hrun & _ & _ & _ & Hat).
  eexists _, s'. split; [exact Hrun|]. split; [apply first_error_of_ok|].
  intros cir cd cda elem_args Hcfits _.
  destruct (grpc_call_stack_init_spec stack cir cd cda elem_args _ s' Hsane Hat
              (call_stack_fits_of_filters _ stack _ Hcfits))
    as (s'' & Hrun' & _).
  eexists _, s''. split; [exact Hrun'|]. apply first_error_of_ok.
Qed.

(** *** Finding elements *)

(** On a stack that has elements, [grpc_channel_stack_last_element]
    returns the address of the element at index [count - 1], which holds
    the last filter, and changes nothing. *)
Theorem last_element_holds_last_filter stack ces s :
  channel_stack_at (mem s) stack ces →
  ces ≠ [] →
  Z.of_nat (length ces) ≤ 2 ^ 64 →
  ∃ e,
    grpc_channel_stack_last_element stack s =
      Returned
        (grpc_channel_stack_element stack (Z.of_nat (length ces) - 1), s) ∧
    last ces = Some e ∧
    channel_elements (mem s) !!
      grpc_channel_stack_element stack (Z.of_nat (length ces) - 1) = Some e.
Proof.
  intros [(stk & Hstk & Hcount) Hces] Hne Hlen.
  destruct (last ces) as [e|] eqn:Hlast;
    [|by apply last_None in Hlast].
  assert (0 < length ces)%nat as Hpos by (destruct ces; [done|simpl; lia]).
  exists e. split; [|split; [done|]].
  - unfold grpc_channel_stack_last_element, mbind, M_bind, bind,
      load_channel_stack. rewrite Hstk, Hcount.
    by rewrite size_t_small by lia.
  - rewrite last_lookup in Hlast.
    replace (Z.of_nat (length ces) - 1) with (Z.of_nat (Nat.pred (length ces)))
      by lia.
    by apply Hces.
Qed.

Lemma filter_instance_number_loop_spec filter_address stack elem e s
    (rest : list grpc_channel_element) :
  sizeof_grpc_channel_element ≠ 0 →
  channel_elements (mem s) !! elem = Some e →
  ∀ (k : nat) (target : nat) acc,
    elem = grpc_channel_stack_element stack (Z.of_nat target) →
    (∀ (j : nat) e', rest !! j = Some e' →
       channel_elements (mem s) !!
         grpc_channel_stack_element stack (Z.of_nat (k + j)) = Some e') →
    (k ≤ target)%nat →
    0 ≤ acc → acc + Z.of_nat (length rest) < 2 ^ 64 →
    filter_instance_number_loop filter_address stack elem (length rest)
      (Z.of_nat k) acc s =
    Returned
      (acc + earlier_instances filter_address rest (target - k) (filter e), s).
Proof.
  intros Hsz He. induction rest as [|x rest IH];
    intros k target acc Helem Hrest Hk Hacc Hfit.
  - simpl. unfold earlier_instances. rewrite take_nil. simpl.
    by rewrite Z.add_0_r.
  - cbn [length filter_instance_number_loop].
    destruct (decide (k = target)) as [->|Hne].
    + rewrite Helem, Z.eqb_refl, Nat.sub_diag. unfold earlier_instances.
      simpl. by rewrite Z.add_0_r.
    + replace (grpc_channel_stack_element stack (Z.of_nat k) =? elem)
        with false.
      2:{ symmetry. apply Z.eqb_neq. rewrite Helem.
          unfold grpc_channel_stack_element. intros Heq.
          apply slot_address_inj in Heq; [lia|done]. }
      unfold mbind, M_bind, bind at 1. unfold load_channel_element at 1.
      pose proof (Hrest 0%nat x eq_refl) as Hx. rewrite Nat.add_0_r in Hx.
      rewrite Hx. unfold bind at 1. unfold load_channel_element at 1.
      rewrite He. replace (Z.of_nat k + 1) with (Z.of_nat (S k)) by lia.
      cbn [length] in Hfit.
      replace (target - k)%nat with (S (target - S k)) by lia.
      unfold earlier_instances. cbn [take List.filter].
      destruct (filter_address (filter x) =? filter_address (filter e)).
      * rewrite size_t_small by lia.
        rewrite (IH (S k) target (acc + 1)); [|done| |lia|lia|lia].
        -- unfold earlier_instances. cbn [length]. do 2 f_equal. lia.
        -- intros j e' Hj. replace (S k + j)%nat with (k + S j)%nat by lia.
           by apply Hrest.
      * rewrite (IH (S k) target acc); [done|done| |lia|lia|lia].
        intros j e' Hj. replace (S k + j)%nat with (k + S j)%nat by lia.
        by apply Hrest.
Qed.

Lemma filter_instance_number_at filter_address stack ces (k : nat) e s :
  sizeof_grpc_channel_element ≠ 0 →
  channel_stack_at (mem s) stack ces →
  ces !! k = Some e →
  Z.of_nat (length ces) < 2 ^ 64 →
  grpc_channel_stack_filter_instance_number filter_address stack
    (grpc_channel_stack_element stack (Z.of_nat k)) s =
  Returned (earlier_instances filter_address ces k (filter e), s).
Proof.
  intros Hsz [(stk & Hstk & Hcount) Hces] Hk Hlen.
  unfold grpc_channel_stack_filter_instance_number, mbind, M_bind, bind,
    load_channel_stack. rewrite Hstk, Hcount, Nat2Z.id.
  change 0 with (Z.of_nat 0) at 1.
  rewrite (filter_instance_number_loop_spec filter_address stack _ e s ces
             Hsz (Hces k e Hk) 0%nat k 0 eq_refl);
    [|intros n e' Hn; by apply Hces|lia|lia|lia].
  by rewrite Z.add_0_l, Nat.sub_0_r.
Qed.

(** Called on the element at index [i] of a stack,
    [grpc_channel_stack_filter_instance_number] returns how many of the
    elements before index [i] have that element's filter, and changes
    nothing; so the first element with a filter gets 0. *)
Theorem filter_instance_number_counts_earlier
    filter_address stack ces (i : nat) e s :
  sane_platform →
  channel_stack_at (mem s) stack ces →
  ces !! i = Some e →
  Z.of_nat (length ces) < 2 ^ 64 →
  grpc_channel_stack_filter_instance_number filter_address stack
    (grpc_channel_stack_element stack (Z.of_nat i)) s =
    Returned (earlier_instances filter_address ces i (filter e), s) ∧
  (Forall (λ e', filter_address (filter e') ≠ filter_address (filter e))
      (take i ces) →
   earlier_instances filter_address ces i (filter e) = 0).
Proof.
  intros Hsane Hat Hi Hlen.
  assert (sizeof_grpc_channel_element ≠ 0) as Hsz by (destruct Hsane; lia).
  split; [by apply filter_instance_number_at|].
  unfold earlier_instances. induction 1 as [|x l Hx _ IH]; [done|].
    cbn [List.filter]. apply Z.eqb_neq in Hx. by rewrite Hx.
Qed.

Lemma earlier_instances_step filter_address ces (i j : nat) e :
  (i < j)%nat → ces !! i = Some e →
  earlier_instances filter_address ces i (filter e) <
  earlier_instances filter_address ces j (filter e).
Proof.
  intros Hij Hi. unfold earlier_instances.
  assert (take j ces = take i ces ++ e :: take (j - S i) (drop (S i) ces))
    as ->.
  { rewrite <- (take_drop_middle ces i e Hi) at 1.
    rewrite take_app_ge; rewrite length_take_le;
      try (apply lookup_lt_Some in Hi; lia).
    f_equal. replace (j - i)%nat with (S (j - S i)) by lia. done. }
  rewrite List.filter_app, length_app. cbn [List.filter].
  rewrite Z.eqb_refl. cbn [length]. lia.
Qed.

(** Two elements of a stack that have the same filter get different
    instance numbers from [grpc_channel_stack_filter_instance_number]:
    the later one gets the larger number. *)
Theorem filter_instance_numbers_increase
    filter_address stack ces (i j : nat) ei ej s :
  sane_platform →
  channel_stack_at (mem s) stack ces →
  ces !! i = Some ei → ces !! j = Some ej →
  filter_address (filter ei) = filter_address (filter ej) →
  (i < j)%nat →
  Z.of_nat (length ces) < 2 ^ 64 →
  ∃ ni nj,
    grpc_channel_stack_filter_instance_number filter_address stack
      (grpc_channel_stack_element stack (Z.of_nat i)) s = Returned (ni, s) ∧
    grpc_channel_stack_filter_instance_number filter_address stack
      (grpc_channel_stack_element stack (Z.of_nat j)) s = Returned (nj, s) ∧
    0 ≤ ni < nj.
Proof.
  intros Hsane Hat Hi Hj Hsame Hij Hlen.
  assert (sizeof_grpc_channel_element ≠ 0) as Hsz by (destruct Hsane; lia).
  eexists _, _.
  split; [by apply (filter_instance_number_at _ _ ces)|].
  split; [by apply (filter_instance_number_at _ _ ces)|].
  split; [unfold earlier_instances; lia|].
  pose proof (earlier_instances_step filter_address ces i j ei Hij Hi) as Hlt.
  unfold earlier_instances in *. by rewrite <- Hsame.
Qed.


(** *** The polling entity *)

Lemma set_pollset_loop_spec elems pollent (cels : list grpc_call_element) :
  ∀ i s,
    (∀ (j : nat) e, cels !! j = Some e →
       call_elements (mem s) !!
         (elems + (i + Z.of_nat j) * sizeof_grpc_call_element) = Some e) →
    for_loop (length cels) i (set_pollset_at elems pollent) tt s =
      Returned
        (tt,
         {| mem := mem s;
            world :=
              run_all
                (imap (λ j e, set_pollset_or_pollset_set (call_filter e)
                                (elems + (i + Z.of_nat j) *
                                         sizeof_grpc_call_element) pollent)
                      cels)
                (world s);
            trace :=
              trace s ++
              imap (λ j e, Call_set_pollset_or_pollset_set
                             (name (call_filter e))
                             (elems + (i + Z.of_nat j) *
                                      sizeof_grpc_call_element) pollent)
                   cels |}).
Proof.
  induction cels as [|ce rest IH]; intros i s Hcels.
  - simpl. rewrite app_nil_r. by destruct s.
  - rewrite !imap_cons. cbn [length for_loop].
    unfold mbind, M_bind, bind at 1.
    unfold set_pollset_at at 1. unfold mbind, M_bind, bind at 1.
    unfold load_call_element at 1.
    pose proof (Hcels 0%nat ce eq_refl) as H0. rewrite Z.add_0_r in H0.
    rewrite H0. unfold bind at 1, emit at 1. unfold run_, run.
    cbn [mem world trace fst snd].
    assert (Haddr : ∀ j : nat, i + 1 + Z.of_nat j = i + Z.of_nat (S j)) by lia.
    erewrite (imap_ext _ (λ j e, set_pollset_or_pollset_set (call_filter e)
                (elems + (i + 1 + Z.of_nat j) * sizeof_grpc_call_element)
                pollent) rest);
      [|intros; simpl; by rewrite Haddr].
    erewrite (imap_ext _ (λ j e, Call_set_pollset_or_pollset_set
                (name (call_filter e))
                (elems + (i + 1 + Z.of_nat j) * sizeof_grpc_call_element)
                pollent) rest);
      [|intros; simpl; by rewrite Haddr].
    rewrite IH by (intros j e Hj; cbn; rewrite Haddr; by apply Hcels).
    cbn [mem world trace run_all]. rewrite !Z.add_0_r. by rewrite <- app_assoc.
Qed.

Lemma run_all_ignore (calls : list (W → W)) (w : W) :
  Forall (λ c, ∀ w', c w' = w') calls → run_all calls w = w.
Proof.
  intros Hall. revert w. induction Hall as [|c calls Hc _ IH]; intros w; [done|].
  simpl. by rewrite Hc.
Qed.

(** [grpc_call_stack_set_pollset_or_pollset_set] hands the polling entity
    to every element of the call stack once, in index order, and writes
    nothing to the stack; when every filter of the stack uses
    [grpc_call_stack_ignore_set_pollset_or_pollset_set], the call changes
    nothing but the record of calls. *)
Theorem set_pollset_reaches_every_element stack pollent cels s :
  call_stack_at (mem s) stack cels →
  ∃ s',
    grpc_call_stack_set_pollset_or_pollset_set stack pollent s =
      Returned (tt, s') ∧
    mem s' = mem s ∧
    trace s' = trace s ++ set_pollset_events stack pollent cels ∧
    world s' = run_all (set_pollset_calls stack pollent cels) (world s) ∧
    (Forall (λ e, set_pollset_or_pollset_set (call_filter e) =
                  grpc_call_stack_ignore_set_pollset_or_pollset_set) cels →
     world s' = world s).
Proof.
  intros [(stk & Hstk & Hcount) Hcels].
  unfold grpc_call_stack_set_pollset_or_pollset_set, mbind, M_bind, bind,
    load_call_stack. rewrite Hstk, Hcount, Nat2Z.id.
  rewrite set_pollset_loop_spec
    by (intros j e Hj; rewrite Z.add_0_l; by apply Hcels).
  eexists. split; [reflexivity|]. cbn [mem world trace].
  split; [done|]. split; [done|]. split; [done|].
  intros Hignore. apply run_all_ignore.
  apply Forall_forall. intros c Hc.
  apply list_elem_of_lookup_1 in Hc as [j Hj].
  rewrite list_lookup_imap in Hj.
  destruct (cels !! j) as [e|] eqn:He; [|done]. injection Hj as <-.
  rewrite Forall_forall in Hignore.
  rewrite (Hignore e) by (by eapply list_elem_of_lookup_2). done.
Qed.

(** *** Addresses of elements *)

(** Different indices give different element addresses, and the
    [from_top_element] functions give back the stack for the element at
    index 0 only. *)
Theorem from_top_element_only_for_top stack i j :
  sane_platform →
  (grpc_channel_stack_element stack i = grpc_channel_stack_element stack j ↔
   i = j) ∧
  (grpc_call_stack_element stack i = grpc_call_stack_element stack j ↔
   i = j) ∧
  (grpc_channel_stack_from_top_element (grpc_channel_stack_element stack i) =
     stack ↔ i = 0) ∧
  (grpc_call_stack_from_top_element (grpc_call_stack_element stack i) =
     stack ↔ i = 0).
Proof.
  intros Hsane.
  assert (sizeof_grpc_channel_element ≠ 0) as Hsz by (destruct Hsane; lia).
  assert (sizeof_grpc_call_element ≠ 0) as Hsz' by (destruct Hsane; lia).
  unfold grpc_channel_stack_from_top_element, grpc_call_stack_from_top_element,
    grpc_channel_stack_element, grpc_call_stack_element,
    CHANNEL_ELEMS_FROM_STACK, CALL_ELEMS_FROM_STACK.
  split; [|split; [|split]].
  - split; [|by intros ->]. intros Heq. by apply slot_address_inj in Heq.
  - split; [|by intros ->]. intros Heq. by apply slot_address_inj in Heq.
  - split; [|intros ->; lia]. intros Heq.
    assert (i * sizeof_grpc_channel_element = 0) as Hz by lia.
    apply Z.mul_eq_0 in Hz. lia.
  - split; [|intros ->; lia]. intros Heq.
    assert (i * sizeof_grpc_call_element = 0) as Hz by lia.
    apply Z.mul_eq_0 in Hz. lia.
Qed.


(** *** From construction to destruction *)

Lemma grpc_channel_stack_destroy_spec stack ces stk s :
  channel_stack_at (mem s) stack ces →
  channel_stacks (mem s) !! stack = Some stk →
  grpc_channel_stack_destroy stack s =
  match on_destroy stk with
  | Some f =>
      Returned
        (tt,
         {| mem :=
              {| channel_stacks :=
                   <[stack := {| refcount := refcount stk;
                                 count := count stk;
                                 call_stack_size := call_stack_size stk;
                                 on_destroy := None;
                                 event_engine := None;
                                 stats_plugin_group := None;
                                 channelz_data_source := None |}]>
                     (channel_stacks (mem s));
                 channel_elements := channel_elements (mem s);
                 call_stacks := call_stacks (mem s);
                 call_elements := call_elements (mem s) |};
            world := f (run_all (channel_destroy_calls stack ces) (world s));
            trace :=
              trace s ++ [Destroy_channelz_data_source] ++
              channel_destroy_events stack ces ++
              [Call_on_destroy; Destroy_on_destroy; Destroy_event_engine;
               Destroy_stats_plugin_group] |})
  | None => UndefinedBehavior
  end.
Proof.
  intros [(stk' & Hstk' & Hcount) Hces] Hstk.
  rewrite Hstk in Hstk'. injection Hstk' as <-.
  unfold grpc_channel_stack_destroy. unfold mbind, M_bind, bind at 1.
  unfold load_channel_stack. rewrite Hstk, Hcount, Nat2Z.id.
  unfold bind at 1, emit at 1. unfold bind at 1.
  rewrite channel_destroy_loop_spec
    by (intros j e Hj; rewrite Z.add_0_l; by apply Hces).
  destruct (on_destroy stk) as [f|]; [|done].
  unfold bind, emit, run_, run, store_channel_stack, update_mem.
  cbn [mem world trace fst snd].
  unfold channel_destroy_events, channel_destroy_calls,
    grpc_channel_stack_element.
  do 3 f_equal. by rewrite <- !app_assoc.
Qed.

Lemma grpc_call_stack_destroy_spec stack final_info closure cels s :
  call_stack_at (mem s) stack cels →
  Z.of_nat (length cels) < 2 ^ 64 →
  grpc_call_stack_destroy stack final_info closure s =
  Returned
    (tt,
     {| mem := mem s;
        world :=
          run_all (call_destroy_calls stack final_info closure cels) (world s);
        trace :=
          trace s ++ call_destroy_events stack final_info closure cels |}).
Proof.
  intros [(stk & Hstk & Hcount) Hcels] Hlen.
  unfold grpc_call_stack_destroy. unfold mbind, M_bind, bind at 1.
  unfold load_call_stack. rewrite Hstk, Hcount, Nat2Z.id.
  rewrite call_destroy_loop_spec
    by (intros j e Hj; rewrite Z.add_0_l; by apply Hcels).
  assert (∀ (j : nat) (e : grpc_call_element), cels !! j = Some e →
            (if 0 + Z.of_nat j =? size_t (Z.of_nat (length cels) - 1)
             then closure else nullptr) =
            closure_for (length cels) j closure) as Hclosure.
  { intros j e Hj. apply lookup_lt_Some in Hj.
    rewrite size_t_small by lia. unfold closure_for.
    destruct (decide (S j = length cels)) as [Heq|Hne].
    - replace (0 + Z.of_nat j =? _) with true; [done|].
      symmetry. apply Z.eqb_eq. lia.
    - replace (0 + Z.of_nat j =? _) with false; [done|].
      symmetry. apply Z.eqb_neq. lia. }
  unfold call_destroy_events, call_destroy_calls, grpc_call_stack_element.
  do 3 f_equal.
  - f_equal. apply imap_ext. intros j e Hj. simpl.
    by rewrite (Hclosure j e Hj).
  - f_equal. apply imap_ext. intros j e Hj. simpl.
    by rewrite (Hclosure j e Hj).
Qed.

(** A channel stack that [grpc_channel_stack_init] built inside the address
    space can be destroyed
    whatever the filters' inits returned: [grpc_channel_stack_destroy]
    then calls the channel-destroy of every filter that was initialised,
    in the same order, its [on_destroy] is the empty callback, and the
    members of the header end up destroyed while the count and the
    elements stay; destroying the stack a second time is undefined. *)
Theorem channel_stack_init_then_destroy ir d da filters ca nm stack bb s :
  sane_platform →
  channel_stack_fits stack filters →
  ∃ first_error s1 s2 stk,
    grpc_channel_stack_init ir d da filters ca nm stack bb s =
      Returned (first_error, s1) ∧
    grpc_channel_stack_destroy stack s1 = Returned (tt, s2) ∧
    trace s2 =
      trace s ++ channel_init_events stack ca bb filters ++
      [Destroy_channelz_data_source] ++
      channel_destroy_events stack (channel_elements_of stack filters) ++
      [Call_on_destroy; Destroy_on_destroy; Destroy_event_engine;
       Destroy_stats_plugin_group] ∧
    map (λ ev, match ev with
               | Call_destroy_channel_elem nm' _ => nm'
               | _ => ""
               end)
        (channel_destroy_events stack (channel_elements_of stack filters)) =
      map name filters ∧
    world s2 =
      run_all
        (channel_destroy_calls stack (channel_elements_of stack filters))
        (run_inits (channel_init_calls stack ca bb filters) (world s)).2 ∧
    channel_stacks (mem s2) !! stack = Some stk ∧
    count stk = Z.of_nat (length filters) ∧
    on_destroy stk = None ∧ event_engine stk = None ∧
    stats_plugin_group stk = None ∧ channelz_data_source stk = None ∧
    channel_elements (mem s2) = channel_elements (mem s1) ∧
    grpc_channel_stack_destroy stack s2 = UndefinedBehavior.
Proof.
  intros Hsane Hfits.
  destruct (grpc_channel_stack_init_stack_at ir d da filters ca nm stack bb s
              Hsane Hfits)
    as (s1 & Hrun & Hw & Htr & Hhdr & Hat).
  pose proof (grpc_channel_stack_destroy_spec stack _ _ s1 Hat Hhdr) as Hd.
  cbn [on_destroy channel_stack_header] in Hd.
  eexists _, s1, _, _. split; [exact Hrun|]. split; [exact Hd|].
  cbn [mem world trace channel_stacks channel_elements].
  rewrite Htr, Hw, <- !app_assoc. split; [done|]. split.
  { unfold channel_destroy_events, channel_elements_of.
    rewrite imap_imap. apply list_eq. intros i.
    rewrite !list_lookup_fmap, list_lookup_imap.
    by destruct (filters !! i). }
  split; [done|]. split; [apply lookup_insert_eq|].
  cbn [count on_destroy event_engine stats_plugin_group channelz_data_source
       refcount call_stack_size channel_stack_header].
  do 6 (split; [done|]).
  match goal with
  | |- grpc_channel_stack_destroy stack ?s2 = _ =>
      assert (channel_stack_at (mem s2) stack
                (channel_elements_of stack filters)) as Hat2
  end.
  { destruct Hat as [_ Hel]. split; [|exact Hel].
    eexists. cbn [mem channel_stacks]. rewrite lookup_insert_eq.
    split; [done|]. cbn [count channel_stack_header].
    by rewrite channel_elements_of_length. }
  rewrite (grpc_channel_stack_destroy_spec stack _ _ _ Hat2
             (lookup_insert_eq _ _ _)).
  done.
Qed.

(** A call stack built on a channel stack can be destroyed whatever the
    filters' call-inits returned: [grpc_call_stack_destroy] then calls the
    call-destroy of every filter, in the order of the inits, handing
    [then_schedule_closure] to the last filter only, and the filters'
    state is what the destroys make of what the inits left.  Both stacks
    lie inside the address space, the bytes of the call stack apart from
    those of the channel stack. *)
Theorem call_stack_init_then_destroy
    ir d da filters ca nm stack bb cir cd cda elem_args final_info closure s :
  sane_platform →
  Z.of_nat (length filters) < 2 ^ 64 →
  channel_stack_fits stack filters →
  call_stack_fits (call_stack elem_args) filters →
  separate (call_stack elem_args) (call_stack_bytes filters)
    stack (channel_stack_bytes filters) →
  ∃ first_error s1 call_error s2 s3,
    grpc_channel_stack_init ir d da filters ca nm stack bb s =
      Returned (first_error, s1) ∧
    grpc_call_stack_init stack cir cd cda elem_args s1 =
      Returned (call_error, s2) ∧
    grpc_call_stack_destroy (call_stack elem_args) final_info closure s2 =
      Returned (tt, s3) ∧
    (∃ inits destroys,
       trace s3 = trace s1 ++ inits ++ destroys ∧
       length inits = length filters ∧ length destroys = length filters ∧
       ∀ (i : nat) f, filters !! i = Some f →
         inits !! i =
           Some (Call_init_call_elem (name f)
                   (grpc_call_stack_element (call_stack elem_args) (Z.of_nat i))
                   elem_args) ∧
         destroys !! i =
           Some (Call_destroy_call_elem (name f)
                   (grpc_call_stack_element (call_stack elem_args) (Z.of_nat i))
                   final_info
                   (if decide (S i = length filters) then closure
                    else nullptr))) ∧
    world s2 =
      (run_inits
         (call_init_calls elem_args (view_call_elements (mem s2))
            (channel_elements_of stack filters))
         (world s1)).2 ∧
    world s3 =
      run_all
        (imap (λ i f,
                 destroy_call_elem f
                   (grpc_call_stack_element (call_stack elem_args) (Z.of_nat i))
                   final_info
                   (if decide (S i = length filters) then closure
                    else nullptr))
              filters)
        (world s2).
Proof.
  intros Hsane Hlen Hfits Hcfits _.
  destruct (grpc_channel_stack_init_stack_at ir d da filters ca nm stack bb s
              Hsane Hfits)
    as (s1 & Hrun & _ & _ & _ & Hat).
  destruct (grpc_call_stack_init_spec stack cir cd cda elem_args _ s1 Hsane Hat
              (call_stack_fits_of_filters _ stack _ Hcfits))
    as (s2 & Hrun' & Hw2 & Htr & _ & _ & _ & Hat' & _).
  pose proof (grpc_call_stack_destroy_spec (call_stack elem_args) final_info
                closure _ s2 Hat') as Hd.
  unfold call_elements_of in Hd at 1. rewrite length_imap in Hd.
  rewrite channel_elements_of_length in Hd. specialize (Hd Hlen).
  eexists _, s1, _, s2, _. split; [exact Hrun|]. split; [exact Hrun'|].
  split; [exact Hd|]. cbn [mem world trace]. split.
  { eexists _, _. rewrite Htr, <- app_assoc. split; [reflexivity|].
    unfold call_init_events, call_destroy_events, call_elements_of,
      channel_elements_of.
    rewrite !length_imap. split; [done|]. split; [done|].
    intros i f Hf. rewrite !imap_imap, !list_lookup_imap, Hf.
    cbn [filter call_filter]. done. }
  split; [exact Hw2|].
  f_equal. unfold call_destroy_calls, call_elements_of, channel_elements_of.
  rewrite !imap_imap, !length_imap. done.
Qed.

Lemma call_slots_apart cs1 cs2 (n : nat) bytes (i j : nat) :
  sane_platform →
  Z.of_nat n * sizeof_grpc_call_element ≤ 2 ^ 64 - GPR_MAX_ALIGNMENT →
  call_header_size (Z.of_nat n) ≤ bytes →
  separate cs1 bytes cs2 bytes →
  (i < n)%nat → (j < n)%nat →
  grpc_call_stack_element cs1 (Z.of_nat i) ≠
  grpc_call_stack_element cs2 (Z.of_nat j).
Proof.
  intros Hsane Harray Hbytes Hsep Hi Hj.
  assert (0 < sizeof_grpc_call_element) as Hsz by (destruct Hsane; lia).
  pose proof (round_up_range sizeof_grpc_call_stack) as Hss.
  assert (0 ≤ Z.of_nat n * sizeof_grpc_call_element) as Hnn by nia.
  destruct (round_up_bounds (Z.of_nat n * sizeof_grpc_call_element) Hsane)
    as [Harr _]; [lia|].
  unfold call_header_size in Hbytes.
  rewrite (size_t_small (_ * _)) in Hbytes by lia.
  unfold grpc_call_stack_element, CALL_ELEMS_FROM_STACK.
  assert ((Z.of_nat i + 1) * sizeof_grpc_call_element ≤
          Z.of_nat n * sizeof_grpc_call_element) as Hsi
    by (apply Z.mul_le_mono_nonneg_r; lia).
  assert ((Z.of_nat j + 1) * sizeof_grpc_call_element ≤
          Z.of_nat n * sizeof_grpc_call_element) as Hsj
    by (apply Z.mul_le_mono_nonneg_r; lia).
  assert (0 ≤ Z.of_nat i * sizeof_grpc_call_element) by nia.
  assert (0 ≤ Z.of_nat j * sizeof_grpc_call_element) by nia.
  destruct Hsep as [Hsep|Hsep]; lia.
Qed.

(** Two call stacks built on the same channel stack coexist when their
    byte ranges are apart from each other and from the channel stack's
    and lie inside the address space: building the second leaves the
    first as it was, the elements of both at the same index point at the
    same [channel_data] of the channel stack, and have their [call_data]
    at the same offset from their own stack. *)
Theorem call_stacks_share_channel_data cstack ces ir d da args1 args2 s :
  sane_platform →
  channel_stack_at (mem s) cstack ces →
  call_sizes_fit (map filter ces) →
  call_stack_fits (call_stack args1) (map filter ces) →
  call_stack_fits (call_stack args2) (map filter ces) →
  separate (call_stack args1) (call_stack_bytes (map filter ces))
    (call_stack args2) (call_stack_bytes (map filter ces)) →
  separate (call_stack args1) (call_stack_bytes (map filter ces))
    cstack (channel_stack_bytes (map filter ces)) →
  separate (call_stack args2) (call_stack_bytes (map filter ces))
    cstack (channel_stack_bytes (map filter ces)) →
  ∃ e1 s1 e2 s2,
    grpc_call_stack_init cstack ir d da args1 s = Returned (e1, s1) ∧
    grpc_call_stack_init cstack ir d da args2 s1 = Returned (e2, s2) ∧
    call_stack_at (mem s2) (call_stack args1)
      (call_elements_of (call_stack args1) ces) ∧
    call_stack_at (mem s2) (call_stack args2)
      (call_elements_of (call_stack args2) ces) ∧
    ∀ (i : nat) ce, ces !! i = Some ce →
      ∃ c1 c2,
        call_elements (mem s2) !!
          grpc_call_stack_element (call_stack args1) (Z.of_nat i) = Some c1 ∧
        call_elements (mem s2) !!
          grpc_call_stack_element (call_stack args2) (Z.of_nat i) = Some c2 ∧
        call_channel_data c1 = channel_data ce ∧
        call_channel_data c2 = channel_data ce ∧
        call_filter c1 = call_filter c2 ∧
        call_data c1 - call_stack args1 = call_data c2 - call_stack args2.
Proof.
  intros Hsane Hat [_ Harray] Hfits1 Hfits2 Hsep _ _.
  rewrite length_map in Harray.
  assert (call_header_size (Z.of_nat (length ces)) ≤
          call_stack_bytes (map filter ces)) as Hbytes.
  { unfold call_stack_bytes. rewrite length_map.
    pose proof (call_data_total_nonneg (map filter ces)). lia. }
  assert (0 < call_stack_bytes (map filter ces)) as Hpos.
  { assert (0 < call_header_size (Z.of_nat (length ces))); [|lia].
    unfold call_header_size.
    pose proof (round_up_range
                  (size_t (Z.of_nat (length ces) * sizeof_grpc_call_element))).
    destruct (round_up_bounds sizeof_grpc_call_stack Hsane) as [? _];
      destruct Hsane; lia. }
  assert (call_stack args1 ≠ call_stack args2) as Hne
    by (destruct Hsep; lia).
  pose proof (λ i j, call_slots_apart (call_stack args1) (call_stack args2)
                       (length ces) _ i j Hsane Harray Hbytes Hsep) as Hslots.
  destruct (grpc_call_stack_init_spec cstack ir d da args1 ces s Hsane Hat
              Hfits1)
    as (s1 & Hrun1 & _ & _ & Hcs1 & Hce1 & Hks1 & Hat1 & _).
  assert (channel_stack_at (mem s1) cstack ces) as Hat'.
  { destruct Hat as [(stk & Hstk & Hcount) Hel]. split.
    - exists stk. by rewrite Hcs1.
    - intros i e Hi. rewrite Hce1. by apply Hel. }
  destruct (grpc_call_stack_init_spec cstack ir d da args2 ces s1 Hsane Hat'
              Hfits2)
    as (s2 & Hrun2 & _ & _ & _ & _ & Hks2 & Hat2 & Hframe).
  assert (call_stack_at (mem s2) (call_stack args1)
            (call_elements_of (call_stack args1) ces)) as Hat1'.
  { destruct Hat1 as [(stk & Hstk & Hcount) Hel]. split.
    - exists stk. rewrite Hks2, lookup_insert_ne by done. done.
    - intros i e Hi. rewrite Hframe; [by apply Hel|].
      intros j Hj. apply lookup_lt_Some in Hi.
      unfold call_elements_of in Hi. rewrite length_imap in Hi.
      by apply Hslots. }
  eexists _, s1, _, s2. do 4 (split; [done|]).
  intros i ce Hi. eexists _, _.
  split; [apply (call_stack_at_lookup _ _ _ _ _ Hat1');
          by apply call_elements_of_lookup|].
  split; [apply (call_stack_at_lookup _ _ _ _ _ Hat2);
          by apply call_elements_of_lookup|].
  cbn [call_channel_data call_filter call_data]. do 3 (split; [done|]). lia.
Qed.

End Properties.



(** *** The properties on the concrete pipeline *)

Lemma linux_x86_64_sane : @sane_platform linux_x86_64.
Proof. split; [exists 4|..]; cbn; lia. Defined.

Lemma example_channel_stack_at :
  channel_stack_at (H := linux_x86_64) (mem example_channel_state) 4096
    (channel_elements_of (H := linux_x86_64) 4096 example_filters).
Proof.
  split.
  - exists (channel_stack_header (H := linux_x86_64) 1 0 0 example_filters
              example_args "example").
    split; vm_compute; reflexivity.
  - intros [|[|[|i]]] e He; vm_compute in He; try discriminate;
      injection He as <-; vm_compute; reflexivity.
Defined.

Lemma example_call_stack_at :
  call_stack_at (H := linux_x86_64) (mem example_call_state) 8192
    (call_elements_of (H := linux_x86_64) 8192
       (channel_elements_of (H := linux_x86_64) 4096 example_filters)).
Proof.
  split.
  - exists {| call_refcount := {| refs := 1; destroy := 0; destroy_arg := 0;
                                 object_type := "CALL_STACK" |};
              call_count := 3 |}.
    split; vm_compute; reflexivity.
  - intros [|[|[|i]]] e He; vm_compute in He; try discriminate;
      injection He as <-; vm_compute; reflexivity.
Defined.

Lemma example_stacks_fit :
  channel_stack_fits (H := linux_x86_64) 4096 example_filters ∧
  call_stack_fits (H := linux_x86_64) 8192 example_filters ∧
  separate 8192 (call_stack_bytes (H := linux_x86_64) example_filters)
    4096 (channel_stack_bytes (H := linux_x86_64) example_filters).
Proof.
  split; [split; [lia|vm_compute; reflexivity]|].
  split; [split; [lia|vm_compute; reflexivity]|].
  right. vm_compute. discriminate.
Defined.

Lemma example_peeking_stack_at :
  channel_stack_at (H := linux_x86_64) (mem example_peeking_state) 4096
    (channel_elements_of (H := linux_x86_64) 4096 example_peeking_filters).
Proof.
  split.
  - exists (channel_stack_header (H := linux_x86_64) 1 0 0
              example_peeking_filters example_args "peeking").
    split; vm_compute; reflexivity.
  - intros [|[|[|i]]] e He; vm_compute in He; try discriminate;
      injection He as <-; vm_compute; reflexivity.
Defined.

Lemma channel_stack_size_exact_witness :
  @sane_platform linux_x86_64 ∧
  grpc_channel_stack_size (H := linux_x86_64) example_filters = Returned 240 ∧
  (∃ first_error s',
     grpc_channel_stack_init (H := linux_x86_64) 1 0 0 example_filters
       example_args "example" 4096 0 empty_state =
       Returned (first_error, s')) ∧
  grpc_channel_stack_init (H := linux_x86_64) 1 0 0 example_huge_filters
    example_args "huge" 4096 0 empty_state =
    CheckFailed "user_data > (char*)stack" ∧
  channel_stack_checks (H := linux_x86_64) example_filters 4096 (4096 + 256)
    empty_state =
    CheckFailed
      "(uintptr_t)(user_data - (char*)stack) == grpc_channel_stack_size(filters, filter_count)".
Proof.
  split; [exact linux_x86_64_sane|].
  destruct (channel_stack_size_exact (H := linux_x86_64) example_filters
              linux_x86_64_sane) as (_ & Hsize & Hinit).
  split; [apply Hsize; vm_compute; reflexivity|].
  destruct (Hinit 1 0 0 example_args "example" 4096 0 empty_state)
    as (_ & Hfits & _ & _ & Hmismatch & _).
  split.
  { destruct (proj2 (Hfits (proj1 example_stacks_fit)))
      as (first_error & s' & Hrun & _).
    by exists first_error, s'. }
  split.
  - destruct (channel_stack_size_exact (H := linux_x86_64) example_huge_filters
                linux_x86_64_sane) as (_ & _ & Hhuge).
    destruct (Hhuge 1 0 0 example_args "huge" 4096 0 empty_state)
      as (_ & _ & Hwrap & _).
    apply Hwrap. vm_compute. discriminate.
  - apply Hmismatch; [lia|]. vm_compute. discriminate.
Defined.

Lemma init_runs_every_filter_witness :
  @sane_platform linux_x86_64 ∧
  channel_stack_fits (H := linux_x86_64) 4096 example_filters ∧
  ∃ s',
    grpc_channel_stack_init (H := linux_x86_64) 1 0 0 example_filters
      example_args "example" 4096 0 empty_state =
      Returned (ErrorStatus 14 "b: no channel", s') ∧
    world s' =
      ["a.init_channel_elem"; "b.init_channel_elem"; "c.init_channel_elem"].
Proof.
  split; [exact linux_x86_64_sane|].
  split; [exact (proj1 example_stacks_fit)|].
  destruct (proj2 (proj1 (init_runs_every_filter linux_x86_64_sane) 1 0 0
                     example_filters example_args "example" 4096 0 empty_state)
              (proj1 example_stacks_fit))
    as (s' & Hrun & _ & Hw & _).
  exists s'. split; [exact Hrun|exact Hw].
Defined.

Lemma call_stack_init_two_passes_witness :
  @sane_platform linux_x86_64 ∧
  channel_stack_at (H := linux_x86_64) (mem example_peeking_state) 4096
    (channel_elements_of (H := linux_x86_64) 4096 example_peeking_filters) ∧
  ∃ s2,
    grpc_call_stack_init (H := linux_x86_64) 4096 1 0 0 {| call_stack := 8192 |}
      example_peeking_state = Returned (OkStatus, s2) ∧
    world s2 =
      ["b.init_channel_elem"; "c.init_channel_elem";
       "p finds the element wired"; "b.init_call_elem"; "c.init_call_elem"] ∧
    ∃ ce cl,
      channel_elements (mem s2) !! 4224 = Some ce ∧
      call_elements (mem s2) !! 8248 = Some cl ∧
      call_channel_data cl = channel_data ce ∧
      call_data cl = 8320.
Proof.
  split; [exact linux_x86_64_sane|]. split; [exact example_peeking_stack_at|].
  destruct (call_stack_init_two_passes 4096 1 0 0 {| call_stack := 8192 |}
              (channel_elements_of (H := linux_x86_64) 4096
                 example_peeking_filters)
              example_peeking_state linux_x86_64_sane example_peeking_stack_at)
    as (s1 & s2 & Hwire & _ & _ & _ & _ & _ & _ & Hw & _ & Hinit & Hel).
  - split; [simpl; lia|vm_compute; reflexivity].
  - right. vm_compute. discriminate.
  - cbv zeta in Hw, Hinit.
    assert (s1 = example_wired_state) as ->.
    { assert (call_stack_wire (H := linux_x86_64) 4096 1 0 0
                {| call_stack := 8192 |} example_peeking_state =
              Returned (3, example_wired_state)) as Hc
        by (vm_compute; reflexivity).
      rewrite Hc in Hwire. by injection Hwire. }
    destruct (Hel 1%nat _ eq_refl) as (Hce & cl & Hcl & _ & Hcd & Hdata).
    exists s2. split; [exact Hinit|].
    split; [rewrite Hw; vm_compute; reflexivity|].
    eexists _, cl. split; [exact Hce|]. split; [exact Hcl|].
    split; [exact Hcd|exact Hdata].
Defined.



Lemma destroy_order_witness :
  (∃ s',
     grpc_channel_stack_destroy (H := linux_x86_64) 4096 example_channel_state =
       Returned (tt, s') ∧
     world s' =
       ["a.init_channel_elem"; "b.init_channel_elem"; "c.init_channel_elem";
        "a.destroy_channel_elem"; "b.destroy_channel_elem";
        "c.destroy_channel_elem"]) ∧
  (∃ s',
     grpc_call_stack_destroy (H := linux_x86_64) 8192 55 77 example_call_state =
       Returned (tt, s') ∧
     trace s' =
       trace example_call_state ++
       [Call_destroy_call_elem "a" 8224 55 0;
        Call_destroy_call_elem "b" 8248 55 0;
        Call_destroy_call_elem "c" 8272 55 77]).
Proof.
  split.
  - destruct (proj1 (destroy_order (H := linux_x86_64)) 4096
                (channel_elements_of (H := linux_x86_64) 4096 example_filters)
                (channel_stack_header (H := linux_x86_64) 1 0 0 example_filters
                   example_args "example")
                (λ w, w) example_channel_state example_channel_stack_at)
      as (s' & Hrun & _ & Hw).
    + vm_compute. reflexivity.
    + reflexivity.
    + exists s'. split; [exact Hrun|exact Hw].
  - destruct (proj2 (destroy_order (H := linux_x86_64)) 8192 55 77
                (call_elements_of (H := linux_x86_64) 8192
                   (channel_elements_of (H := linux_x86_64) 4096 example_filters))
                example_call_state example_call_stack_at)
      as (s' & Hrun & Htr & _).
    + vm_compute. reflexivity.
    + exists s'. split; [exact Hrun|exact Htr].
Defined.

Lemma next_op_dispatch_witness :
  @sane_platform linux_x86_64 ∧
  call_stack_at (H := linux_x86_64) (mem example_call_state) 8192
    (call_elements_of (H := linux_x86_64) 8192
       (channel_elements_of (H := linux_x86_64) 4096 example_filters)) ∧
  grpc_call_next_op (H := linux_x86_64) 8248 99 example_call_state =
    Returned
      (tt,
       {| mem := mem example_call_state;
          world :=
            world example_call_state ++ ["c.start_transport_stream_op_batch"];
          trace :=
            trace example_call_state ++
            [Call_start_transport_stream_op_batch "c" 8272 99] |}) ∧
  grpc_call_next_op (H := linux_x86_64) 8272 99 example_call_state =
    UndefinedBehavior.
Proof.
  split; [exact linux_x86_64_sane|]. split; [exact example_call_stack_at|].
  destruct (next_op_dispatch (H := linux_x86_64) (Wd := list string)
              linux_x86_64_sane)
    as (Hcall & _ & _ & _ & Hvalid & _ & _).
  split.
  - destruct (Hvalid 8192 _ 1%nat 99 example_call_state example_call_stack_at)
      as (next & Hnext & Hrun).
    + vm_compute. reflexivity.
    + vm_compute in Hnext. injection Hnext as <-. exact Hrun.
  - rewrite (Hcall 8272 99 example_call_state). vm_compute. reflexivity.
Defined.


(** *** The further properties on the concrete pipeline *)

Lemma example_sizes_fit :
  channel_sizes_fit (H := linux_x86_64) example_filters ∧
  call_sizes_fit (H := linux_x86_64) example_filters.
Proof.
  split; (split; [repeat constructor; cbn; lia|cbn; lia]).
Defined.

Lemma example_repeated_stack_at :
  channel_stack_at (H := linux_x86_64) (mem example_repeated_state) 4096
    (channel_elements_of (H := linux_x86_64) 4096 example_repeated_filters).
Proof.
  split.
  - exists (channel_stack_header (H := linux_x86_64) 1 0 0
              example_repeated_filters example_args "repeated").
    split; vm_compute; reflexivity.
  - intros [|[|[|i]]] e He; vm_compute in He; try discriminate;
      injection He as <-; vm_compute; reflexivity.
Defined.

Lemma channel_stack_size_bounds_witness :
  @sane_platform linux_x86_64 ∧
  ∃ size,
    grpc_channel_stack_size (H := linux_x86_64) example_filters =
      Returned size ∧
    size mod 16 = 0 ∧
    channel_bytes_needed (H := linux_x86_64) example_filters ≤ size.
Proof.
  split; [exact linux_x86_64_sane|].
  destruct (channel_stack_size_bounds (H := linux_x86_64) example_filters
              linux_x86_64_sane) as (size & Hrun & _ & Hmod & Hfit).
  exists size. split; [exact Hrun|]. split; [exact Hmod|].
  apply Hfit.
  - exact (proj1 example_sizes_fit).
  - vm_compute. reflexivity.
Defined.

Lemma channel_layout_regions_witness :
  @sane_platform linux_x86_64 ∧
  channel_sizes_fit (H := linux_x86_64) example_filters ∧
  channel_stack_fits (H := linux_x86_64) 4096 example_filters ∧
  ∃ (s' : @state (list string)) e,
    channel_elements (mem s') !! 4224 = Some e ∧
    4200 ≤ 4224 ∧ 4256 ≤ channel_data e ∧ channel_data e + 17 ≤ 4096 + 240.
Proof.
  split; [exact linux_x86_64_sane|]. split; [exact (proj1 example_sizes_fit)|].
  split; [exact (proj1 example_stacks_fit)|].
  destruct (channel_layout_regions (H := linux_x86_64) 1 0 0 example_filters
              example_args "example" 4096 0 empty_state linux_x86_64_sane
              (proj1 example_sizes_fit) (proj1 example_stacks_fit))
    as (fe & s' & size & _ & Hsize & Hel).
  edestruct (Hel 1%nat) as (e & He & _ & Hlo & Hhi & Hd & Hend & _); [reflexivity|].
  vm_compute in Hsize. injection Hsize as <-.
  exists s', e. split; [exact He|]. split; [exact Hlo|].
  split; [exact Hd|exact Hend].
Defined.

Lemma stack_data_aligned_witness :
  @sane_platform linux_x86_64 ∧
  channel_stack_fits (H := linux_x86_64) 4096 example_filters ∧
  (16 | 4096) ∧ (16 | 8192) ∧
  ∃ (s' s'' : @state (list string)) e cl,
    channel_elements (mem s') !! 4224 = Some e ∧ (16 | channel_data e) ∧
    call_elements (mem s'') !! 8272 = Some cl ∧ (16 | call_data cl).
Proof.
  split; [exact linux_x86_64_sane|].
  split; [exact (proj1 example_stacks_fit)|].
  assert (16 | 4096) as Hdiv by (exists 256; reflexivity).
  assert (16 | 8192) as Hdiv' by (exists 512; reflexivity).
  split; [exact Hdiv|]. split; [exact Hdiv'|].
  destruct (stack_data_aligned (H := linux_x86_64) 1 0 0 example_filters
              example_args "example" 4096 0 empty_state linux_x86_64_sane
              (proj1 example_stacks_fit) Hdiv)
    as (fe & s' & _ & _ & Hel & Hcall).
  edestruct (Hel 1%nat) as (e & He & Ha); [reflexivity|].
  destruct (Hcall 1 0 0 {| call_stack := 8192 |}
              (proj1 (proj2 example_stacks_fit))
              (proj2 (proj2 example_stacks_fit)) Hdiv')
    as (ce & s'' & _ & _ & Hcel).
  edestruct (Hcel 2%nat) as (cl & Hcl & Hca & _); [reflexivity|].
  exists s', s'', e, cl. split; [exact He|]. split; [exact Ha|].
  split; [exact Hcl|exact Hca].
Defined.

Lemma call_stack_fits_call_stack_size_witness :
  @sane_platform linux_x86_64 ∧
  call_sizes_fit (H := linux_x86_64) example_filters ∧
  call_stack_fits (H := linux_x86_64) 8192 example_filters ∧
  ∃ (s1 : @state (list string)) stk (s2 : @state (list string)) cl,
    channel_stacks (mem s1) !! 4096 = Some stk ∧
    call_elements (mem s2) !! 8272 = Some cl ∧
    call_data cl + 24 ≤ 8192 + call_stack_size stk.
Proof.
  split; [exact linux_x86_64_sane|]. split; [exact (proj2 example_sizes_fit)|].
  split; [exact (proj1 (proj2 example_stacks_fit))|].
  destruct (call_stack_fits_call_stack_size (H := linux_x86_64) 1 0 0
              example_filters example_args "example" 4096 0 1 0 0
              {| call_stack := 8192 |} empty_state linux_x86_64_sane
              (proj2 example_sizes_fit) (proj1 example_stacks_fit)
              (proj1 (proj2 example_stacks_fit))
              (proj2 (proj2 example_stacks_fit)))
    as (fe & s1 & stk & ce & s2 & _ & Hstk & _ & Hel).
  edestruct (Hel 2%nat) as (cl & Hcl & _ & _ & _ & _ & Hend & _); [reflexivity|].
  exists s1, stk, s2, cl. split; [exact Hstk|]. split; [exact Hcl|exact Hend].
Defined.

Lemma init_args_first_and_last_witness :
  @sane_platform linux_x86_64 ∧
  ∃ (s' : @state (list string)) args,
    trace s' !! 2%nat = Some (Call_init_channel_elem "c" 4240 args) ∧
    is_first args = false ∧ is_last args = true.
Proof.
  split; [exact linux_x86_64_sane|].
  destruct (init_args_first_and_last (H := linux_x86_64) 1 0 0 example_filters
              example_args "example" 4096 0 empty_state linux_x86_64_sane)
    as (fe & ud & cs & s' & _ & _ & Hel).
  - vm_compute. reflexivity.
  - edestruct (Hel 2%nat) as (args & Htr & Hfirst & Hlast & _); [reflexivity|].
    exists s', args. split; [exact Htr|]. split; [exact Hfirst|exact Hlast].
Defined.

Lemma init_ok_iff_all_ok_witness :
  @sane_platform linux_x86_64 ∧
  ∃ first_error s',
    grpc_channel_stack_init (H := linux_x86_64) 1 0 0 example_filters
      example_args "example" 4096 0 empty_state =
      Returned (first_error, s') ∧
    ok first_error ≠ true.
Proof.
  split; [exact linux_x86_64_sane|].
  destruct (init_ok_iff_all_ok (H := linux_x86_64) 1 0 0 example_filters
              example_args "example" 4096 0 empty_state linux_x86_64_sane
              (proj1 example_stacks_fit))
    as (fe & s' & Hrun & Hiff & _).
  exists fe, s'. split; [exact Hrun|].
  intros Hok. apply Hiff in Hok.
  apply Forall_cons in Hok as [_ Hok]. apply Forall_cons in Hok as [Hb _].
  vm_compute in Hb. discriminate.
Defined.

Lemma last_element_holds_last_filter_witness :
  ∃ e : @grpc_channel_element (list string),
    grpc_channel_stack_last_element (H := linux_x86_64) 4096
      example_channel_state = Returned (4240, example_channel_state) ∧
    name (filter e) = "c".
Proof.
  destruct (last_element_holds_last_filter (H := linux_x86_64) 4096 _
              example_channel_state example_channel_stack_at)
    as (e & Hrun & Hlast & _).
  - vm_compute. discriminate.
  - vm_compute. discriminate.
  - exists e. split; [exact Hrun|].
    vm_compute in Hlast. injection Hlast as <-. reflexivity.
Defined.

Lemma filter_instance_number_counts_earlier_witness :
  @sane_platform linux_x86_64 ∧
  grpc_channel_stack_filter_instance_number (H := linux_x86_64)
    example_filter_address 4096 4240 example_repeated_state =
    Returned (1, example_repeated_state).
Proof.
  split; [exact linux_x86_64_sane|].
  destruct (filter_instance_number_counts_earlier (H := linux_x86_64)
              example_filter_address 4096 _ 2%nat _ example_repeated_state
              linux_x86_64_sane example_repeated_stack_at eq_refl)
    as [Hrun _].
  - vm_compute. reflexivity.
  - exact Hrun.
Defined.

Lemma filter_instance_numbers_increase_witness :
  @sane_platform linux_x86_64 ∧
  ∃ ni nj,
    grpc_channel_stack_filter_instance_number (H := linux_x86_64)
      example_filter_address 4096 4208 example_repeated_state =
      Returned (ni, example_repeated_state) ∧
    grpc_channel_stack_filter_instance_number (H := linux_x86_64)
      example_filter_address 4096 4240 example_repeated_state =
      Returned (nj, example_repeated_state) ∧
    0 ≤ ni < nj.
Proof.
  split; [exact linux_x86_64_sane|].
  apply (filter_instance_numbers_increase (H := linux_x86_64)
           example_filter_address 4096 _ 0%nat 2%nat _ _ example_repeated_state
           linux_x86_64_sane example_repeated_stack_at eq_refl eq_refl).
  - reflexivity.
  - lia.
  - vm_compute. reflexivity.
Defined.

Lemma set_pollset_reaches_every_element_witness :
  ∃ s',
    grpc_call_stack_set_pollset_or_pollset_set (H := linux_x86_64) 8192 33
      example_call_state = Returned (tt, s') ∧
    trace s' =
      trace example_call_state ++
      [Call_set_pollset_or_pollset_set "a" 8224 33;
       Call_set_pollset_or_pollset_set "b" 8248 33;
       Call_set_pollset_or_pollset_set "c" 8272 33].
Proof.
  destruct (set_pollset_reaches_every_element (H := linux_x86_64) 8192 33 _
              example_call_state example_call_stack_at)
    as (s' & Hrun & _ & Htr & _).
  exists s'. split; [exact Hrun|exact Htr].
Defined.

Lemma from_top_element_only_for_top_witness :
  @sane_platform linux_x86_64 ∧
  grpc_channel_stack_from_top_element (H := linux_x86_64)
    (grpc_channel_stack_element (H := linux_x86_64) 4096 1) ≠ 4096.
Proof.
  split; [exact linux_x86_64_sane|].
  destruct (from_top_element_only_for_top (H := linux_x86_64) 4096 1 0
              linux_x86_64_sane) as (_ & _ & Htop & _).
  intros Heq. apply Htop in Heq. discriminate.
Defined.

Lemma channel_stack_init_then_destroy_witness :
  @sane_platform linux_x86_64 ∧
  ∃ (s1 s2 : @state (list string)),
    grpc_channel_stack_destroy (H := linux_x86_64) 4096 s1 =
      Returned (tt, s2) ∧
    world s2 =
      ["a.init_channel_elem"; "b.init_channel_elem"; "c.init_channel_elem";
       "a.destroy_channel_elem"; "b.destroy_channel_elem";
       "c.destroy_channel_elem"] ∧
    grpc_channel_stack_destroy (H := linux_x86_64) 4096 s2 =
      UndefinedBehavior.
Proof.
  split; [exact linux_x86_64_sane|].
  destruct (channel_stack_init_then_destroy (H := linux_x86_64) 1 0 0
              example_filters example_args "example" 4096 0 empty_state
              linux_x86_64_sane (proj1 example_stacks_fit))
    as (fe & s1 & s2 & stk & _ & Hd & _ & _ & Hw & _ & _ & _ & _ & _ & _ & _ & Hub).
  exists s1, s2. split; [exact Hd|]. split; [exact Hw|exact Hub].
Defined.

Lemma call_stack_init_then_destroy_witness :
  @sane_platform linux_x86_64 ∧
  ∃ (s1 s3 : @state (list string)) inits destroys,
    trace s3 = trace s1 ++ inits ++ destroys ∧
    destroys !! 1%nat = Some (Call_destroy_call_elem "b" 8248 55 0) ∧
    destroys !! 2%nat = Some (Call_destroy_call_elem "c" 8272 55 77).
Proof.
  split; [exact linux_x86_64_sane|].
  destruct (call_stack_init_then_destroy (H := linux_x86_64) 1 0 0
              example_filters example_args "example" 4096 0 1 0 0
              {| call_stack := 8192 |} 55 77 empty_state linux_x86_64_sane)
    as (fe & s1 & ce & s2 & s3 & _ & _ & _ &
        (inits & destroys & Htr & _ & _ & Hel) & _).
  - vm_compute. reflexivity.
  - exact (proj1 example_stacks_fit).
  - exact (proj1 (proj2 example_stacks_fit)).
  - exact (proj2 (proj2 example_stacks_fit)).
  - exists s1, s3, inits, destroys. split; [exact Htr|]. split.
    + edestruct (Hel 1%nat) as [_ Hd]; [reflexivity|]. exact Hd.
    + edestruct (Hel 2%nat) as [_ Hd]; [reflexivity|]. exact Hd.
Defined.

Lemma call_stacks_share_channel_data_witness :
  @sane_platform linux_x86_64 ∧
  ∃ (s2 : @state (list string)) c1 c2,
    call_elements (mem s2) !! 8248 = Some c1 ∧
    call_elements (mem s2) !! 12344 = Some c2 ∧
    call_channel_data c1 = call_channel_data c2 ∧
    call_data c1 - 8192 = call_data c2 - 12288.
Proof.
  split; [exact linux_x86_64_sane|].
  destruct (call_stacks_share_channel_data (H := linux_x86_64) 4096 _ 1 0 0
              {| call_stack := 8192 |} {| call_stack := 12288 |}
              example_channel_state linux_x86_64_sane example_channel_stack_at)
    as (e1 & s1 & e2 & s2 & _ & _ & _ & _ & Hel).
  - exact (proj2 example_sizes_fit).
  - split; [simpl; lia|vm_compute; reflexivity].
  - split; [simpl; lia|vm_compute; reflexivity].
  - left. vm_compute. discriminate.
  - right. vm_compute. discriminate.
  - right. vm_compute. discriminate.
  - edestruct (Hel 1%nat) as (c1 & c2 & H1 & H2 & Hd1 & Hd2 & _ & Hoff); [reflexivity|].
    exists s2, c1, c2. split; [exact H1|]. split; [exact H2|].
    split; [by rewrite Hd1, Hd2|exact Hoff].
Defined.

End ChannelStack.

(** ** The HPACK parser table ([hpack_parser_table.h]) *)

Module HPack.
Import Alloc Cxx.

Module hpack_constants.

(** Modelled from the spec: [hpack_constants.h] is missing.  The spec gives
    61 static entries and an initial table of 4096 bytes, and says an
    entry costs its field lengths plus a fixed per-entry overhead; the
    overhead and the entry count for a byte size are those of RFC 7541. *)
Definition kLastStaticEntry : Z := 61.
Definition kInitialTableSize : Z := 4096.
Definition kEntryOverhead : Z := 32.

Definition EntriesForBytes (bytes : Z) : Z :=
  (bytes + kEntryOverhead - 1) / kEntryOverhead.

Definition kInitialTableEntries : Z := EntriesForBytes kInitialTableSize.

End hpack_constants.
Import hpack_constants.

(** A decoded header field, and the table entry that holds one. *)
Record ParsedMetadata := {
  key : string;
  value : string
}.

(** Modelled from the spec: [ParsedMetadata::transport_size] is declared in
    a missing header; the spec describes it as the field lengths plus the
    fixed per-entry overhead. *)
Definition transport_size (md : ParsedMetadata) : Z :=
  Z.of_nat (String.length (key md)) + Z.of_nat (String.length (value md)) +
  kEntryOverhead.

Record Memento := {
  md : ParsedMetadata;
  parse_status_used : bool
}.

(** [const Memento*]: null, or a slot of the static array, or a slot of the
    ring buffer's vector. *)
Inductive MementoPtr :=
| null_memento
| static_memento (i : Z)
| dynamic_memento (offset : Z).

Record MementoRingBuffer := {
  first_entry_ : Z;
  num_entries_ : Z;
  max_entries_ : Z;
  entries_ : list Memento
}.

(** The table; [ring] is its member [entries_], renamed because the vector
    inside the ring buffer has the same name. *)
Record HPackTable := {
  mem_used_ : Z;
  max_bytes_ : Z;
  current_table_bytes_ : Z;
  ring : MementoRingBuffer
}.

(** The default member initialisers of the header. *)
Definition new_MementoRingBuffer : MementoRingBuffer :=
  {| first_entry_ := 0;
     num_entries_ := 0;
     max_entries_ := kInitialTableEntries;
     entries_ := [] |}.

Definition new_HPackTable : HPackTable :=
  {| mem_used_ := 0;
     max_bytes_ := kInitialTableSize;
     current_table_bytes_ := kInitialTableSize;
     ring := new_MementoRingBuffer |}.

(** *** The ring buffer *)

Module RingBuffer.

(** Modelled from the spec: the bodies of [MementoRingBuffer::Lookup],
    [Put], [PopOne] and [Rebuild] are in [hpack_parser_table.cc], which is
    missing; the header gives their signatures and [REQUIRES] clauses.
    The spec: [first_entry] is the logical index of the oldest live entry,
    monotonically increasing, reduced modulo [max_entries] to find a slot;
    the most recently added entry is addressed first; an index outside the
    live range is answered with [nullptr].  The counters are the spec's
    logical indices: [first_entry_] only ever grows. *)
Definition Lookup (rb : MementoRingBuffer) (index : Z) : MementoPtr :=
  if num_entries_ rb <=? index then null_memento
  else
    dynamic_memento
      ((num_entries_ rb - 1 - index + first_entry_ rb) mod max_entries_ rb).

(** Modelled from the spec: [Put] appends at the write position
    [(first_entry + num_entries) mod max_entries]; the vector grows when
    that position is its end.  [REQUIRES: num_entries < max_entries]. *)
Definition Put (m : Memento) (rb : MementoRingBuffer)
  : outcome MementoRingBuffer :=
  if negb (num_entries_ rb <? max_entries_ rb)
  then CheckFailed "num_entries < max_entries"
  else
    let index := (first_entry_ rb + num_entries_ rb) mod max_entries_ rb in
    Returned
      {| first_entry_ := first_entry_ rb;
         num_entries_ := num_entries_ rb + 1;
         max_entries_ := max_entries_ rb;
         entries_ :=
           if index <? Z.of_nat (length (entries_ rb))
           then <[Z.to_nat index := m]> (entries_ rb)
           else entries_ rb ++ [m] |}.

(** Modelled from the spec: [PopOne] takes the oldest entry and advances
    [first_entry].  [REQUIRES: num_entries > 0]. *)
Definition PopOne (rb : MementoRingBuffer)
  : outcome (Memento * MementoRingBuffer) :=
  if negb (0 <? num_entries_ rb)
  then CheckFailed "num_entries > 0"
  else
    let index := first_entry_ rb mod max_entries_ rb in
    match entries_ rb !! Z.to_nat index with
    | None => UndefinedBehavior
    | Some m =>
        Returned
          (m, {| first_entry_ := first_entry_ rb + 1;
                 num_entries_ := num_entries_ rb - 1;
                 max_entries_ := max_entries_ rb;
                 entries_ := entries_ rb |})
    end.

(** The live entry at logical position [i], oldest first (what [ForEach]
    visits at step [i]). *)
Definition entry_at (rb : MementoRingBuffer) (i : Z) : option Memento :=
  entries_ rb !! Z.to_nat ((first_entry_ rb + i) mod max_entries_ rb).

(** The live entries, oldest first. *)
Definition live_entries (rb : MementoRingBuffer) : list Memento :=
  omap (λ i : nat, entry_at rb (Z.of_nat i))
       (seq 0 (Z.to_nat (num_entries_ rb))).

(** Modelled from the spec: [Rebuild] allocates a vector for the new
    capacity and copies the live entries across in logical order. *)
Definition Rebuild (max_entries : Z) (rb : MementoRingBuffer)
  : outcome MementoRingBuffer :=
  if max_entries =? max_entries_ rb then Returned rb
  else
    match mapM (λ i : nat, entry_at rb (Z.of_nat i))
               (seq 0 (Z.to_nat (num_entries_ rb))) with
    | None => UndefinedBehavior
    | Some entries =>
        Returned
          {| first_entry_ := 0;
             num_entries_ := num_entries_ rb;
             max_entries_ := max_entries;
             entries_ := entries |}
    end.

End RingBuffer.

(** *** The table *)

Section Table.
(** The static array [GetStaticMementos()->memento]; its constructor is not
    among the sources, so its contents are a parameter. *)
Variable static_mementos : Z → Memento.

(** What a [const Memento*] points at; [None] when it is null or points
    outside the array it was computed from. *)
Definition deref (t : HPackTable) (p : MementoPtr) : option Memento :=
  match p with
  | null_memento => None
  | static_memento i =>
      if (0 <=? i) && (i <? kLastStaticEntry) then Some (static_mementos i)
      else None
  | dynamic_memento offset =>
      if 0 <=? offset then entries_ (ring t) !! Z.to_nat offset else None
  end.

Definition LookupDynamic (t : HPackTable) (index : Z) : MementoPtr :=
  let tbl_index := uint32_t (index - (kLastStaticEntry + 1)) in
  RingBuffer.Lookup (ring t) tbl_index.

Definition Lookup (t : HPackTable) (index : Z) : MementoPtr :=
  if index <=? kLastStaticEntry then static_memento (uint32_t (index - 1))
  else LookupDynamic t index.

Definition num_entries (t : HPackTable) : Z := num_entries_ (ring t).
Definition test_only_table_size (t : HPackTable) : Z := mem_used_ t.
Definition max_bytes (t : HPackTable) : Z := max_bytes_ t.
Definition current_table_bytes (t : HPackTable) : Z := current_table_bytes_ t.

(** Modelled from the spec: the bodies of [EvictOne], [Add],
    [AddLargerThanCurrentTableSize], [SetMaxBytes] and
    [SetCurrentTableSize] are in the missing [hpack_parser_table.cc].
    Eviction pops the oldest entry and takes its cost off [mem_used]. *)
Definition EvictOne (t : HPackTable) : outcome HPackTable :=
  '(first_entry, rb) ← RingBuffer.PopOne (ring t);
  mret {| mem_used_ := uint32_t (mem_used_ t - transport_size (md first_entry));
          max_bytes_ := max_bytes_ t;
          current_table_bytes_ := current_table_bytes_ t;
          ring := rb |}.

(** [while (cond) EvictOne();] for a table of [n] entries: after [n]
    evictions the buffer is empty and the next [PopOne] fails its
    [REQUIRES]. *)
Fixpoint evict_while (n : nat) (cond : HPackTable → bool) (t : HPackTable)
  : outcome HPackTable :=
  if cond t then
    match n with
    | O => CheckFailed "num_entries > 0"
    | S n' => t' ← EvictOne t; evict_while n' cond t'
    end
  else mret t.

Definition evict_until (cond : HPackTable → bool) (t : HPackTable)
  : outcome HPackTable :=
  evict_while (Z.to_nat (num_entries t)) cond t.

(** Modelled from the spec: an entry larger than the table empties it and
    is not retained. *)
Definition AddLargerThanCurrentTableSize (t : HPackTable) : outcome HPackTable :=
  evict_until (λ t, 0 <? num_entries t) t.

(** Modelled from the spec: evict the oldest entries while
    [mem_used + cost > current_table_bytes], then append.  The spec names
    no case in which the result is [false]. *)
Definition Add (m : Memento) (t : HPackTable) : outcome (bool * HPackTable) :=
  let cost := transport_size (md m) in
  if current_table_bytes_ t <? cost then
    t' ← AddLargerThanCurrentTableSize t;
    mret (true, t')
  else
    t1 ← evict_until (λ t, current_table_bytes_ t <? mem_used_ t + cost) t;
    rb ← RingBuffer.Put m (ring t1);
    mret (true,
          {| mem_used_ := uint32_t (mem_used_ t1 + cost);
             max_bytes_ := max_bytes_ t1;
             current_table_bytes_ := current_table_bytes_ t1;
             ring := rb |}).

(** Modelled from the spec: adjust the hard ceiling; lowering it evicts
    down to the new bound. *)
Definition SetMaxBytes (max_bytes : Z) (t : HPackTable) : outcome HPackTable :=
  t1 ← evict_until (λ t, max_bytes <? mem_used_ t) t;
  mret {| mem_used_ := mem_used_ t1;
          max_bytes_ := max_bytes;
          current_table_bytes_ := current_table_bytes_ t1;
          ring := ring t1 |}.

(** Modelled from the spec: a size above the hard ceiling is refused and
    the table is left as it is; otherwise evict down to the new size, set
    it, and rebuild the ring for the entry count the size permits. *)
Definition SetCurrentTableSize (bytes : Z) (t : HPackTable)
  : outcome (bool * HPackTable) :=
  if max_bytes_ t <? bytes then mret (false, t)
  else
    t1 ← evict_until (λ t, bytes <? mem_used_ t) t;
    rb ← RingBuffer.Rebuild
           (Z.max (EntriesForBytes bytes) kInitialTableEntries) (ring t1);
    mret (true,
          {| mem_used_ := mem_used_ t1;
             max_bytes_ := max_bytes_ t1;
             current_table_bytes_ := bytes;
             ring := rb |}).

(** Sequences of mutations. *)
Inductive mutation :=
| DoAdd (m : Memento)
| DoAddLargerThanCurrentTableSize
| DoSetMaxBytes (max_bytes : Z)
| DoSetCurrentTableSize (bytes : Z).

Definition apply_mutation (o : mutation) (t : HPackTable) : outcome HPackTable :=
  match o with
  | DoAdd m => r ← Add m t; mret r.2
  | DoAddLargerThanCurrentTableSize => AddLargerThanCurrentTableSize t
  | DoSetMaxBytes b => SetMaxBytes b t
  | DoSetCurrentTableSize b => r ← SetCurrentTableSize b t; mret r.2
  end.

Fixpoint apply_mutations (os : list mutation) (t : HPackTable)
  : outcome HPackTable :=
  match os with
  | [] => mret t
  | o :: os' => t' ← apply_mutation o t; apply_mutations os' t'
  end.

(** The arguments are [uint32_t] values. *)
Definition mutation_in_range (o : mutation) : Prop :=
  match o with
  | DoSetMaxBytes b | DoSetCurrentTableSize b => 0 ≤ b < 2 ^ 32
  | _ => True
  end.

(** *** What the table holds *)

(** The ring buffer holds the entries [l], oldest first; the vector has
    grown by appending until it reached the capacity. *)
Definition ring_holds (rb : MementoRingBuffer) (l : list Memento) : Prop :=
  0 ≤ first_entry_ rb ∧
  num_entries_ rb = Z.of_nat (length l) ∧
  num_entries_ rb ≤ max_entries_ rb ∧
  0 < max_entries_ rb ∧
  Z.of_nat (length (entries_ rb)) ≤ max_entries_ rb ∧
  (Z.of_nat (length (entries_ rb)) < max_entries_ rb →
   first_entry_ rb + num_entries_ rb = Z.of_nat (length (entries_ rb))) ∧
  ∀ (k : nat) m, l !! k = Some m →
    RingBuffer.entry_at rb (Z.of_nat k) = Some m.

(** The byte cost of a list of entries. *)
Definition total_size (l : list Memento) : Z :=
  foldr (λ m acc, transport_size (md m) + acc) 0 l.

(** The table holds the entries [l], oldest first, and its counters agree
    with them. *)
Definition table_holds (t : HPackTable) (l : list Memento) : Prop :=
  ring_holds (ring t) l ∧
  mem_used_ t = total_size l ∧
  mem_used_ t ≤ current_table_bytes_ t ∧
  0 ≤ current_table_bytes_ t < 2 ^ 32 ∧
  0 ≤ max_bytes_ t < 2 ^ 32 ∧
  max_entries_ (ring t) =
    Z.max (EntriesForBytes (current_table_bytes_ t)) kInitialTableEntries.

(** What a mutation keeps of its argument: an entry that fits the current
    table size. *)
Definition retained (o : mutation) (t : HPackTable) : list Memento :=
  match o with
  | DoAdd m =>
      if current_table_bytes_ t <? transport_size (md m) then [] else [m]
  | _ => []
  end.


(** Whether the bound a mutation enforces is still exceeded when the table
    holds the entries [l]. *)
Definition over_bound (o : mutation) (t : HPackTable) (l : list Memento) : bool :=
  match o with
  | DoAdd m =>
      if current_table_bytes_ t <? transport_size (md m)
      then 0 <? Z.of_nat (length l)
      else current_table_bytes_ t <? total_size l + transport_size (md m)
  | DoAddLargerThanCurrentTableSize => 0 <? Z.of_nat (length l)
  | DoSetMaxBytes b => b <? total_size l
  | DoSetCurrentTableSize b =>
      if max_bytes_ t <? b then false else b <? total_size l
  end.


End Table.


(** *** Concrete entries *)

Definition example_static_mementos : Z → Memento :=
  λ i, {| md := {| key := ":static"; value := "" |};
          parse_status_used := false |}.

(** An entry of 100 bytes when [v] is one character: 1 + 67 + 32. *)
Definition example_entry (v : string) : Memento :=
  {| md := {| key := "k";
              value := v +:+ "------------------------------------------------------------------" |};
     parse_status_used := false |}.

Ltac split_done := repeat (split; [done|]); try done.

(** *** The ring buffer keeps its entries *)

Lemma mod_distinct M a b : 0 < M → a < b < a + M → a mod M ≠ b mod M.
Proof.
  intros HM Hab Heq.
  pose proof (Z.div_mod a M ltac:(lia)) as Ha.
  pose proof (Z.div_mod b M ltac:(lia)) as Hb.
  rewrite Heq in Ha.
  assert (b - a = M * (b / M - a / M)) as Hd by lia.
  assert (0 < b / M - a / M < 1) by nia. lia.
Qed.

Lemma transport_size_overhead m : kEntryOverhead ≤ transport_size m.
Proof. unfold transport_size. lia. Qed.

Lemma total_size_app l1 l2 : total_size (l1 ++ l2) = total_size l1 + total_size l2.
Proof. induction l1 as [|m l1 IH]; simpl; lia. Qed.

Lemma total_size_overhead l : kEntryOverhead * Z.of_nat (length l) ≤ total_size l.
Proof.
  induction l as [|m l IH]; simpl; [lia|].
  pose proof (transport_size_overhead (md m)). lia.
Qed.

Lemma omap_seq_lookup {A} (f : nat → option A) (l : list A) j :
  (∀ k x, l !! k = Some x → f (j + k)%nat = Some x) →
  omap f (seq j (length l)) = l.
Proof.
  revert j. induction l as [|x l IH]; intros j Hf; [done|].
  simpl. rewrite <- (Nat.add_0_r j) at 1. rewrite (Hf 0%nat x eq_refl).
  f_equal. apply IH. intros k y Hk.
  replace (S j + k)%nat with (j + S k)%nat by lia. by apply Hf.
Qed.

Lemma mapM_seq_lookup {A} (f : nat → option A) (l : list A) j :
  (∀ k x, l !! k = Some x → f (j + k)%nat = Some x) →
  mapM f (seq j (length l)) = Some l.
Proof.
  revert j. induction l as [|x l IH]; intros j Hf; [done|].
  simpl. rewrite <- (Nat.add_0_r j) at 1. rewrite (Hf 0%nat x eq_refl).
  simpl. rewrite IH; [done|]. intros k y Hk.
  replace (S j + k)%nat with (j + S k)%nat by lia. by apply Hf.
Qed.

Lemma ring_holds_new : ring_holds new_MementoRingBuffer [].
Proof. repeat split; try done. Qed.

Lemma ring_holds_live rb l : ring_holds rb l → RingBuffer.live_entries rb = l.
Proof.
  intros (_ & Hn & _ & _ & _ & _ & Hl). unfold RingBuffer.live_entries.
  rewrite Hn, Nat2Z.id. apply omap_seq_lookup. intros k x Hk. by apply Hl.
Qed.

Lemma ring_holds_Put rb l m :
  ring_holds rb l → num_entries_ rb < max_entries_ rb →
  ∃ rb', RingBuffer.Put m rb = Returned rb' ∧
         ring_holds rb' (l ++ [m]) ∧
         max_entries_ rb' = max_entries_ rb.
Proof.
  intros (Hf & Hn & HnM & HM & HL & Hgrow & Hl) Hlt.
  unfold RingBuffer.Put.
  replace (num_entries_ rb <? max_entries_ rb) with true
    by (symmetry; by apply Z.ltb_lt).
  cbn [negb]. eexists. split; [done|]. split; [|done].
  set (index := (first_entry_ rb + num_entries_ rb) mod max_entries_ rb).
  assert (0 ≤ index < max_entries_ rb) as Hindex
    by (apply Z.mod_pos_bound; lia).
  unfold ring_holds, RingBuffer.entry_at. cbn [first_entry_ num_entries_
    max_entries_ entries_].
  destruct (Z.ltb_spec index (Z.of_nat (length (entries_ rb)))) as [Hin|Hout].
  - (* the vector is full: overwrite the slot *)
    assert (Z.of_nat (length (entries_ rb)) = max_entries_ rb) as Hfull.
    { destruct (Z.lt_ge_cases (Z.of_nat (length (entries_ rb))) (max_entries_ rb))
        as [Hlt'|]; [|lia].
      specialize (Hgrow Hlt'). subst index. rewrite Hgrow in Hin.
      rewrite Z.mod_small in Hin by lia. lia. }
    rewrite length_insert, length_app. simpl.
    split; [done|]. split; [lia|]. split; [lia|]. split; [done|].
    split; [done|]. split; [lia|].
    intros k x Hk. destruct (decide (k = length l)) as [->|Hne].
    + rewrite lookup_app_r, Nat.sub_diag in Hk by lia. injection Hk as <-.
      rewrite <- Hn. fold index. apply list_lookup_insert_eq. lia.
    + assert (k < length l)%nat as Hklt.
      { apply lookup_lt_Some in Hk. rewrite length_app in Hk. simpl in Hk. lia. }
      rewrite lookup_app_l in Hk by done.
      rewrite list_lookup_insert_ne; [by apply Hl|].
      intros Heq. apply Z2Nat.inj in Heq; [|lia|apply Z.mod_pos_bound; lia].
      subst index. symmetry in Heq. revert Heq. apply mod_distinct; lia.
  - (* the vector is still growing: append *)
    assert (Z.of_nat (length (entries_ rb)) < max_entries_ rb) as Hlt' by lia.
    specialize (Hgrow Hlt').
    assert (index = Z.of_nat (length (entries_ rb))) as Hidx
      by (subst index; rewrite Hgrow; apply Z.mod_small; lia).
    rewrite !length_app. simpl.
    split; [done|]. split; [lia|]. split; [lia|]. split; [done|].
    split; [lia|]. split; [lia|].
    intros k x Hk. destruct (decide (k = length l)) as [->|Hne].
    + rewrite lookup_app_r, Nat.sub_diag in Hk by lia. injection Hk as <-.
      rewrite <- Hn. fold index. rewrite Hidx, Nat2Z.id.
      by rewrite lookup_app_r, Nat.sub_diag by lia.
    + assert (k < length l)%nat as Hklt.
      { apply lookup_lt_Some in Hk. rewrite length_app in Hk. simpl in Hk. lia. }
      rewrite lookup_app_l in Hk by done.
      specialize (Hl k x Hk). unfold RingBuffer.entry_at in Hl.
      rewrite lookup_app_l; [done|]. by apply lookup_lt_Some in Hl.
Qed.


Lemma ring_holds_PopOne rb m l :
  ring_holds rb (m :: l) →
  ∃ rb', RingBuffer.PopOne rb = Returned (m, rb') ∧
         ring_holds rb' l ∧
         max_entries_ rb' = max_entries_ rb.
Proof.
  intros (Hf & Hn & HnM & HM & HL & Hgrow & Hl).
  unfold RingBuffer.PopOne. simpl in Hn.
  replace (0 <? num_entries_ rb) with true by (symmetry; apply Z.ltb_lt; lia).
  cbn [negb]. pose proof (Hl 0%nat m eq_refl) as H0.
  unfold RingBuffer.entry_at in H0. rewrite Z.add_0_r in H0. rewrite H0.
  eexists. split; [done|]. split; [|done].
  unfold ring_holds, RingBuffer.entry_at.
  cbn [first_entry_ num_entries_ max_entries_ entries_].
  split; [lia|]. split; [lia|]. split; [lia|]. split; [done|].
  split; [done|]. split; [lia|].
  intros k x Hk. specialize (Hl (S k) x Hk). unfold RingBuffer.entry_at in Hl.
  rewrite <- Hl. do 3 f_equal. lia.
Qed.

Lemma ring_holds_PopOne_empty rb :
  ring_holds rb [] →
  RingBuffer.PopOne rb = CheckFailed "num_entries > 0".
Proof.
  intros (_ & Hn & _). unfold RingBuffer.PopOne. simpl in Hn. by rewrite Hn.
Qed.

Lemma ring_holds_Lookup rb l (i : nat) m :
  ring_holds rb l → reverse l !! i = Some m →
  ∃ offset, RingBuffer.Lookup rb (Z.of_nat i) = dynamic_memento offset ∧
            0 ≤ offset ∧
            entries_ rb !! Z.to_nat offset = Some m.
Proof.
  intros (Hf & Hn & HnM & HM & HL & Hgrow & Hl) Hi.
  apply reverse_lookup_Some in Hi as [Hi Hlt].
  unfold RingBuffer.Lookup.
  replace (num_entries_ rb <=? Z.of_nat i) with false
    by (symmetry; apply Z.leb_gt; lia).
  eexists. split; [done|]. split; [apply Z.mod_pos_bound; lia|].
  specialize (Hl _ _ Hi). unfold RingBuffer.entry_at in Hl. rewrite <- Hl.
  do 3 f_equal. lia.
Qed.

Lemma ring_Lookup_beyond rb index :
  num_entries_ rb ≤ index → RingBuffer.Lookup rb index = null_memento.
Proof.
  intros Hge. unfold RingBuffer.Lookup.
  by replace (num_entries_ rb <=? index) with true
    by (symmetry; by apply Z.leb_le).
Qed.

Lemma ring_holds_Rebuild rb l cap :
  ring_holds rb l → Z.of_nat (length l) ≤ cap → 0 < cap →
  ∃ rb', RingBuffer.Rebuild cap rb = Returned rb' ∧
         ring_holds rb' l ∧
         max_entries_ rb' = cap.
Proof.
  intros Hrb Hcap Hpos. unfold RingBuffer.Rebuild.
  destruct (Z.eqb_spec cap (max_entries_ rb)) as [->|Hne]; [by exists rb|].
  destruct Hrb as (Hf & Hn & HnM & HM & HL & Hgrow & Hl).
  rewrite Hn, Nat2Z.id.
  rewrite (mapM_seq_lookup _ l 0) by (intros k x Hk; by apply Hl).
  eexists. split; [done|]. split; [|done].
  unfold ring_holds, RingBuffer.entry_at.
  cbn [first_entry_ num_entries_ max_entries_ entries_].
  split; [done|]. split; [done|]. split; [lia|]. split; [done|].
  split; [lia|]. split; [lia|].
  intros k x Hk. rewrite Z.add_0_l.
  pose proof (lookup_lt_Some _ _ _ Hk).
  rewrite Z.mod_small by lia. by rewrite Nat2Z.id.
Qed.


(** *** The table keeps its counters *)

Lemma total_size_nonneg l : 0 ≤ total_size l.
Proof. pose proof (total_size_overhead l). unfold kEntryOverhead in *. lia. Qed.

Lemma table_holds_new : table_holds new_HPackTable [].
Proof.
  split; [apply ring_holds_new|]. repeat split; try done; vm_compute; congruence.
Qed.

Lemma table_holds_EvictOne t m l :
  table_holds t (m :: l) →
  ∃ t', EvictOne t = Returned t' ∧
        table_holds t' l ∧
        current_table_bytes_ t' = current_table_bytes_ t ∧
        max_bytes_ t' = max_bytes_ t.
Proof.
  intros (Hring & Hused & Hle & Hcur & Hmax & Hcap).
  destruct (ring_holds_PopOne _ _ _ Hring) as (rb' & Hpop & Hring' & HM).
  unfold EvictOne. rewrite Hpop. simpl.
  eexists. split; [done|]. split; [|done].
  pose proof (total_size_nonneg l). pose proof (transport_size_overhead (md m)).
  unfold kEntryOverhead in *.
  change (total_size (m :: l)) with (transport_size (md m) + total_size l)
    in Hused.
  unfold table_holds. cbn [mem_used_ max_bytes_ current_table_bytes_ ring].
  assert (uint32_t (mem_used_ t - transport_size (md m)) = total_size l) as ->
    by (unfold uint32_t; rewrite Z.mod_small; lia).
  split; [done|]. rewrite HM. repeat split; try done; lia.
Qed.

Lemma evict_while_spec cond (P : list Memento → bool) l : ∀ t,
  table_holds t l →
  (∀ t' l', table_holds t' l' →
     current_table_bytes_ t' = current_table_bytes_ t →
     max_bytes_ t' = max_bytes_ t → cond t' = P l') →
  P [] = false →
  ∃ (k : nat) t',
    evict_while (length l) cond t = Returned t' ∧
    table_holds t' (drop k l) ∧
    current_table_bytes_ t' = current_table_bytes_ t ∧
    max_bytes_ t' = max_bytes_ t ∧
    P (drop k l) = false ∧
    ∀ j : nat, (j < k)%nat → P (drop j l) = true.
Proof.
  induction l as [|m l IH]; intros t Ht Hcond Hnil.
  - exists 0%nat, t. simpl. rewrite (Hcond t [] Ht eq_refl eq_refl), Hnil.
    do 5 (split; [done|]). intros j Hj. lia.
  - cbn [length evict_while]. rewrite (Hcond t (m :: l) Ht eq_refl eq_refl).
    destruct (P (m :: l)) eqn:HP.
    + destruct (table_holds_EvictOne t m l Ht) as (t1 & Hev & Ht1 & Hc1 & Hm1).
      rewrite Hev. simpl.
      destruct (IH t1 Ht1) as (k & t' & Hrun & Ht' & Hc' & Hm' & HP' & Hmin);
        [|done|].
      { intros t2 l2 Ht2 Hc2 Hm2. apply Hcond; [done|congruence|congruence]. }
      exists (S k), t'. rewrite Hrun. simpl.
      split; [done|]. split; [done|]. split; [congruence|].
      split; [congruence|]. split; [done|].
      intros [|j] Hj; simpl; [done|]. apply Hmin. lia.
    + exists 0%nat, t. simpl. do 5 (split; [done|]). intros j Hj. lia.
Qed.

Lemma evict_until_spec cond (P : list Memento → bool) l t :
  table_holds t l →
  (∀ t' l', table_holds t' l' →
     current_table_bytes_ t' = current_table_bytes_ t →
     max_bytes_ t' = max_bytes_ t → cond t' = P l') →
  P [] = false →
  ∃ (k : nat) t',
    evict_until cond t = Returned t' ∧
    table_holds t' (drop k l) ∧
    current_table_bytes_ t' = current_table_bytes_ t ∧
    max_bytes_ t' = max_bytes_ t ∧
    P (drop k l) = false ∧
    ∀ j : nat, (j < k)%nat → P (drop j l) = true.
Proof.
  intros Ht. unfold evict_until, num_entries.
  destruct Ht as [Hring Hrest]. pose proof Hring as (_ & Hn & _).
  rewrite Hn, Nat2Z.id. apply evict_while_spec. by split.
Qed.


Lemma entries_fit_bytes (n bytes : Z) :
  0 ≤ n → kEntryOverhead * n ≤ bytes → n ≤ EntriesForBytes bytes.
Proof.
  unfold EntriesForBytes, kEntryOverhead. intros Hn Hle.
  apply Z.div_le_lower_bound; lia.
Qed.

Lemma apply_mutation_spec o t l :
  table_holds t l → mutation_in_range o →
  ∃ (k : nat) t',
    apply_mutation o t = Returned t' ∧
    table_holds t' (drop k l ++ retained o t) ∧
    over_bound o t (drop k l) = false ∧
    (∀ j : nat, (j < k)%nat → over_bound o t (drop j l) = true) ∧
    current_table_bytes_ t' =
      match o with
      | DoSetCurrentTableSize b =>
          if max_bytes_ t <? b then current_table_bytes_ t else b
      | _ => current_table_bytes_ t
      end ∧
    max_bytes_ t' =
      match o with DoSetMaxBytes b => b | _ => max_bytes_ t end.
Proof.
  intros Ht Hrange. destruct o as [m| |b|b]; cbn [apply_mutation retained over_bound].
  - (* Add *)
    unfold Add. destruct (Z.ltb_spec (current_table_bytes_ t) (transport_size (md m)))
      as [Hbig|Hfits].
    + unfold AddLargerThanCurrentTableSize.
      destruct (evict_until_spec (λ t, 0 <? num_entries t)
                  (λ l, 0 <? Z.of_nat (length l)) l t Ht)
        as (k & t' & Hrun & Ht' & Hc & Hm & HP & Hmin); [|done|].
      { intros t' l' ((_ & Hn & _) & _) _ _. unfold num_entries. by rewrite Hn. }
      exists k, t'. rewrite Hrun. simpl. rewrite app_nil_r. by split_done.
    + destruct (evict_until_spec
                  (λ t, current_table_bytes_ t <? mem_used_ t + transport_size (md m))
                  (λ l', current_table_bytes_ t <? total_size l' + transport_size (md m))
                  l t Ht)
        as (k & t1 & Hrun & Ht1 & Hc & Hm & HP & Hmin).
      { intros t' l' (_ & Hused & _) Hc _. by rewrite Hc, Hused. }
      { simpl. apply Z.ltb_ge. lia. }
      rewrite Hrun. simpl. apply Z.ltb_ge in HP.
      destruct Ht1 as (Hring & Hused & Hle & Hcur & Hmax & Hcap).
      pose proof (total_size_overhead (drop k l)) as Hov.
      pose proof (transport_size_overhead (md m)) as Hm32.
      destruct (ring_holds_Put (ring t1) (drop k l) m Hring)
        as (rb & Hput & Hring' & HM).
      { destruct Hring as (_ & Hn & _). rewrite Hn, Hcap.
        assert (Z.of_nat (length (drop k l)) + 1 ≤
                EntriesForBytes (current_table_bytes_ t1))
          by (apply entries_fit_bytes; unfold kEntryOverhead in *; lia).
        lia. }
      rewrite Hput. simpl. exists k. eexists. split; [done|].
      split; [|split; [by apply Z.ltb_ge; lia|by split_done]].
      unfold table_holds. cbn [mem_used_ max_bytes_ current_table_bytes_ ring].
      rewrite total_size_app. simpl. rewrite HM, Z.add_0_r.
      split; [done|].
      assert (uint32_t (mem_used_ t1 + transport_size (md m)) =
              total_size (drop k l) + transport_size (md m)) as ->
        by (unfold uint32_t, kEntryOverhead in *; rewrite Z.mod_small; lia).
      repeat split; try done; lia.
  - (* AddLargerThanCurrentTableSize *)
    unfold AddLargerThanCurrentTableSize.
    destruct (evict_until_spec (λ t, 0 <? num_entries t)
                (λ l, 0 <? Z.of_nat (length l)) l t Ht)
      as (k & t' & Hrun & Ht' & Hc & Hm & HP & Hmin); [|done|].
    { intros t' l' ((_ & Hn & _) & _) _ _. unfold num_entries. by rewrite Hn. }
    exists k, t'. rewrite Hrun, app_nil_r. by split_done.
  - (* SetMaxBytes *)
    simpl in Hrange. unfold SetMaxBytes.
    destruct (evict_until_spec (λ t, b <? mem_used_ t) (λ l', b <? total_size l')
                l t Ht)
      as (k & t1 & Hrun & Ht1 & Hc & Hm & HP & Hmin).
    { intros t' l' (_ & Hused & _) _ _. by rewrite Hused. }
    { simpl. apply Z.ltb_ge. lia. }
    rewrite Hrun. simpl. exists k. eexists. split; [done|].
    rewrite app_nil_r. split; [|by split_done].
    destruct Ht1 as (Hring & Hused & Hle & Hcur & Hmax & Hcap).
    by split_done.
  - (* SetCurrentTableSize *)
    simpl in Hrange. unfold SetCurrentTableSize.
    destruct (Z.ltb_spec (max_bytes_ t) b) as [Hrefused|Hok].
    + simpl. exists 0%nat, t. rewrite drop_0, app_nil_r.
      do 3 (split; [done|]). split; [|done]. intros j Hj. lia.
    + destruct (evict_until_spec (λ t, b <? mem_used_ t) (λ l', b <? total_size l')
                  l t Ht)
        as (k & t1 & Hrun & Ht1 & Hc & Hm & HP & Hmin).
      { intros t' l' (_ & Hused & _) _ _. by rewrite Hused. }
      { simpl. apply Z.ltb_ge. lia. }
      rewrite Hrun. simpl. apply Z.ltb_ge in HP.
      destruct Ht1 as (Hring & Hused & Hle & Hcur & Hmax & Hcap).
      pose proof (total_size_overhead (drop k l)) as Hov.
      destruct (ring_holds_Rebuild (ring t1) (drop k l)
                  (Z.max (EntriesForBytes b) kInitialTableEntries) Hring)
        as (rb & Hreb & Hring' & HM).
      { assert (Z.of_nat (length (drop k l)) ≤ EntriesForBytes b)
          by (apply entries_fit_bytes; lia). lia. }
      { assert (0 < kInitialTableEntries) by done. lia. }
      rewrite Hreb. simpl. exists k. eexists. split; [done|].
      rewrite app_nil_r.
      split; [|split; [by apply Z.ltb_ge|by split_done]].
      unfold table_holds. cbn [mem_used_ max_bytes_ current_table_bytes_ ring].
      split; [done|]. repeat split; try done; lia.
Qed.


Lemma apply_mutations_holds os : ∀ t l,
  table_holds t l → Forall mutation_in_range os →
  ∃ t' l',
    apply_mutations os t = Returned t' ∧
    table_holds t' l'.
Proof.
  induction os as [|o os IH]; intros t l Ht Hrange.
  - exists t, l. by split_done.
  - inversion Hrange as [|? ? Ho Hos]; subst.
    destruct (apply_mutation_spec o t l Ht Ho)
      as (k & t1 & Hrun & Ht1 & _).
    destruct (IH t1 _ Ht1 Hos) as (t' & l' & Hrun' & Ht').
    exists t', l'. cbn [apply_mutations]. rewrite Hrun. simpl.
    by split.
Qed.

Lemma reachable_holds os t :
  Forall mutation_in_range os →
  apply_mutations os new_HPackTable = Returned t →
  ∃ l, table_holds t l.
Proof.
  intros Hrange Hrun.
  destruct (apply_mutations_holds os _ _ table_holds_new Hrange)
    as (t' & l & Hrun' & Ht').
  rewrite Hrun in Hrun'. injection Hrun' as <-. by exists l.
Qed.

Lemma table_entry_count_bound t l :
  table_holds t l → Z.of_nat (length l) ≤ 2 ^ 27.
Proof.
  intros ((_ & Hn & HnM & _) & _ & _ & Hcur & _ & Hcap).
  rewrite <- Hn. rewrite Hcap in HnM.
  assert (EntriesForBytes (current_table_bytes_ t) ≤ 2 ^ 27).
  { unfold EntriesForBytes, kEntryOverhead.
    assert ((current_table_bytes_ t + 32 - 1) / 32 < 2 ^ 27 + 1); [|lia].
    apply Z.div_lt_upper_bound; lia. }
  assert (kInitialTableEntries ≤ 2 ^ 27) by (vm_compute; congruence). lia.
Qed.

Section Lookups.
Variable static_mementos : Z → Memento.

Lemma table_holds_Lookup t l (i : nat) m :
  table_holds t l → reverse l !! i = Some m →
  deref static_mementos t (Lookup t (kLastStaticEntry + 1 + Z.of_nat i)) = Some m.
Proof.
  intros Ht Hi. pose proof (table_entry_count_bound t l Ht) as Hbound.
  destruct Ht as (Hring & _).
  assert (i < length l)%nat as Hlt
    by (apply lookup_lt_Some in Hi; by rewrite length_reverse in Hi).
  unfold Lookup, LookupDynamic.
  replace (kLastStaticEntry + 1 + Z.of_nat i <=? kLastStaticEntry) with false
    by (symmetry; apply Z.leb_gt; lia).
  replace (uint32_t _) with (Z.of_nat i)
    by (unfold uint32_t; rewrite Z.mod_small; lia).
  destruct (ring_holds_Lookup _ _ _ _ Hring Hi) as (offset & -> & Hpos & Hm).
  simpl. by replace (0 <=? offset) with true by (symmetry; by apply Z.leb_le).
Qed.

End Lookups.


Lemma Lookup_static_index (static_mementos : Z → Memento) t index :
  1 ≤ index ≤ kLastStaticEntry →
  Lookup t index = static_memento (index - 1) ∧
  deref static_mementos t (Lookup t index) = Some (static_mementos (index - 1)).
Proof.
  intros Hindex. unfold Lookup.
  replace (index <=? kLastStaticEntry) with true
    by (symmetry; apply Z.leb_le; lia).
  replace (uint32_t (index - 1)) with (index - 1)
    by (unfold uint32_t, kLastStaticEntry in *; rewrite Z.mod_small; lia).
  split; [done|]. simpl.
  replace (0 <=? index - 1) with true by (symmetry; apply Z.leb_le; lia).
  by replace (index - 1 <? kLastStaticEntry) with true
    by (symmetry; apply Z.ltb_lt; lia).
Qed.

Lemma Lookup_dynamic_index t index :
  kLastStaticEntry < index < 2 ^ 32 →
  Lookup t index = RingBuffer.Lookup (ring t) (index - (kLastStaticEntry + 1)).
Proof.
  intros Hindex. unfold Lookup, LookupDynamic.
  replace (index <=? kLastStaticEntry) with false
    by (symmetry; apply Z.leb_gt; lia).
  f_equal. unfold uint32_t, kLastStaticEntry in *. apply Z.mod_small. lia.
Qed.

(** *** The unified index space *)

(** C6: an index from 1 to [kLastStaticEntry] (61) is answered with the
    static memento at position [index - 1], whatever the dynamic table
    holds; a larger index is resolved in the ring buffer at
    [index - (kLastStaticEntry + 1)], where the entries are addressed newest
    first: the entry added last is at index 62. *)
Theorem lookup_index_space (static_mementos : Z → Memento) :
  (∀ t index,
     1 ≤ index ≤ kLastStaticEntry →
     Lookup t index = static_memento (index - 1) ∧
     deref static_mementos t (Lookup t index) =
       Some (static_mementos (index - 1))) ∧
  (∀ t index,
     kLastStaticEntry < index < 2 ^ 32 →
     Lookup t index =
       RingBuffer.Lookup (ring t) (index - (kLastStaticEntry + 1))) ∧
  (∀ os t,
     Forall mutation_in_range os →
     apply_mutations os new_HPackTable = Returned t →
     ∀ (i : nat) m,
       reverse (RingBuffer.live_entries (ring t)) !! i = Some m →
       deref static_mementos t (Lookup t (kLastStaticEntry + 1 + Z.of_nat i)) =
         Some m) ∧
  (∀ os t m,
     Forall mutation_in_range os →
     apply_mutations os new_HPackTable = Returned t →
     transport_size (md m) ≤ current_table_bytes_ t →
     ∃ t',
       Add m t = Returned (true, t') ∧
       deref static_mementos t' (Lookup t' (kLastStaticEntry + 1)) = Some m).
Proof.
  split; [|split; [|split]].
  - intros t index Hindex. by apply Lookup_static_index.
  - intros t index Hindex. by apply Lookup_dynamic_index.
  - intros os t Hrange Hrun i m Hi.
    destruct (reachable_holds os t Hrange Hrun) as (l & Ht).
    rewrite (ring_holds_live _ _ (proj1 Ht)) in Hi.
    by apply (table_holds_Lookup static_mementos t l).
  - intros os t m Hrange Hrun Hfits.
    destruct (reachable_holds os t Hrange Hrun) as (l & Ht).
    destruct (apply_mutation_spec (DoAdd m) t l Ht I)
      as (k & t' & Hadd & Ht' & _).
    cbn [apply_mutation retained] in Hadd, Ht'.
    replace (current_table_bytes_ t <? transport_size (md m)) with false in Ht'
      by (symmetry; apply Z.ltb_ge; lia).
    destruct (Add m t) as [[b t'']| |] eqn:HAdd; try done.
    simpl in Hadd. injection Hadd as ->.
    assert (b = true) as ->.
    { unfold Add in HAdd.
      replace (current_table_bytes_ t <? transport_size (md m)) with false in HAdd
        by (symmetry; apply Z.ltb_ge; lia).
      destruct (evict_until _ t) as [t1| |]; try done. simpl in HAdd.
      destruct (RingBuffer.Put m (ring t1)); try done. simpl in HAdd.
      by injection HAdd as <- _. }
    exists t'. split; [done|].
    pose proof (table_holds_Lookup static_mementos t' _ 0%nat m Ht') as Hlook.
    rewrite Z.add_0_r in Hlook. apply Hlook.
    by rewrite reverse_app.
Qed.


(** *** Indices without an entry *)

(** C7, as amended: an index above [kLastStaticEntry] whose dynamic offset
    is not below [num_entries] (the entry was evicted, or was never there)
    is answered with the null pointer; and on every table that mutations
    produce, the answer to an index from 1 up is null or points at an
    entry inside the array it was computed from.  Index 0 is left aside. *)
Theorem lookup_not_found (static_mementos : Z → Memento) :
  (∀ t index,
     kLastStaticEntry < index < 2 ^ 32 →
     num_entries t ≤ index - (kLastStaticEntry + 1) →
     Lookup t index = null_memento) ∧
  (∀ os t,
     Forall mutation_in_range os →
     apply_mutations os new_HPackTable = Returned t →
     ∀ index,
       1 ≤ index < 2 ^ 32 →
       Lookup t index = null_memento ∨
       is_Some (deref static_mementos t (Lookup t index))).
Proof.
  split.
  - intros t index Hindex Hbeyond.
    rewrite (Lookup_dynamic_index t index Hindex).
    by apply ring_Lookup_beyond.
  - intros os t Hrange Hrun index Hindex.
    destruct (Z.le_gt_cases index kLastStaticEntry) as [Hstatic|Hdynamic].
    + right.
      destruct (Lookup_static_index static_mementos t index) as [_ ->];
        [lia|done].
    + destruct (Z.le_gt_cases (num_entries t) (index - (kLastStaticEntry + 1)))
        as [Hbeyond|Hlive].
      * left.
        rewrite (Lookup_dynamic_index t index) by lia.
        by apply ring_Lookup_beyond.
      * right. destruct (reachable_holds os t Hrange Hrun) as (l & Ht).
        pose proof Ht as ((_ & Hn & _) & _). unfold num_entries in Hlive.
        set (i := Z.to_nat (index - (kLastStaticEntry + 1))).
        destruct (lookup_lt_is_Some_2 (reverse l) i) as [m Hm].
        { rewrite length_reverse. subst i. lia. }
        pose proof (table_holds_Lookup static_mementos t l i m Ht Hm) as Hlook.
        replace (kLastStaticEntry + 1 + Z.of_nat i) with index in Hlook
          by (subst i; lia).
        by rewrite Hlook.
Qed.


(** *** Concrete tables *)

(** The scenario of the spec: 41 entries of 100 bytes do not fit 4096
    bytes; the oldest one is evicted. *)
Example table_after_41_adds :
  ∃ t,
    apply_mutations
      (map (λ _, DoAdd (example_entry "a")) (seq 0 41)) new_HPackTable =
      Returned t ∧
    num_entries t = 40 ∧ mem_used_ t = 4000 ∧ first_entry_ (ring t) = 1.
Proof. eexists. split; [vm_compute; reflexivity|]. by vm_compute. Qed.

(** Index 0 is taken for a static index: the answer is not null, and it
    points before the static array. *)
Lemma Lookup_zero_is_not_null :
  Lookup new_HPackTable 0 = static_memento 4294967295 ∧
  Lookup new_HPackTable 0 ≠ null_memento ∧
  deref example_static_mementos new_HPackTable (Lookup new_HPackTable 0) = None.
Proof. split; [|split]; [by vm_compute|by vm_compute|by vm_compute]. Qed.

Lemma lookup_index_space_witness :
  Lookup new_HPackTable 2 = static_memento 1 ∧
  ∃ t',
    Add (example_entry "a") new_HPackTable = Returned (true, t') ∧
    deref example_static_mementos t' (Lookup t' 62) =
      Some (example_entry "a").
Proof.
  split.
  - apply (proj1 (lookup_index_space example_static_mementos) new_HPackTable 2).
    vm_compute. split; congruence.
  - apply (proj2 (proj2 (proj2 (lookup_index_space example_static_mementos)))
             [] new_HPackTable (example_entry "a")).
    + constructor.
    + reflexivity.
    + vm_compute. congruence.
Defined.

Lemma lookup_not_found_witness :
  kLastStaticEntry < 62 < 2 ^ 32 ∧
  num_entries new_HPackTable ≤ 62 - (kLastStaticEntry + 1) ∧
  Lookup new_HPackTable 62 = null_memento.
Proof.
  assert (kLastStaticEntry < 62 < 2 ^ 32) as H1 by (vm_compute; split; reflexivity).
  assert (num_entries new_HPackTable ≤ 62 - (kLastStaticEntry + 1)) as H2
    by (vm_compute; congruence).
  split; [exact H1|]. split; [exact H2|].
  exact (proj1 (lookup_not_found example_static_mementos) new_HPackTable 62 H1 H2).
Defined.

End HPack.

(** ** Graceful GOAWAY ([graceful_shutdown_test.cc]) *)

Module GracefulShutdown.

(** The frames the test writes and waits for. *)
Inductive frame :=
| GOAWAY (last_stream_id error_code : Z) (message : string)
| PING (ack : bool) (opaque : Z)
| HEADERS (stream_id : Z).

(** What happens to the server side of the connection: the two surface
    calls of the test, a frame from the client, and time passing. *)
Inductive input :=
| shutdown_and_notify
| cancel_all_calls
| receive (f : frame)
| elapse (ms : Z).

Inductive phase :=
| Serving
| AwaitingPingAck (opaque deadline : Z)
| FinalGoawaySent.

Record connection := {
  state : phase;
  now : Z;
  last_stream_id : Z;
  accepted : list Z;
  next_ping : Z;
  sent : list (Z * frame);
  closed : bool
}.

(** [GRPC_ARG_PING_TIMEOUT_MS] in the server's channel args of the test. *)
Definition kPingTimeoutMs : Z := 2000.

(** [(1u << 31) - 1], the last stream id of the first GOAWAY. *)
Definition kMaxStreamId : Z := 2 ^ 31 - 1.

Definition new_connection : connection :=
  {| state := Serving; now := 0; last_stream_id := 0; accepted := [];
     next_ping := 0; sent := []; closed := false |}.

(** Modelled from the spec: the transport that sends the GOAWAY frames
    ([chttp2_transport.cc]) is missing; only its test is among the sources.
    The spec: when shutdown begins, a GOAWAY with the unbounded stream id
    and a ping are sent; once the ping is acknowledged or a fixed timeout
    of about 2 seconds elapses, whichever is first, a second GOAWAY with
    the highest accepted stream id is sent and the connection closes;
    streams begun before the second GOAWAY are accepted, later ones are
    ignored; a forced teardown sends one GOAWAY with a cancellation error
    code and stream id 0.  The error codes and messages are those the test
    waits for. *)
Definition final_goaway (at_time : Z) (c : connection) : connection :=
  {| state := FinalGoawaySent;
     now := now c;
     last_stream_id := last_stream_id c;
     accepted := accepted c;
     next_ping := next_ping c;
     sent := sent c ++ [(at_time, GOAWAY (last_stream_id c) 0 "Server shutdown")];
     closed := true |}.

Definition advance (ms : Z) (c : connection) : connection :=
  {| state := state c;
     now := now c + ms;
     last_stream_id := last_stream_id c;
     accepted := accepted c;
     next_ping := next_ping c;
     sent := sent c;
     closed := closed c |}.

Definition step (c : connection) (i : input) : connection :=
  match i with
  | shutdown_and_notify =>
      match state c with
      | Serving =>
          {| state := AwaitingPingAck (next_ping c) (now c + kPingTimeoutMs);
             now := now c;
             last_stream_id := last_stream_id c;
             accepted := accepted c;
             next_ping := next_ping c + 1;
             sent := sent c ++
                     [(now c, GOAWAY kMaxStreamId 0 "Server shutdown");
                      (now c, PING false (next_ping c))];
             closed := closed c |}
      | _ => c
      end
  | cancel_all_calls =>
      if closed c then c
      else
        {| state := FinalGoawaySent;
           now := now c;
           last_stream_id := last_stream_id c;
           accepted := accepted c;
           next_ping := next_ping c;
           sent := sent c ++ [(now c, GOAWAY 0 2 "Cancelling all calls")];
           closed := true |}
  | receive (PING true opaque) =>
      match state c with
      | AwaitingPingAck awaited _ =>
          if opaque =? awaited then final_goaway (now c) c else c
      | _ => c
      end
  | receive (HEADERS stream_id) =>
      match state c with
      | FinalGoawaySent => c
      | _ =>
          {| state := state c;
             now := now c;
             last_stream_id := Z.max (last_stream_id c) stream_id;
             accepted := accepted c ++ [stream_id];
             next_ping := next_ping c;
             sent := sent c;
             closed := closed c |}
      end
  | receive _ => c
  | elapse ms =>
      match state c with
      | AwaitingPingAck _ deadline =>
          if deadline <=? now c + ms
          then advance ms (final_goaway deadline c)
          else advance ms c
      | _ => advance ms c
      end
  end.

Definition run (c : connection) (inputs : list input) : connection :=
  foldl step c inputs.



(** The frames sent, without the times. *)
Definition frames (c : connection) : list frame := (sent c).*2.


(** *** While the ping is outstanding *)


(** *** The graceful GOAWAY *)


(** *** The scenarios of the test *)

(** [GracefulGoaway]: shutdown, then the client acknowledges the ping. *)
Example GracefulGoaway :
  frames (run new_connection [shutdown_and_notify; receive (PING true 0)]) =
  [GOAWAY (2 ^ 31 - 1) 0 "Server shutdown"; PING false 0;
   GOAWAY 0 0 "Server shutdown"].
Proof. reflexivity. Qed.

(** [RequestStartedBeforeFinalGoaway]: stream 1 starts before the ping is
    acknowledged; the final GOAWAY carries last stream id 1. *)
Example RequestStartedBeforeFinalGoaway :
  frames (run new_connection
            [shutdown_and_notify; receive (HEADERS 1); receive (PING true 0)]) =
  [GOAWAY (2 ^ 31 - 1) 0 "Server shutdown"; PING false 0;
   GOAWAY 1 0 "Server shutdown"].
Proof. reflexivity. Qed.

(** [RequestStartedAfterFinalGoawayIsIgnored]: stream 3 arrives after the
    final GOAWAY and is not accepted. *)
Example RequestStartedAfterFinalGoawayIsIgnored :
  accepted (run new_connection
              [receive (HEADERS 1); shutdown_and_notify; receive (PING true 0);
               receive (HEADERS 3)]) = [1] ∧
  frames (run new_connection
            [receive (HEADERS 1); shutdown_and_notify; receive (PING true 0);
             receive (HEADERS 3)]) =
  [GOAWAY (2 ^ 31 - 1) 0 "Server shutdown"; PING false 0;
   GOAWAY 1 0 "Server shutdown"].
Proof. split; reflexivity. Qed.

(** [UnresponsiveClient]: no acknowledgement; the final GOAWAY is sent
    2000 ms after the shutdown began and the connection closes. *)
Example UnresponsiveClient :
  sent (run new_connection [shutdown_and_notify; elapse 1500; elapse 700]) =
  [(0, GOAWAY (2 ^ 31 - 1) 0 "Server shutdown"); (0, PING false 0);
   (2000, GOAWAY 0 0 "Server shutdown")] ∧
  closed (run new_connection [shutdown_and_notify; elapse 1500; elapse 700]) = true.
Proof. split; reflexivity. Qed.

(** [GoawayReceivedOnServerDisconnect]: a forced teardown. *)
Example GoawayReceivedOnServerDisconnect :
  frames (run new_connection [shutdown_and_notify; cancel_all_calls]) =
  [GOAWAY (2 ^ 31 - 1) 0 "Server shutdown"; PING false 0;
   GOAWAY 0 2 "Cancelling all calls"].
Proof. reflexivity. Qed.


End GracefulShutdown.

(** ** The read side of the graceful-shutdown test fixture

    The helpers of [GracefulShutdownTest] in
    [test/core/transport/chttp2/graceful_shutdown_test.cc] that collect
    and consume the bytes the server sends. *)

Module Fixture.

(** [uint8_t] and [uint64_t]; a [char] is any integer the platform's [char]
    can hold, signed or not. *)
Definition uint8_t (c : Z) : Z := c mod 2 ^ 8.
Definition uint64_t (x : Z) : Z := x mod 2 ^ 64.

(** How a helper of the fixture ends: it returns, a [CHECK] aborts the
    process, a [std::out_of_range] is thrown, or it waits for ever. *)
Inductive result (A : Type) : Type :=
| Returned (a : A)
| CheckFailed
| Threw
| Blocked.
Arguments Returned {A} a.
Arguments CheckFailed {A}.
Arguments Threw {A}.
Arguments Blocked {A}.

#[global] Instance result_ret : MRet result := @Returned.
#[global] Instance result_bind : MBind result := λ A B k m,
  match m with
  | Returned a => k a
  | CheckFailed => CheckFailed
  | Threw => Threw
  | Blocked => Blocked
  end.

(** [std::string] operations, on strings as lists of [char]. *)
Fixpoint starts_with (s prefix : list Z) {struct prefix} : bool :=
  match prefix, s with
  | [], _ => true
  | _ :: _, [] => false
  | c :: prefix', d :: s' => (c =? d) && starts_with s' prefix'
  end.

(** [s.find(pattern)]: the position of the first occurrence, [None] for
    [npos]. *)
Fixpoint find (s pattern : list Z) : option nat :=
  if starts_with s pattern then Some 0%nat
  else match s with
       | [] => None
       | _ :: s' => S <$> find s' pattern
       end.

(** [s.substr(pos)], which throws when [pos > s.size()]. *)
Definition substr (s : list Z) (pos : nat) : result (list Z) :=
  if (pos <=? length s)%nat then Returned (drop pos s) else Threw.

(** [s.substr(pos, n)]. *)
Definition substr_n (s : list Z) (pos n : nat) : result (list Z) :=
  if (pos <=? length s)%nat then Returned (take n (drop pos s)) else Threw.

(** The fixture, as far as reading goes: [read_bytes_], the slice buffers
    of the reads that are still to complete while a helper waits, and the
    failures the test framework has recorded. *)
Record fixture := {
  read_bytes_ : list Z;
  pending_reads : list (list (list Z));
  failures : list string
}.

(** [OnReadDone] with an OK status: every slice of [read_buffer_] is
    appended to [read_bytes_]. *)
Definition OnReadDone (read_buffer_ : list (list Z)) (read_bytes : list Z)
  : list Z :=
  foldl (λ acc slice, acc ++ slice) read_bytes read_buffer_.

(** The loop of [WaitForReadBytes]: each wait on [read_cv_] lets the next
    read complete; when no read is left, the 60 seconds run out, and the
    [ASSERT_LT] records a failure and returns from the helper. *)
Fixpoint WaitForReadBytes_loop (bytes : list Z) (failed : list string)
    (pending : list (list (list Z))) (read_bytes : list Z) : result fixture :=
  match find read_bytes bytes with
  | Some where_ =>
      rest ← substr read_bytes (where_ + length bytes);
      mret {| read_bytes_ := rest; pending_reads := pending;
              failures := failed |}
  | None =>
      match pending with
      | [] =>
          mret {| read_bytes_ := read_bytes; pending_reads := [];
                  failures := failed ++ ["Timeout reading bytes"] |}
      | read_buffer :: pending' =>
          WaitForReadBytes_loop bytes failed pending'
            (OnReadDone read_buffer read_bytes)
      end
  end.

Definition WaitForReadBytes (bytes : list Z) (t : fixture) : result fixture :=
  WaitForReadBytes_loop bytes (failures t) (pending_reads t) (read_bytes_ t).

(** The loop of [WaitForNBytes]; its [EXPECT_LT] does not leave the
    helper, so the loop goes on for ever when no read is left. *)
Fixpoint WaitForNBytes_loop (bytes : nat) (failed : list string)
    (pending : list (list (list Z))) (read_bytes : list Z)
  : result (list Z * fixture) :=
  if (length read_bytes <? bytes)%nat then
    match pending with
    | [] => Blocked
    | read_buffer :: pending' =>
        WaitForNBytes_loop bytes failed pending'
          (OnReadDone read_buffer read_bytes)
    end
  else
    result ← substr_n read_bytes 0 bytes;
    rest ← substr read_bytes bytes;
    mret (result, {| read_bytes_ := rest; pending_reads := pending;
                     failures := failed |}).

Definition WaitForNBytes (bytes : nat) (t : fixture)
  : result (list Z * fixture) :=
  WaitForNBytes_loop bytes (failures t) (pending_reads t) (read_bytes_ t).

(** The value [WaitForPing] returns for the 8 payload bytes [ping]. *)
Definition ping_byte (ping : list Z) (i : nat) (shift : Z) : Z :=
  uint64_t (Z.shiftl (uint64_t (uint8_t (nth i ping 0))) shift).

Definition opaque_data_of (ping : list Z) : Z :=
  Z.lor (Z.lor (Z.lor (Z.lor (Z.lor (Z.lor (Z.lor
    (ping_byte ping 0 56)
    (ping_byte ping 1 48))
    (ping_byte ping 2 40))
    (ping_byte ping 3 32))
    (ping_byte ping 4 24))
    (ping_byte ping 5 16))
    (ping_byte ping 6 8))
    (uint64_t (uint8_t (nth 7 ping 0))).

(** [WaitForPing]; [whole_ping] is the frame [grpc_chttp2_ping_create(0, 0)]
    builds.  A timeout in [WaitForReadBytes] leaves that helper only: the
    payload is read all the same. *)
Definition WaitForPing (whole_ping : list Z) (t : fixture)
  : result (Z * fixture) :=
  if negb (length whole_ping =? 9 + 8)%nat then CheckFailed
  else
    header ← substr_n whole_ping 0 9;
    t1 ← WaitForReadBytes header t;
    '(ping, t2) ← WaitForNBytes 8 t1;
    mret (opaque_data_of ping, t2).

(** *** Quantities the statements below are phrased with *)

(** All the bytes the fixture has read or is still to read. *)
Definition stream (t : fixture) : list Z :=
  read_bytes_ t ++ mjoin (mjoin (pending_reads t)).

(** The number a sequence of bytes denotes in network byte order. *)
Definition big_endian_value (bs : list Z) : Z :=
  foldl (λ acc b, acc * 256 + b mod 256) 0 bs.

(** The 8 bytes of a 64-bit number in network byte order. *)
Definition big_endian_bytes (x : Z) : list Z :=
  [ x / 2 ^ 56 mod 256; x / 2 ^ 48 mod 256; x / 2 ^ 40 mod 256;
    x / 2 ^ 32 mod 256; x / 2 ^ 24 mod 256; x / 2 ^ 16 mod 256;
    x / 2 ^ 8 mod 256; x mod 256 ].

(** A fixture that has read two bytes, with two reads to come: a ping
    header, an 8-byte payload split over the reads, and one more byte. *)
Definition example_whole_ping : list Z :=
  [0; 0; 8; 6; 0; 0; 0; 0; 0; 0; 0; 0; 0; 0; 0; 0; 0].

Definition example_fixture : fixture :=
  {| read_bytes_ := [7; 7];
     pending_reads :=
       [ [[0; 0; 8]; [6; 0; 0; 0; 0; 0; 1; 2]];
         [[3; 4; 5]; []; [6; 7; 248; 9]] ];
     failures := [] |}.

(** *** Searching *)

Lemma starts_with_length s p : starts_with s p = true → (length p ≤ length s)%nat.
Proof.
  revert s. induction p as [|c p IH]; intros s; simpl; [lia|].
  destruct s as [|d s]; [done|].
  intros [_ Hp]%andb_prop. specialize (IH s Hp). simpl. lia.
Qed.

Lemma starts_with_app s t p :
  starts_with s p = true → starts_with (s ++ t) p = true.
Proof.
  revert s. induction p as [|c p IH]; intros s; simpl; [done|].
  destruct s as [|d s]; [done|]. simpl.
  intros [Hc Hp]%andb_prop. rewrite Hc. simpl. by apply IH.
Qed.

Lemma starts_with_app_false s t p :
  starts_with s p = false → (length p ≤ length s)%nat →
  starts_with (s ++ t) p = false.
Proof.
  revert s. induction p as [|c p IH]; intros s; simpl; [done|].
  destruct s as [|d s]; simpl; [lia|].
  intros Hf Hlen. apply andb_false_iff in Hf as [Hc|Hp].
  - by rewrite Hc.
  - rewrite (IH s Hp) by lia. apply andb_false_r.
Qed.

Lemma find_bound s p w : find s p = Some w → (w + length p ≤ length s)%nat.
Proof.
  revert w. induction s as [|d s IH]; intros w; simpl.
  - destruct (starts_with [] p) eqn:Hp; [|done].
    intros [= <-]. apply starts_with_length in Hp. simpl in *. lia.
  - destruct (starts_with (d :: s) p) eqn:Hp.
    + intros [= <-]. apply starts_with_length in Hp. simpl in *. lia.
    + destruct (find s p) as [w'|] eqn:Hw; [|done].
      intros [= <-]. specialize (IH w' eq_refl). lia.
Qed.

Lemma find_app s t p w : find s p = Some w → find (s ++ t) p = Some w.
Proof.
  revert w. induction s as [|d s IH]; intros w.
  - simpl. destruct (starts_with [] p) eqn:Hp; [|done].
    intros [= <-]. destruct p; [|done]. by destruct t.
  - intros Hw. pose proof (find_bound _ _ _ Hw) as Hb. simpl in Hw.
    change ((d :: s) ++ t) with (d :: (s ++ t)). cbn [find].
    destruct (starts_with (d :: s) p) eqn:Hp.
    + injection Hw as <-.
      change (d :: (s ++ t)) with ((d :: s) ++ t).
      by rewrite (starts_with_app _ t _ Hp).
    + destruct (find s p) as [w'|] eqn:Hw'; [|done]. injection Hw as <-.
      pose proof (find_bound _ _ _ Hw') as Hb'.
      change (d :: (s ++ t)) with ((d :: s) ++ t).
      rewrite (starts_with_app_false _ t _ Hp) by (simpl; lia).
      by rewrite (IH w' eq_refl).
Qed.

Lemma find_app_None s t p : find (s ++ t) p = None → find s p = None.
Proof.
  intros Hn. destruct (find s p) as [w|] eqn:Hw; [|done].
  by rewrite (find_app _ t _ _ Hw) in Hn.
Qed.

Lemma find_at pre p post :
  (∀ w, find (pre ++ p ++ post) p = Some w → (length pre ≤ w)%nat) →
  find (pre ++ p ++ post) p = Some (length pre).
Proof.
  induction pre as [|d pre IH]; intros Hfirst.
  - simpl. destruct (p ++ post) eqn:Heq.
    + destruct p; [done|done].
    + simpl. rewrite <- Heq.
      assert (starts_with (p ++ post) p = true) as ->; [|done].
      clear. induction p as [|c p IH]; [by destruct post|].
      simpl. by rewrite Z.eqb_refl.
  - change ((d :: pre) ++ p ++ post) with (d :: (pre ++ p ++ post)) in *.
    cbn [find] in *.
    destruct (starts_with (d :: pre ++ p ++ post) p) eqn:Hp.
    + specialize (Hfirst 0%nat eq_refl). simpl in Hfirst. lia.
    + rewrite IH; [done|]. intros w Hw. rewrite Hw in Hfirst.
      specialize (Hfirst (S w) eq_refl). simpl in Hfirst. lia.
Qed.

Lemma OnReadDone_mjoin read_buffer read_bytes :
  OnReadDone read_buffer read_bytes = read_bytes ++ mjoin read_buffer.
Proof.
  unfold OnReadDone. revert read_bytes.
  induction read_buffer as [|slice rb IH]; intros read_bytes; simpl.
  - by rewrite app_nil_r.
  - by rewrite IH, app_assoc.
Qed.

Lemma pending_cons (read_bytes : list Z) rb (pending : list (list (list Z))) :
  read_bytes ++ mjoin (mjoin (rb :: pending)) =
  (read_bytes ++ mjoin rb) ++ mjoin (mjoin pending).
Proof.
  change (mjoin (rb :: pending)) with (rb ++ mjoin pending).
  by rewrite join_app, app_assoc.
Qed.

Lemma WaitForReadBytes_loop_found bytes failed pending :
  ∀ read_bytes w,
    find (read_bytes ++ mjoin (mjoin pending)) bytes = Some w →
    ∃ t',
      WaitForReadBytes_loop bytes failed pending read_bytes = Returned t' ∧
      failures t' = failed ∧
      stream t' =
        drop (w + length bytes) (read_bytes ++ mjoin (mjoin pending)).
Proof.
  induction pending as [|rb pending IH]; intros read_bytes w Hw.
  - simpl in Hw. rewrite app_nil_r in Hw. simpl. rewrite Hw.
    pose proof (find_bound _ _ _ Hw) as Hb. unfold substr.
    rewrite (proj2 (Nat.leb_le _ _) Hb). eexists. split; [reflexivity|].
    split; [done|]. unfold stream. simpl. by rewrite !app_nil_r.
  - cbn [WaitForReadBytes_loop].
    destruct (find read_bytes bytes) as [w0|] eqn:Hw0.
    + pose proof (find_app _ (mjoin (mjoin (rb :: pending))) _ _ Hw0) as Hw'.
      rewrite Hw in Hw'. injection Hw' as ->.
      pose proof (find_bound _ _ _ Hw0) as Hb. unfold substr.
      rewrite (proj2 (Nat.leb_le _ _) Hb). eexists. split; [reflexivity|].
      split; [done|]. unfold stream. cbn [read_bytes_ pending_reads].
      by rewrite drop_app_le.
    + rewrite OnReadDone_mjoin. rewrite pending_cons in *. by apply IH.
Qed.

Lemma WaitForReadBytes_loop_missing bytes failed pending :
  ∀ read_bytes,
    find (read_bytes ++ mjoin (mjoin pending)) bytes = None →
    WaitForReadBytes_loop bytes failed pending read_bytes =
      Returned {| read_bytes_ := read_bytes ++ mjoin (mjoin pending);
                  pending_reads := [];
                  failures := failed ++ ["Timeout reading bytes"] |}.
Proof.
  induction pending as [|rb pending IH]; intros read_bytes Hn.
  - simpl in Hn. rewrite app_nil_r in Hn. simpl. rewrite Hn.
    by rewrite app_nil_r.
  - cbn [WaitForReadBytes_loop]. rewrite (find_app_None _ _ _ Hn).
    rewrite OnReadDone_mjoin, pending_cons. apply IH.
    by rewrite <- pending_cons.
Qed.

Lemma WaitForNBytes_loop_enough bytes failed pending :
  ∀ read_bytes,
    (bytes ≤ length (read_bytes ++ mjoin (mjoin pending)))%nat →
    ∃ t',
      WaitForNBytes_loop bytes failed pending read_bytes =
        Returned
          (take bytes (read_bytes ++ mjoin (mjoin pending)), t') ∧
      failures t' = failed ∧
      stream t' = drop bytes (read_bytes ++ mjoin (mjoin pending)).
Proof.
  induction pending as [|rb pending IH]; intros read_bytes Hlen.
  - simpl in Hlen. rewrite app_nil_r in Hlen. simpl.
    rewrite (proj2 (Nat.ltb_ge _ _) Hlen). unfold substr_n, substr. simpl.
    rewrite (proj2 (Nat.leb_le _ _) Hlen). eexists. split.
    + unfold mbind, result_bind, mret, result_ret. by rewrite !app_nil_r.
    + split; [done|]. unfold stream. simpl. by rewrite !app_nil_r.
  - cbn [WaitForNBytes_loop].
    destruct (length read_bytes <? bytes)%nat eqn:Hlt.
    + rewrite OnReadDone_mjoin. rewrite pending_cons in *. by apply IH.
    + apply Nat.ltb_ge in Hlt. unfold substr_n, substr. simpl.
      rewrite (proj2 (Nat.leb_le _ _) Hlt). eexists. split.
      * unfold mbind, result_bind, mret, result_ret.
        by rewrite take_app_le.
      * split; [done|]. unfold stream. cbn [read_bytes_ pending_reads].
        by rewrite drop_app_le.
Qed.

Lemma WaitForNBytes_loop_short bytes failed pending :
  ∀ read_bytes,
    (length (read_bytes ++ mjoin (mjoin pending)) < bytes)%nat →
    WaitForNBytes_loop bytes failed pending read_bytes = Blocked.
Proof.
  induction pending as [|rb pending IH]; intros read_bytes Hlen.
  - simpl in Hlen. rewrite app_nil_r in Hlen. simpl.
    by rewrite (proj2 (Nat.ltb_lt _ _) Hlen).
  - cbn [WaitForNBytes_loop].
    assert (length read_bytes < bytes)%nat as Hlt
      by (rewrite length_app in Hlen; lia).
    rewrite (proj2 (Nat.ltb_lt _ _) Hlt), OnReadDone_mjoin. apply IH.
    by rewrite <- pending_cons.
Qed.

(** *** The opaque data of a ping *)

Lemma land_shifted hi lo k :
  0 ≤ k → 0 ≤ lo < 2 ^ k → Z.land (hi * 2 ^ k) lo = 0.
Proof.
  intros Hk Hlo. apply Z.bits_inj'. intros n Hn.
  rewrite Z.land_spec, Z.bits_0. destruct (Z.lt_ge_cases n k).
  - by rewrite Z.mul_pow2_bits_low by lia.
  - rewrite <- (Z.mod_small lo (2 ^ k)) by lia.
    rewrite Z.mod_pow2_bits_high by lia. apply andb_false_r.
Qed.

Lemma lor_shifted hi lo k :
  0 ≤ k → 0 ≤ lo < 2 ^ k → Z.lor (hi * 2 ^ k) lo = hi * 2 ^ k + lo.
Proof.
  intros Hk Hlo. rewrite <- Z.add_lor_land, land_shifted by done. lia.
Qed.

Lemma uint8_t_range c : 0 ≤ uint8_t c < 256.
Proof. unfold uint8_t. apply Z.mod_pos_bound. lia. Qed.

Lemma ping_byte_value ping i shift :
  0 ≤ shift ≤ 56 →
  ping_byte ping i shift = uint8_t (nth i ping 0) * 2 ^ shift.
Proof.
  intros Hs. unfold ping_byte.
  pose proof (uint8_t_range (nth i ping 0)) as Hb.
  assert (0 < 2 ^ shift ≤ 2 ^ 56) as Hp.
  { split; [apply Z.pow_pos_nonneg; lia|apply Z.pow_le_mono_r; lia]. }
  unfold uint64_t at 2. rewrite Z.mod_small by lia.
  rewrite Z.shiftl_mul_pow2 by lia. unfold uint64_t.
  apply Z.mod_small. nia.
Qed.

Lemma opaque_data_of_value p0 p1 p2 p3 p4 p5 p6 p7 :
  opaque_data_of [p0; p1; p2; p3; p4; p5; p6; p7] =
  uint8_t p0 * 2 ^ 56 + uint8_t p1 * 2 ^ 48 + uint8_t p2 * 2 ^ 40 +
  uint8_t p3 * 2 ^ 32 + uint8_t p4 * 2 ^ 24 + uint8_t p5 * 2 ^ 16 +
  uint8_t p6 * 2 ^ 8 + uint8_t p7.
Proof.
  unfold opaque_data_of. rewrite !ping_byte_value by lia. cbn [nth].
  pose proof (uint8_t_range p0). pose proof (uint8_t_range p1).
  pose proof (uint8_t_range p2). pose proof (uint8_t_range p3).
  pose proof (uint8_t_range p4). pose proof (uint8_t_range p5).
  pose proof (uint8_t_range p6). pose proof (uint8_t_range p7).
  unfold uint64_t. rewrite (Z.mod_small (uint8_t p7)) by lia.
  rewrite lor_shifted by lia.
  replace (uint8_t p0 * 2 ^ 56 + uint8_t p1 * 2 ^ 48)
    with ((uint8_t p0 * 2 ^ 8 + uint8_t p1) * 2 ^ 48) by lia.
  rewrite lor_shifted by lia.
  replace ((uint8_t p0 * 2 ^ 8 + uint8_t p1) * 2 ^ 48 + uint8_t p2 * 2 ^ 40)
    with ((uint8_t p0 * 2 ^ 16 + uint8_t p1 * 2 ^ 8 + uint8_t p2) * 2 ^ 40) by lia.
  rewrite lor_shifted by lia.
  replace ((uint8_t p0 * 2 ^ 16 + uint8_t p1 * 2 ^ 8 + uint8_t p2) * 2 ^ 40 + uint8_t p3 * 2 ^ 32)
    with ((uint8_t p0 * 2 ^ 24 + uint8_t p1 * 2 ^ 16 + uint8_t p2 * 2 ^ 8 + uint8_t p3) * 2 ^ 32) by lia.
  rewrite lor_shifted by lia.
  replace ((uint8_t p0 * 2 ^ 24 + uint8_t p1 * 2 ^ 16 + uint8_t p2 * 2 ^ 8 + uint8_t p3) * 2 ^ 32 + uint8_t p4 * 2 ^ 24)
    with ((uint8_t p0 * 2 ^ 32 + uint8_t p1 * 2 ^ 24 + uint8_t p2 * 2 ^ 16 + uint8_t p3 * 2 ^ 8 + uint8_t p4) * 2 ^ 24) by lia.
  rewrite lor_shifted by lia.
  replace ((uint8_t p0 * 2 ^ 32 + uint8_t p1 * 2 ^ 24 + uint8_t p2 * 2 ^ 16 + uint8_t p3 * 2 ^ 8 + uint8_t p4) * 2 ^ 24 + uint8_t p5 * 2 ^ 16)
    with ((uint8_t p0 * 2 ^ 40 + uint8_t p1 * 2 ^ 32 + uint8_t p2 * 2 ^ 24 + uint8_t p3 * 2 ^ 16 + uint8_t p4 * 2 ^ 8 + uint8_t p5) * 2 ^ 16) by lia.
  rewrite lor_shifted by lia.
  replace ((uint8_t p0 * 2 ^ 40 + uint8_t p1 * 2 ^ 32 + uint8_t p2 * 2 ^ 24 + uint8_t p3 * 2 ^ 16 + uint8_t p4 * 2 ^ 8 + uint8_t p5) * 2 ^ 16 + uint8_t p6 * 2 ^ 8)
    with ((uint8_t p0 * 2 ^ 48 + uint8_t p1 * 2 ^ 40 + uint8_t p2 * 2 ^ 32 + uint8_t p3 * 2 ^ 24 + uint8_t p4 * 2 ^ 16 + uint8_t p5 * 2 ^ 8 + uint8_t p6) * 2 ^ 8) by lia.
  rewrite lor_shifted by lia. lia.
Qed.

Lemma eight_bytes (ping : list Z) :
  length ping = 8%nat →
  ∃ p0 p1 p2 p3 p4 p5 p6 p7, ping = [p0; p1; p2; p3; p4; p5; p6; p7].
Proof.
  intros Hlen.
  do 8 (destruct ping as [|? ping]; [discriminate|]).
  destruct ping; [|discriminate]. by eexists _, _, _, _, _, _, _, _.
Qed.

Lemma opaque_data_of_big_endian ping :
  length ping = 8%nat → opaque_data_of ping = big_endian_value ping.
Proof.
  intros (p0 & p1 & p2 & p3 & p4 & p5 & p6 & p7 & ->)%eight_bytes.
  rewrite opaque_data_of_value. unfold big_endian_value, uint8_t.
  cbn [foldl]. change (2 ^ 8) with 256. lia.
Qed.

(** The value [WaitForPing] computes from the 8 payload bytes is the
    number they denote in network byte order, whether [char] is signed or
    not; it is a [uint64_t]; and it determines the bytes: writing it back
    in network byte order gives the payload, so two payloads with the same
    value are the same bytes. *)
Theorem opaque_data_is_big_endian ping :
  length ping = 8%nat →
  opaque_data_of ping = big_endian_value ping ∧
  0 ≤ opaque_data_of ping < 2 ^ 64 ∧
  opaque_data_of (map (λ c, c - 256) ping) = opaque_data_of ping ∧
  big_endian_bytes (opaque_data_of ping) = map uint8_t ping ∧
  ∀ ping', length ping' = 8%nat →
    opaque_data_of ping' = opaque_data_of ping →
    map uint8_t ping' = map uint8_t ping.
Proof.
  intros Hlen.
  assert (∀ q, length q = 8%nat →
            0 ≤ opaque_data_of q < 2 ^ 64 ∧
            big_endian_bytes (opaque_data_of q) = map uint8_t q) as Hbytes.
  { intros q (p0 & p1 & p2 & p3 & p4 & p5 & p6 & p7 & ->)%eight_bytes.
    rewrite opaque_data_of_value.
    pose proof (uint8_t_range p0). pose proof (uint8_t_range p1).
    pose proof (uint8_t_range p2). pose proof (uint8_t_range p3).
    pose proof (uint8_t_range p4). pose proof (uint8_t_range p5).
    pose proof (uint8_t_range p6). pose proof (uint8_t_range p7).
    split; [lia|]. unfold big_endian_bytes. cbn [map].
    repeat f_equal; Z.div_mod_to_equations; lia. }
  split; [by apply opaque_data_of_big_endian|].
  split; [by apply Hbytes|]. split.
  { destruct (eight_bytes ping Hlen)
      as (p0 & p1 & p2 & p3 & p4 & p5 & p6 & p7 & ->).
    cbn [map]. rewrite !opaque_data_of_value.
    assert (∀ c, uint8_t (c - 256) = uint8_t c) as Hc.
    { intros c. unfold uint8_t.
      replace (c - 256) with (c + (-1) * 2 ^ 8) by lia.
      apply Z.mod_add. lia. }
    by rewrite !Hc. }
  split; [by apply Hbytes|].
  intros ping' Hlen' Heq.
  rewrite <- (proj2 (Hbytes ping' Hlen')), <- (proj2 (Hbytes ping Hlen)).
  by rewrite Heq.
Qed.

(** *** Waiting for bytes *)

(** [WaitForReadBytes] consumes the bytes read up to and including the
    first occurrence of [bytes] in the byte stream, however the stream is
    split into reads and slices, throws nothing and records no failure;
    when [bytes] never shows up it records a timeout, and returns with all
    the bytes of the stream left in [read_bytes_]. *)
Theorem wait_for_read_bytes_first_occurrence bytes t :
  (∀ w, find (stream t) bytes = Some w →
     ∃ t',
       WaitForReadBytes bytes t = Returned t' ∧
       failures t' = failures t ∧
       stream t' = drop (w + length bytes) (stream t)) ∧
  (find (stream t) bytes = None →
   WaitForReadBytes bytes t =
     Returned {| read_bytes_ := stream t; pending_reads := [];
                 failures := failures t ++ ["Timeout reading bytes"] |}) ∧
  ∀ pre post,
    stream t = pre ++ bytes ++ post →
    (∀ w, find (stream t) bytes = Some w → (length pre ≤ w)%nat) →
    ∃ t',
      WaitForReadBytes bytes t = Returned t' ∧
      failures t' = failures t ∧
      stream t' = post.
Proof.
  split; [|split].
  - intros w Hw. by apply WaitForReadBytes_loop_found.
  - intros Hn. by apply WaitForReadBytes_loop_missing.
  - intros pre post Hs Hfirst. rewrite Hs in Hfirst.
    pose proof (find_at pre bytes post Hfirst) as Hw. rewrite <- Hs in Hw.
    destruct (WaitForReadBytes_loop_found bytes (failures t) (pending_reads t)
                (read_bytes_ t) _ Hw) as (t' & Hrun & Hf & Hst).
    exists t'. split; [exact Hrun|]. split; [exact Hf|]. rewrite Hst.
    change (read_bytes_ t ++ mjoin (mjoin (pending_reads t))) with (stream t).
    rewrite Hs, app_assoc, drop_app_length'; [done|].
    rewrite length_app. lia.
Qed.

(** [WaitForNBytes] returns the next [bytes] bytes of the byte stream and
    leaves the rest, however the stream is split into reads and slices;
    when the stream is shorter it never returns. *)
Theorem wait_for_n_bytes_takes_prefix bytes t :
  ((bytes ≤ length (stream t))%nat →
   ∃ t',
     WaitForNBytes bytes t = Returned (take bytes (stream t), t') ∧
     failures t' = failures t ∧
     stream t' = drop bytes (stream t)) ∧
  ((length (stream t) < bytes)%nat → WaitForNBytes bytes t = Blocked).
Proof.
  split.
  - intros Hlen. by apply WaitForNBytes_loop_enough.
  - intros Hlen. by apply WaitForNBytes_loop_short.
Qed.

Lemma WaitForPing_steps whole_ping t t1 payload t2 :
  length whole_ping = 17%nat →
  WaitForReadBytes (take 9 whole_ping) t = Returned t1 →
  WaitForNBytes 8 t1 = Returned (payload, t2) →
  WaitForPing whole_ping t = Returned (opaque_data_of payload, t2).
Proof.
  intros Hwhole Hrun1 Hrun2.
  unfold WaitForPing. rewrite Hwhole. cbn [Nat.add Nat.eqb negb].
  unfold substr_n. rewrite Hwhole, drop_0. cbn [Nat.leb].
  unfold mbind at 1, result_bind at 1. rewrite Hrun1.
  unfold mbind at 1, result_bind at 1. by rewrite Hrun2.
Qed.

(** When the byte stream holds a ping frame (the 9 header bytes of
    [whole_ping] for the first time, then 8 payload bytes), [WaitForPing]
    returns the number the payload denotes in network byte order and
    leaves what follows the frame, however the frame is split into reads
    and slices, and records no failure. *)
Theorem wait_for_ping_returns_payload whole_ping pre payload post t :
  length whole_ping = 17%nat →
  length payload = 8%nat →
  stream t = pre ++ take 9 whole_ping ++ payload ++ post →
  (∀ w, find (stream t) (take 9 whole_ping) = Some w → (length pre ≤ w)%nat) →
  ∃ t',
    WaitForPing whole_ping t = Returned (big_endian_value payload, t') ∧
    failures t' = failures t ∧
    stream t' = post.
Proof.
  intros Hwhole Hpayload Hs Hfirst. rewrite Hs in Hfirst.
  pose proof (find_at pre (take 9 whole_ping) (payload ++ post) Hfirst) as Hw.
  rewrite <- Hs in Hw.
  destruct (WaitForReadBytes_loop_found (take 9 whole_ping) (failures t)
              (pending_reads t) (read_bytes_ t) _ Hw)
    as (t1 & Hrun1 & Hf1 & Hs1).
  change (read_bytes_ t ++ mjoin (mjoin (pending_reads t))) with (stream t)
    in Hs1.
  assert (stream t1 = payload ++ post) as Hs1'.
  { rewrite Hs1, Hs, app_assoc, drop_app_length'; [done|].
    rewrite length_app. lia. }
  destruct (WaitForNBytes_loop_enough 8 (failures t1) (pending_reads t1)
              (read_bytes_ t1))
    as (t2 & Hrun2 & Hf2 & Hs2).
  { change (read_bytes_ t1 ++ mjoin (mjoin (pending_reads t1)))
      with (stream t1). rewrite Hs1', length_app. lia. }
  change (read_bytes_ t1 ++ mjoin (mjoin (pending_reads t1)))
    with (stream t1) in Hrun2, Hs2.
  rewrite Hs1' in Hrun2, Hs2.
  rewrite take_app_length' in Hrun2 by done.
  rewrite drop_app_length' in Hs2 by done.
  exists t2. rewrite (WaitForPing_steps _ _ _ _ _ Hwhole Hrun1 Hrun2).
  rewrite opaque_data_of_big_endian by done.
  split; [done|]. split; [congruence|done].
Qed.

(** When the header of the ping frame never shows up, [WaitForPing] does
    not stop at the timeout of [WaitForReadBytes]: it records the failure
    and goes on to take the first 8 bytes of the stream as the payload, or
    never returns when the stream has fewer than 8 bytes. *)
Theorem wait_for_ping_after_timeout whole_ping t :
  length whole_ping = 17%nat →
  find (stream t) (take 9 whole_ping) = None →
  ((8 ≤ length (stream t))%nat →
   ∃ t',
     WaitForPing whole_ping t =
       Returned (big_endian_value (take 8 (stream t)), t') ∧
     failures t' = failures t ++ ["Timeout reading bytes"] ∧
     stream t' = drop 8 (stream t)) ∧
  ((length (stream t) < 8)%nat → WaitForPing whole_ping t = Blocked).
Proof.
  intros Hwhole Hnone.
  pose proof (WaitForReadBytes_loop_missing (take 9 whole_ping) (failures t)
                (pending_reads t) (read_bytes_ t) Hnone) as Hrun1.
  change (read_bytes_ t ++ mjoin (mjoin (pending_reads t))) with (stream t)
    in Hrun1.
  set (t1 := {| read_bytes_ := stream t; pending_reads := [];
                failures := failures t ++ ["Timeout reading bytes"] |}) in *.
  assert (stream t1 = stream t) as Hs1
    by (unfold stream at 1; simpl; by rewrite app_nil_r).
  split.
  - intros Hlen.
    destruct (WaitForNBytes_loop_enough 8 (failures t1) (pending_reads t1)
                (read_bytes_ t1)) as (t2 & Hrun2 & Hf2 & Hs2).
    { change (read_bytes_ t1 ++ mjoin (mjoin (pending_reads t1)))
        with (stream t1). by rewrite Hs1. }
    change (read_bytes_ t1 ++ mjoin (mjoin (pending_reads t1)))
      with (stream t1) in Hrun2, Hs2.
    rewrite Hs1 in Hrun2, Hs2.
    exists t2. rewrite (WaitForPing_steps _ _ _ _ _ Hwhole Hrun1 Hrun2).
    rewrite opaque_data_of_big_endian
      by (rewrite length_take; lia).
    done.
  - intros Hlen.
    unfold WaitForPing. rewrite Hwhole. cbn [Nat.add Nat.eqb negb].
    unfold substr_n. rewrite Hwhole, drop_0. cbn [Nat.leb].
    unfold mbind at 1, result_bind at 1.
    unfold WaitForReadBytes in Hrun1 |- *. rewrite Hrun1.
    unfold mbind at 1, result_bind at 1.
    unfold WaitForNBytes. rewrite WaitForNBytes_loop_short; [done|].
    change (read_bytes_ t1 ++ mjoin (mjoin (pending_reads t1)))
      with (stream t1). by rewrite Hs1.
Qed.

(** *** The properties on a concrete fixture *)

Lemma opaque_data_is_big_endian_witness :
  length [1; 2; 3; 4; 5; 6; 7; -8] = 8%nat ∧
  opaque_data_of [1; 2; 3; 4; 5; 6; 7; -8] = 72623859790383096.
Proof.
  split; [reflexivity|].
  rewrite (proj1 (opaque_data_is_big_endian [1; 2; 3; 4; 5; 6; 7; -8] eq_refl)).
  reflexivity.
Defined.

Lemma wait_for_read_bytes_first_occurrence_witness :
  find (stream example_fixture) [6; 0] = Some 5%nat ∧
  ∃ t',
    WaitForReadBytes [6; 0] example_fixture = Returned t' ∧
    stream t' = [0; 0; 0; 0; 1; 2; 3; 4; 5; 6; 7; 248; 9].
Proof.
  split; [reflexivity|].
  destruct (proj1 (wait_for_read_bytes_first_occurrence [6; 0] example_fixture)
              5%nat eq_refl) as (t' & Hrun & _ & Hs).
  exists t'. split; [exact Hrun|exact Hs].
Defined.

Lemma wait_for_n_bytes_takes_prefix_witness :
  (4 ≤ length (stream example_fixture))%nat ∧
  ∃ t',
    WaitForNBytes 4 example_fixture = Returned ([7; 7; 0; 0], t').
Proof.
  assert (4 ≤ length (stream example_fixture))%nat as Hlen
    by (vm_compute; lia).
  split; [exact Hlen|].
  destruct (proj1 (wait_for_n_bytes_takes_prefix 4 example_fixture) Hlen)
    as (t' & Hrun & _).
  exists t'. exact Hrun.
Defined.

Lemma wait_for_ping_returns_payload_witness :
  ∃ t',
    WaitForPing example_whole_ping example_fixture =
      Returned (72623859790383096, t') ∧
    stream t' = [9].
Proof.
  destruct (wait_for_ping_returns_payload example_whole_ping [7; 7]
              [1; 2; 3; 4; 5; 6; 7; 248] [9] example_fixture)
    as (t' & Hrun & _ & Hs).
  - reflexivity.
  - reflexivity.
  - reflexivity.
  - intros w Hw. vm_compute in Hw. injection Hw as <-. simpl. lia.
  - exists t'. split; [exact Hrun|exact Hs].
Defined.

Lemma wait_for_ping_after_timeout_witness :
  find (stream example_fixture) (take 9 (replicate 17 5)) = None ∧
  ∃ t',
    WaitForPing (replicate 17 5) example_fixture =
      Returned (506373483237081088, t') ∧
    failures t' = ["Timeout reading bytes"].
Proof.
  split; [reflexivity|].
  destruct (proj1 (wait_for_ping_after_timeout (replicate 17 5)
                     example_fixture eq_refl eq_refl))
    as (t' & Hrun & Hf & _).
  - vm_compute. lia.
  - exists t'. split; [exact Hrun|exact Hf].
Defined.

End Fixture.
